(** * Badminton queue server: matchmaking queue and rating engine

    A shallow embedding of the server's core (the [Player], [BadmintonMatch]
    and [BadmintonQueue] classes and the five request handlers built on them),
    of what the server reports (the status, the events it broadcasts) and of
    the client's selection of winners, followed by the properties of the
    queue, of the rating update and of the handlers.

    Conventions of the embedding.
    - A JavaScript number is an IEEE 754 binary64 value: Rocq's primitive
      [float], whose operations are the same correctly rounded ones.
    - Integer counters ([wins], [losses], [totalMatches]) and time values
      (milliseconds, what a [Date] holds) are kept in [Z]; a time difference is
      converted to a number where the source subtracts two dates.
    - A JavaScript string is its sequence of UTF-16 code units.
    - Objects are shared: a [Player] lives in a store and is named by its
      location; the registry, the queue entries and the match rosters all hold
      locations, so an update made through one of them is seen through the
      others.
    - Every [new Date()] evaluated while one request is served reads the same
      instant [now], an input of the request; every [uuidv4()] is an input of
      the request too.
    - [Array.prototype.sort] is the sort of V8, the engine of Node.js; a
      property lookup on a plain object also finds what [Object.prototype]
      provides. *)

From Stdlib Require Import ZArith Floats Lia.
From stdpp Require Import base option list strings sorting.

Set Warnings "-inexact-float".
Set Default Proof Using "Type".

(** ** JavaScript values *)

Module JS.

(** Reads an ASCII literal as a sequence of code units. *)
Definition str (s : String.string) : list N :=
  List.map Ascii.N_of_ascii (String.list_ascii_of_string s).

(** Strings, as sequences of UTF-16 code units. *)
Definition string := list N.

(** WhiteSpace and LineTerminator code points, the ones [trim] strips. *)
Definition is_white_space (c : N) : bool :=
  ((9 <=? c) && (c <=? 13) || (c =? 32) || (c =? 160) || (c =? 5760)
   || (8192 <=? c) && (c <=? 8202) || (c =? 8232) || (c =? 8233)
   || (c =? 8239) || (c =? 8287) || (c =? 12288) || (c =? 65279))%N.

Fixpoint trimStart (s : string) : string :=
  match s with
  | c :: s' => if is_white_space c then trimStart s' else s
  | [] => []
  end.

Definition trimEnd (s : string) : string := reverse (trimStart (reverse s)).

(** [String.prototype.trim]. *)
Definition trim (s : string) : string := trimEnd (trimStart s).

(** The number whose value is the integer [z], rounded to nearest
    (exact below 2^53, which covers every time value a [Date] can hold). *)
Definition of_Z (z : Z) : float := SF2Prim (binary_normalize prec emax z 0 false).

Local Open Scope float_scope.

Definition Math_abs (x : float) : float := abs x.

(** [Math.min] of two numbers: NaN if either is NaN, and -0 below +0. *)
Definition Math_min (x y : float) : float :=
  if is_nan x || is_nan y then nan
  else if x <? y then x
  else if y <? x then y
  else if is_zero x && get_sign x then x
  else y.

(** [Math.round]: the closest integer, a tie going towards +infinity; an
    integral, infinite or NaN argument is returned as it is, and a result of
    zero keeps the sign of a negative argument. For [x = v * 2^e] with [e < 0]
    the integer is [floor (x + 1/2) = (2 v + 2^-e) / 2^(1-e)], computed exactly. *)
Definition Math_round (x : float) : float :=
  match Prim2SF x with
  | S754_finite s m e =>
      if (0 <=? e)%Z then x
      else
        let v := if s then Z.neg m else Z.pos m in
        let n := ((2 * v + 2 ^ (- e)) / 2 ^ (1 - e))%Z in
        if (n =? 0)%Z && s then neg_zero else of_Z n
  | _ => x
  end.

Section Pow.

(** What the host computes for [Math.pow] outside the cases the language
    fixes: "an implementation-approximated value". It stays abstract. *)
Variable pow_approx : float -> float -> float.

(** [Math.pow]: NaN for a NaN exponent and 1 for an exponent of +0 or -0,
    whatever the base; every other case is the host's. *)
Definition Math_pow (base exponent : float) : float :=
  if is_nan exponent then nan
  else if is_zero exponent then 1
  else pow_approx base exponent.

End Pow.

(** Objects used as dictionaries with string keys that are not array indices
    (uuids here): the own properties in insertion order. *)
Section Dict.
Context {V : Type}.

Definition dict := list (string * V).

Fixpoint get (k : string) (d : dict) : option V :=
  match d with
  | [] => None
  | (k', v) :: d' => if decide (k = k') then Some v else get k d'
  end.

(** [d[k] = v]: an existing key keeps its place, a new one goes last. *)
Fixpoint set (k : string) (v : V) (d : dict) : dict :=
  match d with
  | [] => [(k, v)]
  | (k', v') :: d' => if decide (k = k') then (k, v) :: d' else (k', v') :: set k v d'
  end.

Definition values (d : dict) : list V := snd <$> d.
End Dict.
Arguments dict : clear implicits.

(** [Array.prototype.findIndex]: the first index whose element satisfies
    [f], or -1. *)
Definition findIndex {A} (f : A -> bool) (l : list A) : Z :=
  match list_find (fun x => Is_true (f x)) l with
  | Some (i, _) => Z.of_nat i
  | None => -1
  end.

(** [Array.prototype.find]: the first element that satisfies [f]. *)
Definition find {A} (f : A -> bool) (l : list A) : option A :=
  snd <$> list_find (fun x => Is_true (f x)) l.

(** [Array.prototype.sort] with a comparison function, the way V8 (Node.js)
    sorts: the run that starts the array is found and, if it descends, reversed
    ([CountAndMakeRun]); the other elements are then put into it one after the
    other, each at the place a binary search gives ([BinaryInsertionSort]).
    This is the whole of V8's sort for arrays of fewer than 64 elements. A
    longer array is cut into runs made this way, which are then merged; that
    gives the same array whenever the comparison function is consistent, and
    the model sorts such an array as one run. *)
Section Sort.
Context {A : Type} (comparefn : A -> A -> float).

(** Whether [x] is to go before [y]: the result of the comparison function,
    a NaN counting as +0, is tested with [order < 0]. *)
Definition before (x y : A) : bool := comparefn x y <? 0.

(** How many elements of [l] continue a run whose last element so far is
    [previous]: a descending run goes on while [order < 0], an ascending one
    while [order >= 0]. *)
Fixpoint run_tail (isDescending : bool) (previous : A) (l : list A) : nat :=
  match l with
  | current :: l' =>
      if Bool.eqb (before current previous) isDescending
      then S (run_tail isDescending current l')
      else 0
  | [] => 0
  end.

(** [CountAndMakeRun]: the run at the start of the array, made ascending, and
    the rest of the array. *)
Definition countAndMakeRun (l : list A) : list A * list A :=
  match l with
  | elementHigh :: elementLow :: l' =>
      let isDescending := before elementLow elementHigh in
      let runLength := (2 + run_tail isDescending elementLow l')%nat in
      (if isDescending then reverse (take runLength l) else take runLength l,
       drop runLength l)
  | _ => (l, [])
  end.

(** The binary search of [BinaryInsertionSort] for the place of [pivot]
    between [left] and [right]. An interval of [n] elements is settled in at
    most [n] steps, which is what [fuel] counts. *)
Fixpoint search (fuel : nat) (pivot : A) (a : list A) (left right : nat) : nat :=
  match fuel with
  | S fuel =>
      if (left <? right)%nat then
        let mid := (left + (right - left) / 2)%nat in
        match a !! mid with
        | Some x =>
            if before pivot x then search fuel pivot a left mid
            else search fuel pivot a (mid + 1)%nat right
        | None => left
        end
      else left
  | O => left
  end.

(** One round of [BinaryInsertionSort]: [pivot] is put into the sorted part
    [a] at the place found, the elements from there on moving up. *)
Definition binaryInsertion (a : list A) (pivot : A) : list A :=
  let left := search (length a) pivot a 0 (length a) in
  take left a ++ pivot :: drop left a.

Definition sort (l : list A) : list A :=
  let '(run, rest) := countAndMakeRun l in foldl binaryInsertion run rest.

(** [x] may stay before [y]: the comparison does not put [y] before [x]. *)
Definition not_after (x y : A) : Prop := before y x = false.

(** The comparison is consistent on the elements of [l]: it never puts each
    of two elements before the other, and [not_after] is transitive. *)
Definition consistent_on (l : list A) : Prop :=
  (forall x y, x ∈ l -> y ∈ l -> before x y = true -> before y x = false) /\
  (forall x y z, x ∈ l -> y ∈ l -> z ∈ l ->
     not_after x y -> not_after y z -> not_after x z).

#[global] Instance not_after_dec x y : Decision (not_after x y).
Proof. unfold not_after. apply _. Defined.

#[global] Instance consistent_on_dec l : Decision (consistent_on l).
Proof.
  refine
    (cast_if
       (decide
          (Forall
             (fun x =>
                Forall
                  (fun y =>
                     (before x y = true -> before y x = false) /\
                     Forall
                       (fun z => not_after x y -> not_after y z -> not_after x z)
                       l)
                  l)
             l))).
  - split.
    + intros x y Hx Hy.
      eapply (proj1 (proj1 (Forall_forall _ _)
                       (proj1 (Forall_forall _ _) f x Hx) y Hy)).
    + intros x y z Hx Hy Hz.
      eapply (proj1 (Forall_forall _ _)
                (proj2 (proj1 (Forall_forall _ _)
                          (proj1 (Forall_forall _ _) f x Hx) y Hy)) z Hz).
  - intros [Hasym Htrans]. apply n.
    apply Forall_forall. intros x Hx. apply Forall_forall. intros y Hy.
    split; [by apply Hasym|].
    apply Forall_forall. intros z Hz. by apply Htrans.
Defined.
End Sort.

(** The names of the properties that every object inherits from
    [Object.prototype]: a lookup [o[k]] that finds no own property [k] finds
    the built-in object of that name. *)
Definition Object_prototype : list string :=
  [ str "constructor"; str "__defineGetter__"; str "__defineSetter__";
    str "hasOwnProperty"; str "__lookupGetter__"; str "__lookupSetter__";
    str "isPrototypeOf"; str "propertyIsEnumerable"; str "toString";
    str "valueOf"; str "__proto__"; str "toLocaleString" ].

End JS.

(** ** Data model *)

(** A location in the store of [Player] objects, or of matches. *)
Abbreviation loc := nat (only parsing).

(** [class Player]. *)
Record Player := mkPlayer {
  p_id : JS.string;
  p_name : JS.string;
  ranking : float;
  wins : Z;
  losses : Z;
  totalMatches : Z;
  queueWeight : float;
  lastMatchTime : option Z;
  isInQueue : bool;
  isInMatch : bool
}.

(** [new Player(name)], with [uuid] the value [uuidv4()] returns. *)
Definition new_Player (uuid name : JS.string) : Player :=
  {| p_id := uuid; p_name := name; ranking := 1200; wins := 0; losses := 0;
     totalMatches := 0; queueWeight := 1.0; lastMatchTime := None;
     isInQueue := false; isInMatch := false |}.

#[global] Instance Player_inhabited : Inhabited Player :=
  populate (new_Player [] []).

Definition set_ranking (r : float) (p : Player) : Player :=
  {| p_id := p_id p; p_name := p_name p; ranking := r; wins := wins p;
     losses := losses p; totalMatches := totalMatches p;
     queueWeight := queueWeight p; lastMatchTime := lastMatchTime p;
     isInQueue := isInQueue p; isInMatch := isInMatch p |}.

Definition set_wins (w : Z) (p : Player) : Player :=
  {| p_id := p_id p; p_name := p_name p; ranking := ranking p; wins := w;
     losses := losses p; totalMatches := totalMatches p;
     queueWeight := queueWeight p; lastMatchTime := lastMatchTime p;
     isInQueue := isInQueue p; isInMatch := isInMatch p |}.

Definition set_losses (l : Z) (p : Player) : Player :=
  {| p_id := p_id p; p_name := p_name p; ranking := ranking p; wins := wins p;
     losses := l; totalMatches := totalMatches p;
     queueWeight := queueWeight p; lastMatchTime := lastMatchTime p;
     isInQueue := isInQueue p; isInMatch := isInMatch p |}.

Definition set_totalMatches (t : Z) (p : Player) : Player :=
  {| p_id := p_id p; p_name := p_name p; ranking := ranking p; wins := wins p;
     losses := losses p; totalMatches := t;
     queueWeight := queueWeight p; lastMatchTime := lastMatchTime p;
     isInQueue := isInQueue p; isInMatch := isInMatch p |}.

Definition set_queueWeight (w : float) (p : Player) : Player :=
  {| p_id := p_id p; p_name := p_name p; ranking := ranking p; wins := wins p;
     losses := losses p; totalMatches := totalMatches p;
     queueWeight := w; lastMatchTime := lastMatchTime p;
     isInQueue := isInQueue p; isInMatch := isInMatch p |}.

Definition set_lastMatchTime (t : option Z) (p : Player) : Player :=
  {| p_id := p_id p; p_name := p_name p; ranking := ranking p; wins := wins p;
     losses := losses p; totalMatches := totalMatches p;
     queueWeight := queueWeight p; lastMatchTime := t;
     isInQueue := isInQueue p; isInMatch := isInMatch p |}.

Definition set_isInQueue (b : bool) (p : Player) : Player :=
  {| p_id := p_id p; p_name := p_name p; ranking := ranking p; wins := wins p;
     losses := losses p; totalMatches := totalMatches p;
     queueWeight := queueWeight p; lastMatchTime := lastMatchTime p;
     isInQueue := b; isInMatch := isInMatch p |}.

Definition set_isInMatch (b : bool) (p : Player) : Player :=
  {| p_id := p_id p; p_name := p_name p; ranking := ranking p; wins := wins p;
     losses := losses p; totalMatches := totalMatches p;
     queueWeight := queueWeight p; lastMatchTime := lastMatchTime p;
     isInQueue := isInQueue p; isInMatch := b |}.

(** The membership state of the specification, read off the two flags. *)
Inductive Membership := Idle | Queued | InSession.

Definition membership (p : Player) : Membership :=
  if isInMatch p then InSession else if isInQueue p then Queued else Idle.

(** An entry of [badmintonQueue]. *)
Record QueueItem := mkQueueItem {
  player : loc;
  joinTime : Z;
  weight : float
}.

#[global] Instance QueueItem_inhabited : Inhabited QueueItem :=
  populate (mkQueueItem 0 0 0).

Inductive Status := active | completed.

(** [class BadmintonMatch]; [courtNumber] is never assigned and stays null. *)
Record BadmintonMatch := mkMatch {
  m_id : JS.string;
  m_players : list loc;
  startTime : Z;
  endTime : option Z;
  result : option (list loc * list loc);
  courtNumber : option Z;
  status : Status
}.

#[global] Instance BadmintonMatch_inhabited : Inhabited BadmintonMatch :=
  populate (mkMatch [] [] 0 None None None completed).

(** The server's state: the two object stores and the five module-level
    variables [players], [matches], [activeMatches], [completedMatches] and
    [badmintonQueue]; and, of the built-in objects of [Object.prototype], the
    names of those on which [isInQueue] has been set (see [rejoin]). *)
Record State := mkState {
  heap : list Player;
  match_heap : list BadmintonMatch;
  players : JS.dict loc;
  matches : JS.dict loc;
  activeMatches : list loc;
  completedMatches : list loc;
  badmintonQueue : list QueueItem;
  flagged : list JS.string
}.

Definition initial : State := mkState [] [] [] [] [] [] [] [].

Definition set_heap (h : list Player) (st : State) : State :=
  mkState h (match_heap st) (players st) (matches st) (activeMatches st)
    (completedMatches st) (badmintonQueue st) (flagged st).

Definition set_match_heap (h : list BadmintonMatch) (st : State) : State :=
  mkState (heap st) h (players st) (matches st) (activeMatches st)
    (completedMatches st) (badmintonQueue st) (flagged st).

Definition set_players (d : JS.dict loc) (st : State) : State :=
  mkState (heap st) (match_heap st) d (matches st) (activeMatches st)
    (completedMatches st) (badmintonQueue st) (flagged st).

Definition set_matches (d : JS.dict loc) (st : State) : State :=
  mkState (heap st) (match_heap st) (players st) d (activeMatches st)
    (completedMatches st) (badmintonQueue st) (flagged st).

Definition set_activeMatches (l : list loc) (st : State) : State :=
  mkState (heap st) (match_heap st) (players st) (matches st) l
    (completedMatches st) (badmintonQueue st) (flagged st).

Definition set_completedMatches (l : list loc) (st : State) : State :=
  mkState (heap st) (match_heap st) (players st) (matches st) (activeMatches st)
    l (badmintonQueue st) (flagged st).

Definition set_badmintonQueue (q : list QueueItem) (st : State) : State :=
  mkState (heap st) (match_heap st) (players st) (matches st) (activeMatches st)
    (completedMatches st) q (flagged st).

Definition set_flagged (f : list JS.string) (st : State) : State :=
  mkState (heap st) (match_heap st) (players st) (matches st) (activeMatches st)
    (completedMatches st) (badmintonQueue st) f.

(** What a method of [BadmintonQueue] returns: [{ success: true, ... }] or
    [{ success: false, message }]. *)
Inductive outcome (A : Type) :=
| Success (a : A)
| Failure (message : String.string).
Arguments Success {A} a.
Arguments Failure {A} message.

(** The error kinds of the specification, as the messages that carry them. *)
Definition AlreadyActive : String.string := "Player already in queue or match"%string.
Definition NotQueued : String.string := "Player not in queue"%string.
Definition InsufficientEntries : String.string :=
  "Need at least 4 players to create a match"%string.

(** What a request handler answers: the HTTP status and the JSON body. *)
Record reply (A : Type) := mkReply {
  code : Z;
  body : outcome A
}.
Arguments mkReply {A} code body.
Arguments code {A} r.
Arguments body {A} r.

(** [xs.forEach(x => ...)], the body updating the player [g x] by [f]: the
    updates are applied to the store one after the other. *)
Definition alter_all {X} (g : X -> loc) (f : Player -> Player)
    (h : list Player) (xs : list X) : list Player :=
  foldl (fun h x => alter f (g x) h) h xs.

(** ** The classes *)

Section Server.

(** The host's approximation of [Math.pow]; see [JS.Math_pow]. *)
Variable pow_approx : float -> float -> float.

(** [Player.updateRanking]. *)
Definition updateRanking (won : bool) (opponentRanking : float)
    (this : Player) : Player :=
  let K := 32%float in
  let expectedScore :=
    (1 / (1 + JS.Math_pow pow_approx 10
                ((opponentRanking - ranking this) / 400)))%float in
  let actualScore := if won then 1%float else 0%float in
  let this :=
    set_ranking
      (JS.Math_round (ranking this + K * (actualScore - expectedScore))%float)
      this in
  let this :=
    if won then set_wins (wins this + 1) this
    else set_losses (losses this + 1) this in
  set_totalMatches (totalMatches this + 1) this.

(** [Player.calculateQueueWeight], at the instant [now]; the value it
    returns is the [queueWeight] it stores. *)
Definition calculateQueueWeight (now : Z) (this : Player) : Player :=
  let weight := 1.0%float in
  let weight :=
    match lastMatchTime this with
    | Some t =>
        let timeSinceLastMatch := (JS.of_Z (now - t) / (1000 * 60))%float in
        (weight + JS.Math_min (timeSinceLastMatch / 30) 2.0)%float
    | None => weight
    end in
  let weight :=
    if (ranking this <? 1000)%float then (weight + 0.3)%float else weight in
  set_queueWeight (JS.Math_round (weight * 100) / 100)%float this.

(** The comparison function [addPlayer] sorts the queue with. *)
Definition compareFn (a b : QueueItem) : float :=
  if (JS.Math_abs (weight a - weight b) <? 0.01)%float
  then JS.of_Z (joinTime a - joinTime b)
  else (weight b - weight a)%float.

(** [BadmintonQueue.addPlayer]; on success the value is [queuePosition]. *)
Definition addPlayer (now : Z) (pl : loc) (st : State) : State * outcome Z :=
  let this := heap st !!! pl in
  if isInQueue this || isInMatch this then (st, Failure AlreadyActive)
  else
    let h :=
      alter (fun p => calculateQueueWeight now (set_isInQueue true p)) pl
        (heap st) in
    let item := mkQueueItem pl now (queueWeight (h !!! pl)) in
    let q := JS.sort compareFn (badmintonQueue st ++ [item]) in
    (set_badmintonQueue q (set_heap h st),
     Success
       (JS.findIndex
          (fun q => bool_decide (p_id (h !!! player q) = p_id (h !!! pl))) q
        + 1)%Z).

(** [BadmintonQueue.removePlayer]; on success the value is the player. *)
Definition removePlayer (playerId : JS.string) (st : State)
    : State * outcome loc :=
  let index :=
    JS.findIndex
      (fun q => bool_decide (p_id (heap st !!! player q) = playerId))
      (badmintonQueue st) in
  if (index =? -1)%Z then (st, Failure NotQueued)
  else
    let queueItem := badmintonQueue st !!! Z.to_nat index in
    (set_badmintonQueue (delete (Z.to_nat index) (badmintonQueue st))
       (set_heap (alter (set_isInQueue false) (player queueItem) (heap st)) st),
     Success (player queueItem)).

(** [BadmintonQueue.createMatch], with [uuid] the id the new match gets;
    on success the value is the match. *)
Definition createMatch (now : Z) (uuid : JS.string) (st : State)
    : State * outcome loc :=
  if (length (badmintonQueue st) <? 4)%nat then (st, Failure InsufficientEntries)
  else
    let taken := take 4 (badmintonQueue st) in
    let h :=
      alter_all player (fun p => set_isInMatch true (set_isInQueue false p))
        (heap st) taken in
    let matchPlayers := player <$> taken in
    let m := mkMatch uuid matchPlayers now None None None active in
    let ml := length (match_heap st) in
    (mkState h (match_heap st ++ [m]) (players st)
       (JS.set uuid ml (matches st)) (activeMatches st ++ [ml])
       (completedMatches st) (drop 4 (badmintonQueue st)) (flagged st),
     Success ml).

(** The rating a team is credited with:
    [team.reduce((sum, p) => sum + p.ranking, 0) / 2]. *)
Definition avgRanking (h : list Player) (team : list loc) : float :=
  (foldl (fun sum p => sum + ranking (h !!! p)) 0 team / 2)%float.

(** What [completeMatch] does to one player of the roster. *)
Definition settle (now : Z) (won : bool) (opponentRanking : float)
    (p : Player) : Player :=
  set_isInMatch false
    (set_lastMatchTime (Some now) (updateRanking won opponentRanking p)).

(** [BadmintonMatch.completeMatch], on the match at [ml]. *)
Definition completeMatch (now : Z) (ml : loc) (winners losers : list loc)
    (st : State) : State :=
  let mh :=
    alter
      (fun m =>
         mkMatch (m_id m) (m_players m) (startTime m) (Some now)
           (Some (winners, losers)) (courtNumber m) completed)
      ml (match_heap st) in
  let winnerAvgRanking := avgRanking (heap st) winners in
  let loserAvgRanking := avgRanking (heap st) losers in
  let h := alter_all id (settle now true loserAvgRanking) (heap st) winners in
  let h := alter_all id (settle now false winnerAvgRanking) h losers in
  set_heap h (set_match_heap mh st).

End Server.

(** ** The request handlers *)

Definition InvalidOutcome {A} (message : string) : reply A :=
  mkReply 400 (Failure message).
Definition SessionNotFound {A} : reply A :=
  mkReply 404 (Failure "Active match not found").
Definition NotFound {A} : reply A :=
  mkReply 404 (Failure "Player not found").

(** The answer of [POST /api/badminton/join]: a 400, or a 200 that carries
    the outcome of [addPlayer] and reports the player it addressed. *)
Inductive join_reply :=
| join_400 (message : string)
| join_200 (result : outcome Z) (addressed : loc).

Section Handlers.

Variable pow_approx : float -> float -> float.

(** [Object.values(players).find(p => p.name === name)]. *)
Definition find_by_name (name : JS.string) (st : State) : option loc :=
  JS.find (fun l => bool_decide (p_name (heap st !!! l) = name))
    (JS.values (players st)).

(** [POST /api/badminton/join]. An absent [playerName] is [None]; [uuid] is
    the id a new player would get. *)
Definition join (now : Z) (uuid : JS.string) (playerName : option JS.string)
    (st : State) : State * join_reply :=
  match playerName with
  | None => (st, join_400 "Player name is required")
  | Some playerName =>
      if bool_decide (playerName = []) || bool_decide (JS.trim playerName = [])
      then (st, join_400 "Player name is required")
      else
        match find_by_name (JS.trim playerName) st with
        | Some pl =>
            let '(st', r) := addPlayer now pl st in (st', join_200 r pl)
        | None =>
            let pl := length (heap st) in
            let st1 :=
              set_players (JS.set uuid pl (players st))
                (set_heap (heap st ++ [new_Player uuid (JS.trim playerName)]) st) in
            let '(st', r) := addPlayer now pl st1 in (st', join_200 r pl)
        end
  end.

(** [DELETE /api/badminton/leave/:playerId]. *)
Definition leave (playerId : JS.string) (st : State) : State * reply loc :=
  let '(st', r) := removePlayer playerId st in (st', mkReply 200 r).

(** [POST /api/badminton/create-match]. *)
Definition create_match (now : Z) (uuid : JS.string) (st : State)
    : State * reply loc :=
  let '(st', r) := createMatch now uuid st in (st', mkReply 200 r).

(** [match.players.filter(p => winnerIds.includes(p.id))] and its complement;
    [includes] is membership in the list. *)
Definition winners_of (st : State) (m : BadmintonMatch)
    (winnerIds : list JS.string) : list loc :=
  filter (fun p => p_id (heap st !!! p) ∈ winnerIds) (m_players m).

Definition losers_of (st : State) (m : BadmintonMatch)
    (winnerIds : list JS.string) : list loc :=
  filter (fun p => p_id (heap st !!! p) ∉ winnerIds) (m_players m).

(** "Move match from active to completed": the first active match with the
    id is taken out of [activeMatches] and the match is pushed on
    [completedMatches]; if none has the id, nothing moves. *)
Definition move_to_completed (matchId : JS.string) (ml : loc) (st : State)
    : State :=
  let activeIndex :=
    JS.findIndex (fun m => bool_decide (m_id (match_heap st !!! m) = matchId))
      (activeMatches st) in
  if (activeIndex =? -1)%Z then st
  else
    set_completedMatches (completedMatches st ++ [ml])
      (set_activeMatches (delete (Z.to_nat activeIndex) (activeMatches st)) st).

(** [POST /api/badminton/complete-match]. Absent fields of the body are
    [None]; on success the value is the match. *)
Definition complete_match (now : Z) (matchId : option JS.string)
    (winnerIds : option (list JS.string)) (st : State) : State * reply loc :=
  match matchId, winnerIds with
  | Some matchId, Some winnerIds =>
      if bool_decide (matchId = []) || negb (length winnerIds =? 2)%nat
      then (st, InvalidOutcome "Match ID and 2 winner IDs required")
      else
        match JS.get matchId (matches st) with
        | None => (st, SessionNotFound)
        | Some ml =>
            let m := match_heap st !!! ml in
            match status m with
            | completed => (st, SessionNotFound)
            | active =>
                let winners := winners_of st m winnerIds in
                let losers := losers_of st m winnerIds in
                if negb (length winners =? 2)%nat || negb (length losers =? 2)%nat
                then (st, InvalidOutcome "Invalid winner selection")
                else
                  let st1 := completeMatch pow_approx now ml winners losers st in
                  (move_to_completed matchId ml st1, mkReply 200 (Success ml))
            end
        end
  | _, _ => (st, InvalidOutcome "Match ID and 2 winner IDs required")
  end.

(** Whether [players[playerId]], finding no player registered under
    [playerId], finds something inherited: a built-in object of
    [Object.prototype], or the value [true] of [isInQueue] once that has been
    set on [Object.prototype] itself. *)
Definition inherited (playerId : JS.string) (st : State) : bool :=
  bool_decide (playerId ∈ JS.Object_prototype)
  || bool_decide (playerId = JS.str "isInQueue")
     && bool_decide (JS.str "__proto__" ∈ flagged st).

(** What [player.isInQueue] is for such a value: set on the built-in object
    itself, or inherited from [Object.prototype]. *)
Definition inherited_isInQueue (playerId : JS.string) (st : State) : bool :=
  bool_decide (playerId ∈ flagged st)
  || bool_decide (JS.str "__proto__" ∈ flagged st).

(** The answer of [POST /api/badminton/rejoin/:playerId]: a JSON body with
    its status, or the status 500 that Express gives the [TypeError] thrown. *)
Inductive rejoin_reply :=
| rejoin_json (r : reply Z)
| rejoin_TypeError.

(** [POST /api/badminton/rejoin/:playerId]. With an id that names a property
    of [Object.prototype] the lookup finds a built-in object, which has no
    [isInMatch]; [addPlayer] refuses it if its [isInQueue] is set, and
    otherwise sets that and stops at [player.calculateQueueWeight()], which is
    not a function, before the queue is touched. *)
Definition rejoin (now : Z) (playerId : JS.string) (st : State)
    : State * rejoin_reply :=
  match JS.get playerId (players st) with
  | None =>
      if inherited playerId st then
        if inherited_isInQueue playerId st
        then (st, rejoin_json (mkReply 200 (Failure AlreadyActive)))
        else (set_flagged (flagged st ++ [playerId]) st, rejoin_TypeError)
      else (st, rejoin_json NotFound)
  | Some pl =>
      if isInMatch (heap st !!! pl)
      then (st, rejoin_json (mkReply 400 (Failure "Player is currently in a match")))
      else
        let '(st', r) := addPlayer now pl st in (st', rejoin_json (mkReply 200 r))
  end.

(** A request, with the instant it is served at and the uuid it would draw. *)
Inductive request :=
| Join (now : Z) (uuid : JS.string) (playerName : option JS.string)
| Leave (playerId : JS.string)
| CreateMatch (now : Z) (uuid : JS.string)
| CompleteMatch (now : Z) (matchId : option JS.string)
    (winnerIds : option (list JS.string))
| Rejoin (now : Z) (playerId : JS.string).

Definition step (st : State) (r : request) : State :=
  match r with
  | Join now uuid playerName => (join now uuid playerName st).1
  | Leave playerId => (leave playerId st).1
  | CreateMatch now uuid => (create_match now uuid st).1
  | CompleteMatch now matchId winnerIds =>
      (complete_match now matchId winnerIds st).1
  | Rejoin now playerId => (rejoin now playerId st).1
  end.

(** The state after serving the requests in order. *)
Definition run (rs : list request) (st : State) : State := foldl step st rs.

End Handlers.

(** ** The specification's notions *)

(** The rating engine as the specification writes it: the expected score
    [E = 1 / (1 + 10^((opponentRating - selfRating)/400))] and the new rating
    [round(selfRating + 32 * (actual - E))]. *)
Definition expected_score (pow_approx : float -> float -> float)
    (selfRating opponentRating : float) : float :=
  (1 / (1 + JS.Math_pow pow_approx 10 ((opponentRating - selfRating) / 400)))%float.

Definition elo_rating (pow_approx : float -> float -> float)
    (selfRating opponentRating : float) (won : bool) : float :=
  JS.Math_round
    (selfRating
     + 32 * ((if won then 1 else 0)
             - expected_score pow_approx selfRating opponentRating))%float.

(** The arithmetic mean of a list of ratings. *)
Definition arithmetic_mean (rs : list float) : float :=
  (foldl PrimFloat.add 0 rs / JS.of_Z (Z.of_nat (length rs)))%float.

(** [completeMatch] with the two sides processed in the other order: the
    losers first, then the winners. *)
Definition completeMatch_losers_first (pow_approx : float -> float -> float)
    (now : Z) (ml : loc) (winners losers : list loc) (st : State) : State :=
  let mh :=
    alter
      (fun m =>
         mkMatch (m_id m) (m_players m) (startTime m) (Some now)
           (Some (winners, losers)) (courtNumber m) completed)
      ml (match_heap st) in
  let winnerAvgRanking := avgRanking (heap st) winners in
  let loserAvgRanking := avgRanking (heap st) losers in
  let h :=
    alter_all id (settle pow_approx now false winnerAvgRanking) (heap st) losers in
  let h := alter_all id (settle pow_approx now true loserAvgRanking) h winners in
  set_heap h (set_match_heap mh st).

(** The active match an id denotes, if any: what [matches[matchId]] finds,
    provided its status is still [active]. *)
Definition active_match (st : State) (matchId : JS.string) : option loc :=
  match JS.get matchId (matches st) with
  | Some ml =>
      match status (match_heap st !!! ml) with
      | active => Some ml
      | completed => None
      end
  | None => None
  end.

(** The ids of the roster of a match. *)
Definition roster_ids (st : State) (m : BadmintonMatch) : list JS.string :=
  (fun l => p_id (heap st !!! l)) <$> m_players m.

(** [winnerIds] names half of a roster of four: two distinct ids, each the id
    of a member. *)
Definition names_half (st : State) (m : BadmintonMatch)
    (winnerIds : list JS.string) : Prop :=
  length winnerIds = 2 /\ NoDup winnerIds /\
  forall w, w ∈ winnerIds -> w ∈ roster_ids st m.

(** A request body that lacks the match id or does not carry exactly two
    winner ids. *)
Definition malformed (matchId : option JS.string)
    (winnerIds : option (list JS.string)) : Prop :=
  forall mid wids, matchId = Some mid -> winnerIds = Some wids ->
    mid = [] \/ length wids <> 2.

(** The closed examples need some host power function. None of them reaches
    it (wherever they update a rating the two ratings are equal, so the
    exponent is zero); it answers NaN, so that reaching it would show. *)
Definition unreached_pow : float -> float -> float := fun _ _ => nan.

(** The queue order of the specification: [a] may stand before [b] when its
    weight is higher, or, the two weights differing by less than 0.01, when it
    was admitted no later. *)
Definition precedes (a b : QueueItem) : Prop :=
  if (JS.Math_abs (weight a - weight b) <? 0.01)%float
  then (joinTime a <= joinTime b)%Z
  else (weight b <? weight a)%float = true.

#[global] Instance precedes_dec a b : Decision (precedes a b).
Proof. unfold precedes. destruct (_ <? _)%float; apply _. Defined.

(** A queue is ordered when every entry may stand before all the later ones. *)
Definition ordered (q : list QueueItem) : Prop := StronglySorted precedes q.

(** The binary64 encoding of the integer [k], for [|k| < 2^53]: the mantissa
    is shifted to 53 bits. *)
Definition mant (m : positive) : positive :=
  Z.to_pos (Zpos m * 2 ^ (53 - Zpos (digits2_pos m))).

Definition canon (k : Z) : spec_float :=
  match k with
  | Z0 => S754_zero false
  | Zpos m => S754_finite false (mant m) (Zpos (digits2_pos m) - 53)
  | Zneg m => S754_finite true (mant m) (Zpos (digits2_pos m) - 53)
  end.

(** Four players join, play one match, and three of them come back 37.2,
    37.5 and 37.8 minutes after it ended. *)
Definition weight_cycle : list request :=
  [ Join 0 (JS.str "a") (Some (JS.str "Ann"));
    Join 1 (JS.str "b") (Some (JS.str "Bob"));
    Join 2 (JS.str "c") (Some (JS.str "Cy"));
    Join 3 (JS.str "d") (Some (JS.str "Di"));
    CreateMatch 10 (JS.str "m");
    CompleteMatch 1000 (Some (JS.str "m")) (Some [JS.str "a"; JS.str "b"]);
    Rejoin (1000 + 2232000) (JS.str "a");
    Rejoin (1000 + 2250000) (JS.str "b");
    Rejoin (1000 + 2268000) (JS.str "c") ].

(** Four players play one match and a fifth joins while they rest; the first
    two come back 37.2 and 37.5 minutes after the match ended. The third is
    then about to come back, 37.8 minutes after it. *)
Definition rank_cycle : list request :=
  [ Join 0 (JS.str "a") (Some (JS.str "Ann"));
    Join 1 (JS.str "b") (Some (JS.str "Bob"));
    Join 2 (JS.str "c") (Some (JS.str "Cy"));
    Join 3 (JS.str "d") (Some (JS.str "Di"));
    CreateMatch 10 (JS.str "m");
    CompleteMatch 1000 (Some (JS.str "m")) (Some [JS.str "a"; JS.str "b"]);
    Join 2000 (JS.str "z") (Some (JS.str "Zoe"));
    Rejoin (1000 + 2232000) (JS.str "a");
    Rejoin (1000 + 2250000) (JS.str "b") ].

(** Eight players play two matches, both ended at the instant 1000, and a
    ninth joins while they rest; five of the eight come back, 37.2 minutes
    after the matches ended, then 37.5 minutes and one and two seconds more,
    then 37.8 minutes. *)
Definition passed_over : list request :=
  [ Join 0 (JS.str "a") (Some (JS.str "Ann"));
    Join 1 (JS.str "b") (Some (JS.str "Bob"));
    Join 2 (JS.str "c") (Some (JS.str "Cy"));
    Join 3 (JS.str "d") (Some (JS.str "Di"));
    Join 4 (JS.str "e") (Some (JS.str "Eve"));
    Join 5 (JS.str "f") (Some (JS.str "Fay"));
    Join 6 (JS.str "g") (Some (JS.str "Gus"));
    Join 7 (JS.str "h") (Some (JS.str "Hal"));
    CreateMatch 10 (JS.str "m");
    CreateMatch 11 (JS.str "n");
    CompleteMatch 1000 (Some (JS.str "m")) (Some [JS.str "a"; JS.str "b"]);
    CompleteMatch 1000 (Some (JS.str "n")) (Some [JS.str "e"; JS.str "f"]);
    Join 2000 (JS.str "z") (Some (JS.str "Zoe"));
    Rejoin (1000 + 2232000) (JS.str "a");
    Rejoin (1000 + 2250000) (JS.str "b");
    Rejoin (1000 + 2251000) (JS.str "c");
    Rejoin (1000 + 2252000) (JS.str "d");
    Rejoin (1000 + 2268000) (JS.str "e") ].

(** The states the server can be in. Distinct players have distinct ids (what
    [uuidv4] is relied on for); the queue holds live players, each once, and
    exactly those flagged [isInQueue]; no player is flagged both ways; the
    roster of a match that is still active has four distinct live players, all
    flagged [isInMatch], and shares none with another active match; the match
    index points to stored matches and the registry to live players, each
    under its id. *)
Record wf (st : State) : Prop := mk_wf {
  wf_ids : NoDup (p_id <$> heap st);
  wf_queue_valid :
    forall e, e ∈ badmintonQueue st -> player e < length (heap st);
  wf_queue_nodup : NoDup (player <$> badmintonQueue st);
  wf_queued :
    forall l p, heap st !! l = Some p ->
      (isInQueue p = true <-> l ∈ player <$> badmintonQueue st);
  wf_exclusive :
    forall l p, heap st !! l = Some p -> isInMatch p = true -> isInQueue p = false;
  wf_roster :
    forall ml m, match_heap st !! ml = Some m -> status m = active ->
      length (m_players m) = 4 /\ NoDup (m_players m) /\
      forall l, l ∈ m_players m ->
        exists p, heap st !! l = Some p /\ isInMatch p = true;
  wf_disjoint :
    forall ml1 ml2 m1 m2 l,
      match_heap st !! ml1 = Some m1 -> status m1 = active ->
      match_heap st !! ml2 = Some m2 -> status m2 = active ->
      l ∈ m_players m1 -> l ∈ m_players m2 -> ml1 = ml2;
  wf_matches :
    forall k ml, JS.get k (matches st) = Some ml -> ml < length (match_heap st);
  wf_players :
    forall l, l ∈ JS.values (players st) -> l < length (heap st);
  wf_keys :
    forall k l, (k, l) ∈ players st -> p_id (heap st !!! l) = k
}.

(** A request draws a fresh uuid: a [Join] that has to create a player is not
    handed the id of an existing one. *)
Definition fresh_uuid (st : State) (r : request) : Prop :=
  match r with
  | Join _ uuid _ => uuid ∉ p_id <$> heap st
  | _ => True
  end.

#[global] Instance fresh_uuid_dec st r : Decision (fresh_uuid st r).
Proof. destruct r; cbn; apply _. Defined.

(** The uuids drawn while a list of requests is served are all fresh. *)
Fixpoint fresh_run (pow_approx : float -> float -> float) (st : State)
    (rs : list request) : Prop :=
  match rs with
  | [] => True
  | r :: rs => fresh_uuid st r /\ fresh_run pow_approx (step pow_approx st r) rs
  end.

#[global] Instance fresh_run_dec pow_approx st rs :
  Decision (fresh_run pow_approx st rs).
Proof. revert st. induction rs as [|r rs IH]; intros st; cbn; apply _. Defined.

(** The states reached from the initial one, uuids being fresh. *)
Inductive reachable (pow_approx : float -> float -> float) : State -> Prop :=
| reachable_initial : reachable pow_approx initial
| reachable_step st r :
    reachable pow_approx st -> fresh_uuid st r ->
    reachable pow_approx (step pow_approx st r).

(** The states of the closed examples: four players queued at the instants
    0 to 3; the same with their match created at 10; one player registered
    and withdrawn again. *)
Definition four_queued : State :=
  run unreached_pow
    [ Join 0 (JS.str "a") (Some (JS.str "Ann"));
      Join 1 (JS.str "b") (Some (JS.str "Bob"));
      Join 2 (JS.str "c") (Some (JS.str "Cy"));
      Join 3 (JS.str "d") (Some (JS.str "Di")) ] initial.

Definition one_match : State :=
  run unreached_pow [ CreateMatch 10 (JS.str "m") ] four_queued.

Definition one_idle : State :=
  run unreached_pow
    [ Join 0 (JS.str "a") (Some (JS.str "Ann")); Leave (JS.str "a") ] initial.

(** ** What the server reports *)

(** [{ id: p.id, name: p.name, ranking: p.ranking }], the way a match lists
    a player. *)
Record PlayerBrief := mkPlayerBrief {
  b_id : JS.string;
  b_name : JS.string;
  b_ranking : float
}.

Definition brief (p : Player) : PlayerBrief :=
  mkPlayerBrief (p_id p) (p_name p) (ranking p).

(** An element of [getQueueStatus().queue] and its [player] object. The
    rating is read from the player when the status is taken; the weight and
    the join time are those of the queue entry. *)
Record QueuedPlayer := mkQueuedPlayer {
  qp_id : JS.string;
  qp_name : JS.string;
  qp_ranking : float;
  qp_weight : float
}.

Record QueueEntry := mkQueueEntry {
  position : Z;
  entry_player : QueuedPlayer;
  entry_joinTime : Z
}.

Record QueueStatus := mkQueueStatus {
  queue : list QueueEntry;
  queue_length : Z;
  canCreateMatch : bool
}.

(** [BadmintonQueue.getQueueStatus]. *)
Definition getQueueStatus (st : State) : QueueStatus :=
  mkQueueStatus
    (imap
       (fun index q =>
          let p := heap st !!! player q in
          mkQueueEntry (Z.of_nat index + 1)
            (mkQueuedPlayer (p_id p) (p_name p) (ranking p) (weight q))
            (joinTime q))
       (badmintonQueue st))
    (Z.of_nat (length (badmintonQueue st)))
    (4 <=? length (badmintonQueue st))%nat.

(** The way every answer and broadcast lists a match:
    [{ id, players: match.players.map(...), startTime, status }]. *)
Record MatchView := mkMatchView {
  mv_id : JS.string;
  mv_players : list PlayerBrief;
  mv_startTime : Z;
  mv_status : Status
}.

Definition match_view (st : State) (ml : loc) : MatchView :=
  let m := match_heap st !!! ml in
  mkMatchView (m_id m) ((fun p => brief (heap st !!! p)) <$> m_players m)
    (startTime m) (status m).

(** [activeMatches.map(match => ...)]. *)
Definition activeMatches_view (st : State) : list MatchView :=
  match_view st <$> activeMatches st.





(** What [io.emit] broadcasts. *)
Inductive event :=
| badmintonUpdate (queue : QueueStatus) (activeMatches : list MatchView)
| matchCreated (m : MatchView)
| matchCompleted (id : JS.string) (players winners losers : list PlayerBrief)
    (endTime : option Z).

(** The [badmintonUpdate] every handler ends its broadcasts with. *)
Definition update (st : State) : event :=
  badmintonUpdate (getQueueStatus st) (activeMatches_view st).

(** The [matchCompleted] event for the match at [ml], once it is completed;
    the winners and losers it lists are the ones stored as its result. *)
Definition completed_event (st : State) (ml : loc) : event :=
  let m := match_heap st !!! ml in
  let briefs := fmap (fun p => brief (heap st !!! p)) in
  matchCompleted (m_id m) (briefs (m_players m))
    (briefs (default [] (fst <$> result m)))
    (briefs (default [] (snd <$> result m))) (endTime m).

Section Broadcasts.

Variable pow_approx : float -> float -> float.

(** The events a handler broadcasts while it serves a request, in order: none
    unless the request succeeds, and then they describe the state the handler
    leaves. *)
Definition emitted (st : State) (r : request) : list event :=
  match r with
  | Join now uuid playerName =>
      match join now uuid playerName st with
      | (st', join_200 (Success _) _) => [update st']
      | _ => []
      end
  | Leave playerId =>
      match leave playerId st with
      | (st', {| body := Success _ |}) => [update st']
      | _ => []
      end
  | CreateMatch now uuid =>
      match create_match now uuid st with
      | (st', {| body := Success ml |}) => [matchCreated (match_view st' ml); update st']
      | _ => []
      end
  | CompleteMatch now matchId winnerIds =>
      match complete_match pow_approx now matchId winnerIds st with
      | (st', {| body := Success ml |}) => [completed_event st' ml; update st']
      | _ => []
      end
  | Rejoin now playerId =>
      match rejoin now playerId st with
      | (st', rejoin_json {| body := Success _ |}) => [update st']
      | _ => []
      end
  end.

End Broadcasts.

(** ** The client's selection of winners *)

(** [toggleWinnerSelection] of the client: the value [selectedWinners] takes
    when the card of [playerId] is clicked. *)
Definition toggleWinnerSelection (playerId : JS.string)
    (selectedWinners : list JS.string) : list JS.string :=
  if bool_decide (playerId ∈ selectedWinners)
  then filter (fun id => id ≠ playerId) selectedWinners
  else if (length selectedWinners <? 2)%nat then selectedWinners ++ [playerId]
  else selectedWinners.

(** The client's [completeMatch]: the body it posts to
    [/api/badminton/complete-match], or nothing. *)
Definition client_completeMatch (matchId : JS.string)
    (selectedWinners : list JS.string)
    : option (JS.string * list JS.string) :=
  if negb (length selectedWinners =? 2)%nat then None
  else Some (matchId, selectedWinners).

(** ** More of what holds in every state *)

(** What serving a request may do to a player that exists: nothing; a join or
    a rejoin admits it, a leave withdraws it, a create-match seats it, a
    complete-match settles it. *)
Inductive player_step (pow_approx : float -> float -> float)
    : request -> Player -> Player -> Prop :=
| player_same r p : player_step pow_approx r p p
| player_joined now uuid playerName p :
    isInQueue p = false -> isInMatch p = false ->
    player_step pow_approx (Join now uuid playerName) p
      (calculateQueueWeight now (set_isInQueue true p))
| player_rejoined now playerId p :
    isInQueue p = false -> isInMatch p = false ->
    player_step pow_approx (Rejoin now playerId) p
      (calculateQueueWeight now (set_isInQueue true p))
| player_withdrawn playerId p :
    isInQueue p = true -> isInMatch p = false ->
    player_step pow_approx (Leave playerId) p (set_isInQueue false p)
| player_seated now uuid p :
    isInQueue p = true -> isInMatch p = false ->
    player_step pow_approx (CreateMatch now uuid) p
      (set_isInMatch true (set_isInQueue false p))
| player_settled now matchId winnerIds won opponentRanking p :
    isInQueue p = false -> isInMatch p = true ->
    player_step pow_approx (CompleteMatch now matchId winnerIds) p
      (settle pow_approx now won opponentRanking p).

(** What [completeMatch] makes of the match. *)
Definition completed_from (now : Z) (winners losers : list loc)
    (m : BadmintonMatch) : BadmintonMatch :=
  mkMatch (m_id m) (m_players m) (startTime m) (Some now)
    (Some (winners, losers)) (courtNumber m) completed.

(** A match too gets an id nobody has. *)
Definition fresh_match_uuid (st : State) (r : request) : Prop :=
  match r with
  | CreateMatch _ uuid => uuid ∉ m_id <$> match_heap st
  | _ => True
  end.

#[global] Instance fresh_match_uuid_dec st r : Decision (fresh_match_uuid st r).
Proof. destruct r; cbn; apply _. Defined.

(** The states the server gets into when every uuid it draws is new. *)
Inductive in_service (pow_approx : float -> float -> float) : State -> Prop :=
| in_service_initial : in_service pow_approx initial
| in_service_step st r :
    in_service pow_approx st -> fresh_uuid st r -> fresh_match_uuid st r ->
    in_service pow_approx (step pow_approx st r).

(** All the uuids drawn while a list of requests is served are new. *)
Fixpoint fresh_ids (pow_approx : float -> float -> float) (st : State)
    (rs : list request) : Prop :=
  match rs with
  | [] => True
  | r :: rs =>
      fresh_uuid st r /\ fresh_match_uuid st r /\
      fresh_ids pow_approx (step pow_approx st r) rs
  end.

#[global] Instance fresh_ids_dec pow_approx st rs :
  Decision (fresh_ids pow_approx st rs).
Proof. revert st. induction rs as [|r rs IH]; intros st; cbn; apply _. Defined.

(** The books are kept: every player is registered under its id, names are
    trimmed, not empty and not shared, a player's counters add up and it has a
    last match exactly if it has played, a queue entry carries the weight its
    player was given, a player flagged [isInMatch] sits in an active match,
    every match is indexed under its own id, and [activeMatches] and
    [completedMatches] list the matches of each status. *)
Record coherent (st : State) : Prop := mk_coherent {
  co_wf : wf st;
  co_registered :
    forall l p, heap st !! l = Some p -> JS.get (p_id p) (players st) = Some l;
  co_names : NoDup (p_name <$> heap st);
  co_trimmed :
    forall p, p ∈ heap st -> p_name p <> [] /\ JS.trim (p_name p) = p_name p;
  co_stats :
    forall p, p ∈ heap st ->
      (totalMatches p = wins p + losses p)%Z /\ (0 <= wins p)%Z /\
      (0 <= losses p)%Z /\ (lastMatchTime p = None <-> totalMatches p = 0%Z);
  co_weight :
    forall e, e ∈ badmintonQueue st ->
      weight e = queueWeight (heap st !!! player e);
  co_in_match :
    forall l p, heap st !! l = Some p -> isInMatch p = true ->
      exists ml m, match_heap st !! ml = Some m /\ status m = active /\
                   l ∈ m_players m;
  co_match_ids : NoDup (m_id <$> match_heap st);
  co_match_indexed :
    forall ml m, match_heap st !! ml = Some m ->
      JS.get (m_id m) (matches st) = Some ml;
  co_match_keys :
    forall k ml, JS.get k (matches st) = Some ml ->
      m_id (match_heap st !!! ml) = k;
  co_active :
    NoDup (activeMatches st) /\
    forall ml, ml ∈ activeMatches st <->
      exists m, match_heap st !! ml = Some m /\ status m = active;
  co_completed :
    NoDup (completedMatches st) /\
    forall ml, ml ∈ completedMatches st <->
      exists m, match_heap st !! ml = Some m /\ status m = completed;
  co_result :
    forall ml m, match_heap st !! ml = Some m ->
      length (m_players m) = 4 /\ NoDup (m_players m) /\
      match status m with
      | active => endTime m = None /\ result m = None
      | completed =>
          exists t winners losers,
            endTime m = Some t /\ result m = Some (winners, losers) /\
            length winners = 2 /\ length losers = 2 /\
            winners ++ losers ≡ₚ m_players m
      end
}.

(** Two more states for the closed examples: the match of [one_match]
    completed at the instant 1000 with the first two players as winners; and
    two players queued while a third, who joined and left, is idle. *)
Definition one_done : State :=
  run unreached_pow
    [ CompleteMatch 1000 (Some (JS.str "m")) (Some [JS.str "a"; JS.str "b"]) ]
    one_match.

Definition two_queued_one_idle : State :=
  run unreached_pow
    [ Join 0 (JS.str "a") (Some (JS.str "Ann"));
      Join 1 (JS.str "b") (Some (JS.str "Bob"));
      Join 2 (JS.str "c") (Some (JS.str "Cy"));
      Leave (JS.str "c") ] initial.

(** [one_done] after a fifth player has joined, at the instant 2000. *)
Definition one_done_one_queued : State :=
  run unreached_pow [ Join 2000 (JS.str "z") (Some (JS.str "Zoe")) ] one_done.

(** * Properties *)

(** ** Numbers *)

Section Binary64.
Local Open Scope Z_scope.

Lemma digits2_pos_bounds (m : positive) :
  2 ^ (Zpos (digits2_pos m) - 1) <= Zpos m < 2 ^ Zpos (digits2_pos m).
Proof.
  induction m as [m IH|m IH|]; cbn [digits2_pos].
  - rewrite Pos2Z.inj_succ. replace (Z.succ (Zpos (digits2_pos m)) - 1) with (Zpos (digits2_pos m)) by lia.
    rewrite Z.pow_succ_r by lia.
    replace (Zpos (digits2_pos m)) with (Z.succ (Zpos (digits2_pos m) - 1)) at 1 by lia.
    rewrite Z.pow_succ_r by lia. lia.
  - rewrite Pos2Z.inj_succ. replace (Z.succ (Zpos (digits2_pos m)) - 1) with (Zpos (digits2_pos m)) by lia.
    rewrite Z.pow_succ_r by lia.
    replace (Zpos (digits2_pos m)) with (Z.succ (Zpos (digits2_pos m) - 1)) at 1 by lia.
    rewrite Z.pow_succ_r by lia. lia.
  - cbn. lia.
Qed.

Lemma digits2_pos_unique (m : positive) (d : Z) :
  2 ^ (d - 1) <= Zpos m < 2 ^ d -> Zpos (digits2_pos m) = d.
Proof.
  intros [Hlo Hhi]. pose proof (digits2_pos_bounds m) as [Hlo' Hhi'].
  assert (0 < d).
  { destruct (Z_lt_le_dec 0 d) as [|Hd]; [done|].
    assert (2 ^ d <= 2 ^ 0) by (destruct (Z_lt_le_dec d 0); [rewrite Z.pow_neg_r by lia; lia|apply Z.pow_le_mono_r; lia]).
    cbn in *. lia. }
  destruct (Z_lt_le_dec (Zpos (digits2_pos m)) d) as [Hlt|Hge].
  - assert (2 ^ Zpos (digits2_pos m) <= 2 ^ (d - 1)) by (apply Z.pow_le_mono_r; lia). lia.
  - destruct (Z_lt_le_dec d (Zpos (digits2_pos m))) as [Hlt|Hge']; [|lia].
    assert (2 ^ d <= 2 ^ (Zpos (digits2_pos m) - 1)) by (apply Z.pow_le_mono_r; lia). lia.
Qed.

Lemma digits2_pos_shift (m m' : positive) (j : Z) :
  0 <= j -> Zpos m' = Zpos m * 2 ^ j ->
  Zpos (digits2_pos m') = Zpos (digits2_pos m) + j.
Proof.
  intros Hj Hm'. apply digits2_pos_unique. rewrite Hm'.
  pose proof (digits2_pos_bounds m) as [Hlo Hhi].
  replace (Zpos (digits2_pos m) + j - 1) with (Zpos (digits2_pos m) - 1 + j) by lia.
  rewrite !Z.pow_add_r by lia.
  assert (0 < 2 ^ j) by (apply Z.pow_pos_nonneg; lia).
  split; [apply Z.mul_le_mono_nonneg_r; lia|apply Z.mul_lt_mono_pos_r; lia].
Qed.

Lemma iter_pos_nat {A} (f : A -> A) (p : positive) (x : A) :
  SpecFloat.iter_pos f p x = Nat.iter (Pos.to_nat p) f x.
Proof.
  revert x. induction p as [p IH|p IH|]; intros x; cbn [SpecFloat.iter_pos].
  - rewrite !IH. rewrite Pos2Nat.inj_xI.
    replace (S (2 * Pos.to_nat p))%nat with (Pos.to_nat p + (Pos.to_nat p + 1))%nat by lia.
    rewrite !Nat.iter_add. cbn. done.
  - rewrite !IH. rewrite Pos2Nat.inj_xO.
    replace (2 * Pos.to_nat p)%nat with (Pos.to_nat p + Pos.to_nat p)%nat by lia.
    by rewrite Nat.iter_add.
  - done.
Qed.

(** Shifting out zeros loses nothing. *)
Lemma shr_1_exact (n : nat) (m : positive) (M : positive) :
  Zpos M = Zpos m * 2 ^ Z.of_nat n ->
  Nat.iter n shr_1 (Build_shr_record (Zpos M) false false)
  = Build_shr_record (Zpos m) false false.
Proof.
  revert M. induction n as [|n IH]; intros M HM.
  - cbn in *. f_equal. lia.
  - rewrite Nat.iter_succ_r.
    rewrite Nat2Z.inj_succ, Z.pow_succ_r in HM by lia.
    destruct M as [M|M|]; [lia| |lia].
    cbn [shr_1 orb]. apply IH. lia.
Qed.

Lemma shr_exact (mz M : positive) (e k : Z) :
  0 < k -> Zpos M = Zpos mz * 2 ^ k ->
  shr (Build_shr_record (Zpos M) false false) e k
  = (Build_shr_record (Zpos mz) false false, e + k).
Proof.
  intros Hk HM. destruct k as [|p|p]; [lia| |lia].
  unfold shr. f_equal. rewrite iter_pos_nat. apply shr_1_exact.
  by rewrite positive_nat_Z.
Qed.

Lemma shl_align_exact (M : positive) (E ez : Z) :
  ez <= E ->
  exists mz, shl_align M E ez = (mz, ez) /\ Zpos mz = Zpos M * 2 ^ (E - ez).
Proof.
  intros Hle. unfold shl_align.
  destruct (ez - E) as [|p|p] eqn:Hd; [|lia|].
  - exists M. assert (E = ez) as -> by lia. rewrite Z.sub_diag. split; [done|]. cbn. lia.
  - exists (Pos.iter xO M p). split; [done|].
    change (Pos.iter xO M p) with (shift_pos p M).
    rewrite shift_pos_correct.
    replace (E - ez) with (Zpos p) by lia.
    change (2 ^ Z.pos p) with (Z.pow_pos 2 p). lia.
Qed.

(** A number that fits the format exactly is what rounding returns. *)
Lemma binary_round_exact (s : bool) (M mz : positive) (E ez : Z) :
  Zpos (digits2_pos mz) = 53 -> -1074 <= ez <= 971 ->
  (ez <= E /\ Zpos mz = Zpos M * 2 ^ (E - ez) \/
   E < ez /\ Zpos M = Zpos mz * 2 ^ (ez - E)) ->
  binary_round prec emax s M E = S754_finite s mz ez.
Proof.
  intros Hd Hez Hval.
  assert (Hfexp : fexp prec emax (Zpos (digits2_pos mz) + ez) = ez).
  { rewrite Hd. unfold fexp, emin, prec, emax. lia. }
  assert (HdM : Zpos (digits2_pos M) + E = Zpos (digits2_pos mz) + ez).
  { destruct Hval as [[Hle Hv]|[Hlt Hv]].
    - rewrite (digits2_pos_shift M mz (E - ez)) by (done || lia). lia.
    - rewrite (digits2_pos_shift mz M (ez - E)) by (done || lia). lia. }
  assert (Haux : binary_round_aux prec emax s (Zpos mz) ez loc_Exact
                 = S754_finite s mz ez).
  { unfold binary_round_aux, shr_fexp. cbn [Zdigits2 shr_record_of_loc].
    rewrite Hfexp, Z.sub_diag. cbn [shr loc_of_shr_record shr_m round_nearest_even
      Zdigits2 shr_record_of_loc].
    rewrite Hfexp, Z.sub_diag. cbn [shr shr_m].
    destruct (ez <=? emax - prec) eqn:Hb; [done|].
    apply Z.leb_gt in Hb. unfold emax, prec in Hb. lia. }
  unfold binary_round. rewrite HdM, Hfexp.
  destruct Hval as [[Hle Hv]|[Hlt Hv]].
  - destruct (shl_align_exact M E ez Hle) as (mz' & -> & Hmz').
    assert (mz' = mz) as -> by lia. done.
  - assert (Hsh : shl_align M E ez = (M, E)).
    { unfold shl_align. destruct (ez - E) eqn:Hd'; (done || lia). }
    rewrite Hsh. unfold binary_round_aux, shr_fexp.
    cbn [Zdigits2 shr_record_of_loc].
    rewrite HdM, Hfexp.
    rewrite (shr_exact mz M E (ez - E)) by (lia || done).
    replace (E + (ez - E)) with ez by lia.
    cbn [loc_of_shr_record shr_m round_nearest_even Zdigits2 shr_record_of_loc].
    rewrite Hfexp, Z.sub_diag. cbn [shr shr_m].
    destruct (ez <=? emax - prec) eqn:Hb; [done|].
    apply Z.leb_gt in Hb. unfold emax, prec in Hb. lia.
Qed.

Lemma digits2_pos_le_53 (m : positive) :
  Zpos m < 2 ^ 53 -> 1 <= Zpos (digits2_pos m) <= 53.
Proof.
  intros Hm. pose proof (digits2_pos_bounds m) as [Hlo _].
  split; [lia|].
  destruct (Z_lt_le_dec 53 (Zpos (digits2_pos m))) as [Hgt|]; [|lia].
  assert (2 ^ 53 <= 2 ^ (Zpos (digits2_pos m) - 1)) by (apply Z.pow_le_mono_r; lia).
  lia.
Qed.

Lemma mant_value (m : positive) :
  Zpos m < 2 ^ 53 ->
  Zpos (mant m) = Zpos m * 2 ^ (53 - Zpos (digits2_pos m)).
Proof.
  intros Hm. pose proof (digits2_pos_le_53 m Hm).
  unfold mant. rewrite Z2Pos.id; [done|].
  apply Z.mul_pos_pos; [lia|]. apply Z.pow_pos_nonneg; lia.
Qed.

Lemma mant_digits (m : positive) :
  Zpos m < 2 ^ 53 -> Zpos (digits2_pos (mant m)) = 53.
Proof.
  intros Hm. pose proof (digits2_pos_le_53 m Hm).
  rewrite (digits2_pos_shift m (mant m) (53 - Zpos (digits2_pos m)));
    [lia|lia|by apply mant_value].
Qed.

(** Rounding [m * 2^j] at the exponent [-j] gives the number that holds [m]. *)
Lemma binary_round_scaled (s : bool) (m M : positive) (j : Z) :
  Zpos m < 2 ^ 53 -> 0 <= j -> Zpos M = Zpos m * 2 ^ j ->
  binary_round prec emax s M (- j)
  = S754_finite s (mant m) (Zpos (digits2_pos m) - 53).
Proof.
  intros Hm Hj HM. pose proof (digits2_pos_le_53 m Hm) as Hd.
  apply binary_round_exact; [by apply mant_digits|lia|].
  rewrite (mant_value m Hm), HM.
  destruct (Z_le_gt_dec (Zpos (digits2_pos m) - 53) (- j)) as [Hle|Hgt].
  - left. split; [done|].
    rewrite <- Z.mul_assoc, <- Z.pow_add_r by lia. do 2 f_equal. lia.
  - right. split; [lia|].
    rewrite <- Z.mul_assoc, <- Z.pow_add_r by lia. do 2 f_equal. lia.
Qed.

Lemma binary_normalize_scaled (k : Z) (j : Z) :
  Z.abs k < 2 ^ 53 -> 0 <= j ->
  binary_normalize prec emax (k * 2 ^ j) (- j) false = canon k.
Proof.
  intros Hk Hj. assert (0 < 2 ^ j) by (apply Z.pow_pos_nonneg; lia).
  destruct k as [|m|m]; [done| |].
  - destruct (Zpos m * 2 ^ j) as [|M|M] eqn:HM; [lia| |lia].
    cbn [binary_normalize canon]. apply binary_round_scaled; [lia|done|lia].
  - destruct (Zneg m * 2 ^ j) as [|M|M] eqn:HM; [lia|lia|].
    cbn [binary_normalize canon]. apply binary_round_scaled; [lia|done|lia].
Qed.

Lemma binary_normalize_canon (k : Z) :
  Z.abs k < 2 ^ 53 -> binary_normalize prec emax k 0 false = canon k.
Proof.
  intros Hk. rewrite <- (binary_normalize_scaled k 0) by (done || lia).
  f_equal. cbn. lia.
Qed.

Lemma canon_valid (k : Z) :
  Z.abs k < 2 ^ 53 -> SpecFloat.valid_binary prec emax (canon k) = true.
Proof.
  intros Hk.
  assert (Hb : forall m, Zpos m < 2 ^ 53 ->
            bounded prec emax (mant m) (Zpos (digits2_pos m) - 53) = true).
  { intros m Hm. pose proof (digits2_pos_le_53 m Hm).
    unfold bounded, canonical_mantissa. rewrite (mant_digits m Hm).
    apply andb_true_intro. split.
    - apply Z.eqb_eq. unfold fexp, emin, prec, emax. lia.
    - apply Z.leb_le. unfold prec, emax. lia. }
  destruct k as [|m|m]; [done|apply Hb; lia|apply Hb; lia].
Qed.

(** The value of the scaled mantissa. *)
Lemma canon_aligned (s : bool) (m : positive) (ez : Z) :
  Zpos m < 2 ^ 53 -> ez <= Zpos (digits2_pos m) - 53 ->
  cond_Zopp s (Zpos (fst (shl_align (mant m) (Zpos (digits2_pos m) - 53) ez)))
  = cond_Zopp s (Zpos m) * 2 ^ (- ez).
Proof.
  intros Hm Hez. pose proof (digits2_pos_le_53 m Hm).
  destruct (shl_align_exact (mant m) (Zpos (digits2_pos m) - 53) ez Hez)
    as (mz & -> & Hmz).
  cbn [fst]. rewrite Hmz, (mant_value m Hm).
  rewrite <- Z.mul_assoc, <- Z.pow_add_r by lia.
  replace (53 - Zpos (digits2_pos m) + (Zpos (digits2_pos m) - 53 - ez)) with (- ez) by lia.
  destruct s; cbn [cond_Zopp]; lia.
Qed.

Lemma SFadd_canon (a b : Z) :
  Z.abs a < 2 ^ 53 -> Z.abs b < 2 ^ 53 -> Z.abs (a + b) < 2 ^ 53 ->
  SFadd prec emax (canon a) (canon b) = canon (a + b).
Proof.
  intros Ha Hb Hab.
  assert (Hfin : forall sa ma sb mb,
    Zpos ma < 2 ^ 53 -> Zpos mb < 2 ^ 53 ->
    Z.abs (cond_Zopp sa (Zpos ma) + cond_Zopp sb (Zpos mb)) < 2 ^ 53 ->
    SFadd prec emax
      (S754_finite sa (mant ma) (Zpos (digits2_pos ma) - 53))
      (S754_finite sb (mant mb) (Zpos (digits2_pos mb) - 53))
    = canon (cond_Zopp sa (Zpos ma) + cond_Zopp sb (Zpos mb))).
  { intros sa ma sb mb Hma Hmb Hsum. cbn [SFadd].
    pose proof (digits2_pos_le_53 ma Hma). pose proof (digits2_pos_le_53 mb Hmb).
    set (ez := Z.min _ _).
    rewrite !canon_aligned by (done || lia).
    rewrite <- Z.mul_add_distr_r.
    assert (Hez : ez <= 0) by (subst ez; lia). clearbody ez.
    remember (- ez) as j eqn:Hj. replace ez with (- j) by lia.
    apply binary_normalize_scaled; [done|lia]. }
  destruct a as [|ma|ma], b as [|mb|mb]; try done.
  - apply (Hfin false ma false mb); (done || lia).
  - apply (Hfin false ma true mb); (done || lia).
  - apply (Hfin true ma false mb); (done || lia).
  - apply (Hfin true ma true mb); (done || lia).
Qed.

Lemma SFsub_canon_diag (a : Z) :
  SFsub prec emax (canon a) (canon a) = S754_zero false.
Proof.
  destruct a as [|m|m]; cbn [canon SFsub]; [done| |];
    by rewrite Z.sub_diag.
Qed.


Lemma Prim2SF_of_Z (k : Z) : Z.abs k < 2 ^ 53 -> Prim2SF (JS.of_Z k) = canon k.
Proof.
  intros Hk. unfold JS.of_Z. rewrite binary_normalize_canon by done.
  apply Prim2SF_SF2Prim, canon_valid, Hk.
Qed.

Lemma of_Z_canon (k : Z) : Z.abs k < 2 ^ 53 -> JS.of_Z k = SF2Prim (canon k).
Proof. intros Hk. unfold JS.of_Z. by rewrite binary_normalize_canon. Qed.

(** Adding two integers is exact while the sum stays below 2^53. *)
Lemma of_Z_add (a b : Z) :
  Z.abs a < 2 ^ 53 -> Z.abs b < 2 ^ 53 -> Z.abs (a + b) < 2 ^ 53 ->
  (JS.of_Z a + JS.of_Z b)%float = JS.of_Z (a + b).
Proof.
  intros Ha Hb Hab.
  rewrite <- (SF2Prim_Prim2SF (JS.of_Z a + JS.of_Z b)), add_spec.
  rewrite !Prim2SF_of_Z by done. unfold SF64add.
  rewrite SFadd_canon by done. by rewrite of_Z_canon.
Qed.

Lemma of_Z_sub_diag (a : Z) :
  Z.abs a < 2 ^ 53 -> (JS.of_Z a - JS.of_Z a)%float = 0%float.
Proof.
  intros Ha.
  rewrite <- (SF2Prim_Prim2SF (JS.of_Z a - JS.of_Z a)), sub_spec.
  rewrite !Prim2SF_of_Z by done. unfold SF64sub.
  by rewrite SFsub_canon_diag.
Qed.

Lemma half_odd (x : Z) : (2 * x + 1) / 2 = x.
Proof. rewrite Z.add_comm, Z.mul_comm, Z.div_add by lia. reflexivity. Qed.

(** An integer is its own rounding. *)
Lemma Math_round_of_Z (k : Z) :
  Z.abs k < 2 ^ 53 -> JS.Math_round (JS.of_Z k) = JS.of_Z k.
Proof.
  intros Hk. unfold JS.Math_round. rewrite Prim2SF_of_Z by done.
  assert (Hdiv : forall (m : positive) (x : Z), Zpos m < 2 ^ 53 ->
    Zpos (digits2_pos m) - 53 < 0 ->
    (2 * (x * 2 ^ (53 - Zpos (digits2_pos m))) + 2 ^ (- (Zpos (digits2_pos m) - 53)))
      / 2 ^ (1 - (Zpos (digits2_pos m) - 53)) = (2 * x + 1) / 2).
  { intros m x Hm Hd.
    replace (- (Zpos (digits2_pos m) - 53)) with (53 - Zpos (digits2_pos m)) by lia.
    replace (1 - (Zpos (digits2_pos m) - 53)) with (1 + (53 - Zpos (digits2_pos m))) by lia.
    rewrite Z.pow_add_r by lia.
    assert (0 < 2 ^ (53 - Zpos (digits2_pos m))) by (apply Z.pow_pos_nonneg; lia).
    replace (2 * (x * 2 ^ (53 - Zpos (digits2_pos m))) + 2 ^ (53 - Zpos (digits2_pos m)))
      with ((2 * x + 1) * 2 ^ (53 - Zpos (digits2_pos m))) by lia.
    change (2 ^ 1) with 2. apply Z.div_mul_cancel_r; lia. }
  destruct k as [|m|m]; cbn [canon]; [done| |].
  - destruct (0 <=? Zpos (digits2_pos m) - 53) eqn:He; [done|].
    apply Z.leb_gt in He. cbn zeta.
    rewrite (mant_value m) by lia. rewrite Hdiv by (lia || done).
    rewrite half_odd. done.
  - destruct (0 <=? Zpos (digits2_pos m) - 53) eqn:He; [done|].
    apply Z.leb_gt in He. cbn zeta.
    change (Zneg (mant m)) with (- Zpos (mant m)).
    rewrite (mant_value m) by lia.
    replace (- (Zpos m * 2 ^ (53 - Zpos (digits2_pos m))))
      with (Zneg m * 2 ^ (53 - Zpos (digits2_pos m)))
      by (rewrite <- Z.mul_opp_l; reflexivity).
    rewrite Hdiv by (lia || done).
    rewrite half_odd. done.
Qed.

End Binary64.

(** C8, as the code has it: a player rated 1200 who is admitted 45 minutes
    after the last match gets the weight 2.5, not 3: the bonus [minutes / 30]
    is 1.5 there and reaches its cap of 2 only at 60 minutes. *)
Theorem weight_after_45_minutes (uuid name : JS.string) (last : Z) :
  let p := set_lastMatchTime (Some last) (new_Player uuid name) in
  ranking p = 1200%float /\
  queueWeight (calculateQueueWeight (last + 45 * 60 * 1000) p) = 2.5%float /\
  queueWeight (calculateQueueWeight (last + 45 * 60 * 1000) p) <> 3%float /\
  queueWeight (calculateQueueWeight (last + 30 * 60 * 1000) p) = 2%float /\
  queueWeight (calculateQueueWeight (last + 60 * 60 * 1000) p) = 3%float.
Proof.
  cbn zeta. unfold calculateQueueWeight. cbn [lastMatchTime set_lastMatchTime
    ranking new_Player queueWeight set_queueWeight].
  replace (last + 45 * 60 * 1000 - last)%Z with 2700000%Z by lia.
  replace (last + 30 * 60 * 1000 - last)%Z with 1800000%Z by lia.
  replace (last + 60 * 60 * 1000 - last)%Z with 3600000%Z by lia.
  split; [reflexivity|]. split; [vm_compute; reflexivity|].
  split; [|split; vm_compute; reflexivity].
  intros H. apply (f_equal (fun x => PrimFloat.eqb x 3)) in H.
  vm_compute in H. discriminate.
Qed.

(** C2: [updateRanking] sets the rating to
    [round(selfRating + 32 * (actual - E))] with
    [E = 1 / (1 + 10^((opponentRating - selfRating)/400))], whatever the host
    computes for the power; and for every integer rating [n] with
    [|n| + 16 < 2^53], a win against an opponent of the same rating raises it
    by exactly 16 and a loss lowers it by exactly 16. *)
Theorem updateRanking_elo (pow_approx : float -> float -> float) :
  (forall won opponentRanking p,
     ranking (updateRanking pow_approx won opponentRanking p)
     = elo_rating pow_approx (ranking p) opponentRanking won) /\
  (forall (n : Z) p,
     (Z.abs n + 16 < 2 ^ 53)%Z ->
     ranking p = JS.of_Z n ->
     ranking (updateRanking pow_approx true (JS.of_Z n) p) = JS.of_Z (n + 16) /\
     ranking (updateRanking pow_approx false (JS.of_Z n) p) = JS.of_Z (n - 16)).
Proof.
  split; [intros [] ? ?; reflexivity|].
  intros n p Hn Hp.
  change (elo_rating pow_approx (ranking p) (JS.of_Z n) true = JS.of_Z (n + 16) /\
          elo_rating pow_approx (ranking p) (JS.of_Z n) false = JS.of_Z (n - 16)).
  rewrite Hp. unfold elo_rating, expected_score.
  rewrite of_Z_sub_diag by lia.
  change (JS.Math_pow pow_approx 10 (0 / 400)) with 1%float.
  change (32 * (1 - 1 / (1 + 1)))%float with (JS.of_Z 16).
  change (32 * (0 - 1 / (1 + 1)))%float with (JS.of_Z (-16)).
  rewrite !of_Z_add by lia. rewrite !Math_round_of_Z by lia.
  split; [reflexivity|]. f_equal.
Qed.

(** ** The queue order *)

(** C1, as the code has it. After the requests of [weight_cycle] the queue
    holds the three returning players with the weights 2.24, 2.25 and 2.26 in
    this order, the lowest weight first: each weight is within 0.01 of the
    next in binary64 arithmetic, so these pairs are ordered by admission time,
    while 2.24 and 2.26 are not within 0.01 of each other. The queue is not
    ordered, and no arrangement of its three entries is. *)
Theorem queue_not_ordered_after_admissions (pow_approx : float -> float -> float) :
  let q := badmintonQueue (run pow_approx weight_cycle initial) in
  List.map (fun e => (player e, joinTime e, weight e)) q
  = [(0, 2233000%Z, 2.24%float); (1, 2251000%Z, 2.25%float);
     (2, 2269000%Z, 2.26%float)] /\
  ~ ordered q /\
  (forall q', q ≡ₚ q' -> ~ ordered q').
Proof.
  intros q.
  assert (Hq : q = [mkQueueItem 0 2233000 2.24; mkQueueItem 1 2251000 2.25;
                    mkQueueItem 2 2269000 2.26]) by (vm_compute; reflexivity).
  clearbody q. subst q.
  assert (Hperm : forall q', [mkQueueItem 0 2233000 2.24; mkQueueItem 1 2251000 2.25;
                    mkQueueItem 2 2269000 2.26] ≡ₚ q' -> ~ ordered q').
  { intros q' Hp%permutations_Permutation Hord.
    assert (Hall : Forall (fun l => bool_decide (ordered l) = false)
              (permutations [mkQueueItem 0 2233000 2.24; mkQueueItem 1 2251000 2.25;
                    mkQueueItem 2 2269000 2.26])).
    { vm_compute permutations. repeat constructor. }
    rewrite Forall_forall in Hall. specialize (Hall _ Hp).
    by apply bool_decide_eq_false in Hall. }
  split; [reflexivity|]. split; [|exact Hperm].
  apply Hperm. reflexivity.
Qed.

(** C6, as the code has it. In the state [rank_cycle] leads to, the queue
    holds the entries of weight 2.24 and 2.25 and, last, the one of weight 1.
    The third player, idle, is admitted with the weight 2.26, the highest of
    all: [addPlayer] answers 3 and the queue is 2.24, 2.25, 2.26, 1. The new
    entry stands behind the entry of weight 2.24, which it should precede, the
    two weights being more than 0.01 apart; the queue is not ordered, and no
    arrangement of its four entries is, so that the number answered is the
    place of the entry in the array and not a rank in an ordered queue. *)
Theorem addPlayer_position_is_not_rank (pow_approx : float -> float -> float) :
  let st := run pow_approx rank_cycle initial in
  let r := addPlayer (1000 + 2268000) 2 st in
  membership (heap st !!! 2) = Idle /\
  badmintonQueue st
  = [mkQueueItem 0 2233000 2.24; mkQueueItem 1 2251000 2.25;
     mkQueueItem 4 2000 1] /\
  r.2 = Success 3%Z /\
  badmintonQueue r.1
  = [mkQueueItem 0 2233000 2.24; mkQueueItem 1 2251000 2.25;
     mkQueueItem 2 2269000 2.26; mkQueueItem 4 2000 1] /\
  precedes (mkQueueItem 2 2269000 2.26) (mkQueueItem 0 2233000 2.24) /\
  ~ precedes (mkQueueItem 0 2233000 2.24) (mkQueueItem 2 2269000 2.26) /\
  ~ ordered (badmintonQueue r.1) /\
  (forall q', badmintonQueue r.1 ≡ₚ q' -> ~ ordered q').
Proof.
  intros st r.
  assert (Hidle : membership (heap st !!! 2) = Idle) by (vm_compute; reflexivity).
  assert (Hst : badmintonQueue st
                = [mkQueueItem 0 2233000 2.24; mkQueueItem 1 2251000 2.25;
                   mkQueueItem 4 2000 1]) by (vm_compute; reflexivity).
  assert (Hr : r.2 = Success 3%Z) by (vm_compute; reflexivity).
  assert (Hq : badmintonQueue r.1
               = [mkQueueItem 0 2233000 2.24; mkQueueItem 1 2251000 2.25;
                  mkQueueItem 2 2269000 2.26; mkQueueItem 4 2000 1])
    by (vm_compute; reflexivity).
  clearbody r st. rewrite Hq.
  assert (Hperm : forall q',
            [mkQueueItem 0 2233000 2.24; mkQueueItem 1 2251000 2.25;
             mkQueueItem 2 2269000 2.26; mkQueueItem 4 2000 1] ≡ₚ q' ->
            ~ ordered q').
  { intros q' Hp%permutations_Permutation Hord.
    assert (Hall : Forall (fun l => bool_decide (ordered l) = false)
              (permutations
                 [mkQueueItem 0 2233000 2.24; mkQueueItem 1 2251000 2.25;
                  mkQueueItem 2 2269000 2.26; mkQueueItem 4 2000 1])).
    { vm_compute permutations. repeat constructor. }
    rewrite Forall_forall in Hall. specialize (Hall _ Hp).
    by apply bool_decide_eq_false in Hall. }
  split; [exact Hidle|]. split; [exact Hst|]. split; [exact Hr|].
  split; [reflexivity|].
  split; [vm_compute; reflexivity|].
  split; [vm_compute; discriminate|].
  split; [|exact Hperm].
  apply Hperm. reflexivity.
Qed.

(** C5, as the code has it. After the requests of [passed_over] the queue
    holds the weights 2.24, 2.25, 2.25, 2.25, 2.26 and 1 in this order.
    [createMatch] succeeds and takes the first four entries: the roster is
    made of their players and the queue keeps the entries of weight 2.26 and
    1. The entry of weight 2.24 is taken and the entry of weight 2.26 is left,
    although the second should precede the first, the two weights being more
    than 0.01 apart: the four entries taken are not the four of highest
    priority. *)
Theorem createMatch_passes_over_higher_weight
    (pow_approx : float -> float -> float) (now : Z) (uuid : JS.string) :
  let st := run pow_approx passed_over initial in
  let r := createMatch now uuid st in
  badmintonQueue st
  = [mkQueueItem 0 2233000 2.24; mkQueueItem 1 2251000 2.25;
     mkQueueItem 2 2252000 2.25; mkQueueItem 3 2253000 2.25;
     mkQueueItem 4 2269000 2.26; mkQueueItem 8 2000 1] /\
  r.2 = Success 2 /\
  m_players (match_heap r.1 !!! 2) = [0; 1; 2; 3] /\
  badmintonQueue r.1 = [mkQueueItem 4 2269000 2.26; mkQueueItem 8 2000 1] /\
  precedes (mkQueueItem 4 2269000 2.26) (mkQueueItem 0 2233000 2.24) /\
  ~ precedes (mkQueueItem 0 2233000 2.24) (mkQueueItem 4 2269000 2.26).
Proof.
  intros st r.
  assert (Hst : badmintonQueue st
                = [mkQueueItem 0 2233000 2.24; mkQueueItem 1 2251000 2.25;
                   mkQueueItem 2 2252000 2.25; mkQueueItem 3 2253000 2.25;
                   mkQueueItem 4 2269000 2.26; mkQueueItem 8 2000 1])
    by (vm_compute; reflexivity).
  assert (Hlen : length (match_heap st) = 2) by (vm_compute; reflexivity).
  assert (Hr : r = (mkState
                      (alter_all player
                         (fun p => set_isInMatch true (set_isInQueue false p))
                         (heap st) (take 4 (badmintonQueue st)))
                      (match_heap st
                       ++ [mkMatch uuid (player <$> take 4 (badmintonQueue st))
                             now None None None active])
                      (players st)
                      (JS.set uuid (length (match_heap st)) (matches st))
                      (activeMatches st ++ [length (match_heap st)])
                      (completedMatches st) (drop 4 (badmintonQueue st))
                      (flagged st),
                    Success (length (match_heap st)))).
  { subst r. unfold createMatch. rewrite Hst. reflexivity. }
  clearbody r st. subst r. cbn [fst snd match_heap badmintonQueue].
  rewrite Hst, Hlen. cbn [take drop fmap list_fmap player].
  split; [reflexivity|]. split; [reflexivity|].
  split.
  { rewrite <- Hlen. by rewrite list_lookup_total_middle. }
  split; [reflexivity|].
  split; [vm_compute; reflexivity|vm_compute; discriminate].
Qed.

(** ** Arrays *)

Section Arrays.
Context {A : Type}.
Implicit Types (f : A -> bool) (l : list A).

Lemma findIndex_None f l :
  JS.findIndex f l = (-1)%Z <-> forall x, x ∈ l -> f x = false.
Proof.
  unfold JS.findIndex.
  destruct (list_find _ l) as [[i x]|] eqn:Hfind.
  - apply list_find_Some in Hfind as (Hi & Hx & _). split; [lia|].
    intros Hall. apply list_elem_of_lookup_2 in Hi.
    rewrite (Hall _ Hi) in Hx. destruct Hx.
  - apply list_find_None in Hfind. rewrite Forall_forall in Hfind.
    split; [|done]. intros _ x Hx. specialize (Hfind x Hx).
    by destruct (f x); [destruct Hfind|].
Qed.

Lemma findIndex_Some f l i :
  JS.findIndex f l = Z.of_nat i <->
  exists x, l !! i = Some x /\ f x = true /\
            forall j y, l !! j = Some y -> j < i -> f y = false.
Proof.
  unfold JS.findIndex.
  destruct (list_find _ l) as [[k x]|] eqn:Hfind.
  - apply list_find_Some in Hfind as (Hk & Hx & Hlt). split.
    + intros Heq. assert (k = i) as -> by lia. exists x.
      split_and!; [done|by apply Is_true_true|].
      intros j y Hj Hji. specialize (Hlt j y Hj Hji).
      by destruct (f y); [destruct Hlt|].
    + intros (y & Hi & Hy & Hlt'). f_equal.
      destruct (Nat.lt_trichotomy k i) as [Hlt1|[->|Hgt]]; [|done|].
      * apply Is_true_true in Hx. rewrite (Hlt' _ _ Hk Hlt1) in Hx. done.
      * destruct (Hlt _ _ Hi Hgt). by apply Is_true_true.
  - apply list_find_None in Hfind. rewrite Forall_forall in Hfind.
    split; [lia|]. intros (x & Hi & Hx & _).
    destruct (Hfind x); [by eapply list_elem_of_lookup_2|by apply Is_true_true].
Qed.

Lemma findIndex_cases f l :
  JS.findIndex f l = (-1)%Z \/
  exists i, JS.findIndex f l = Z.of_nat i /\ i < length l.
Proof.
  unfold JS.findIndex.
  destruct (list_find _ l) as [[i x]|] eqn:Hfind; [right|by left].
  apply list_find_Some in Hfind as (Hi & _). exists i.
  split; [done|]. by eapply lookup_lt_Some.
Qed.

Lemma binaryInsertion_Permutation (cmp : A -> A -> float) a pivot :
  JS.binaryInsertion cmp a pivot ≡ₚ pivot :: a.
Proof.
  unfold JS.binaryInsertion. rewrite <- Permutation_middle.
  by rewrite take_drop.
Qed.

Lemma binaryInsertionSort_Permutation (cmp : A -> A -> float) run rest :
  foldl (JS.binaryInsertion cmp) run rest ≡ₚ run ++ rest.
Proof.
  revert run. induction rest as [|x rest IH]; intros run; cbn [foldl].
  - by rewrite app_nil_r.
  - rewrite IH, binaryInsertion_Permutation. cbn. apply Permutation_middle.
Qed.

Lemma countAndMakeRun_Permutation (cmp : A -> A -> float) l :
  (JS.countAndMakeRun cmp l).1 ++ (JS.countAndMakeRun cmp l).2 ≡ₚ l.
Proof.
  unfold JS.countAndMakeRun. destruct l as [|x0 [|x1 l]]; [done|done|].
  cbn [fst snd]. destruct (JS.before cmp x1 x0).
  - by rewrite reverse_Permutation, take_drop.
  - by rewrite take_drop.
Qed.

Lemma sort_Permutation (cmp : A -> A -> float) l : JS.sort cmp l ≡ₚ l.
Proof.
  unfold JS.sort. pose proof (countAndMakeRun_Permutation cmp l) as H.
  destruct (JS.countAndMakeRun cmp l) as [run rest]. cbn [fst snd] in H.
  by rewrite binaryInsertionSort_Permutation.
Qed.

Lemma sort_length (cmp : A -> A -> float) l : length (JS.sort cmp l) = length l.
Proof. by rewrite sort_Permutation. Qed.

(** An element that occurs once in a list occurs at one index. *)
Lemma lookup_once l l0 x i j :
  l ≡ₚ x :: l0 -> x ∉ l0 -> l !! i = Some x -> l !! j = Some x -> i = j.
Proof.
  intros Hperm Hnotin Hi Hj.
  destruct (list_elem_of_split_length _ _ _ Hi) as (l1 & l2 & -> & ->).
  rewrite <- Permutation_middle in Hperm.
  apply Permutation_cons_inv in Hperm.
  assert (Hx : x ∉ l1 ++ l2) by (by rewrite Hperm).
  rewrite not_elem_of_app in Hx. destruct Hx as [Hx1 Hx2].
  destruct (Nat.lt_trichotomy j (length l1)) as [Hlt|[->|Hgt]]; [|done|].
  - rewrite lookup_app_l in Hj by done.
    destruct Hx1. by eapply list_elem_of_lookup_2.
  - rewrite lookup_app_r in Hj by lia.
    destruct (j - length l1) as [|k] eqn:Hk; [lia|]. cbn in Hj.
    destruct Hx2. by eapply list_elem_of_lookup_2.
Qed.

End Arrays.

(** ** The store of players *)

Lemma heap_lookup (h : list Player) l : l < length h -> h !! l = Some (h !!! l).
Proof. apply list_lookup_lookup_total_lt. Qed.

Lemma ids_inj (h : list Player) l1 l2 :
  NoDup (p_id <$> h) -> l1 < length h -> l2 < length h ->
  p_id (h !!! l1) = p_id (h !!! l2) -> l1 = l2.
Proof.
  intros Hnd H1 H2 Heq.
  eapply NoDup_lookup; [exact Hnd| |].
  - rewrite list_lookup_fmap, (heap_lookup _ _ H1). reflexivity.
  - rewrite list_lookup_fmap, (heap_lookup _ _ H2). cbn. by rewrite Heq.
Qed.

(** Updating a player without touching its id leaves all ids in place. *)
Lemma alter_p_id (f : Player -> Player) (h : list Player) l l' :
  (forall p, p_id (f p) = p_id p) ->
  p_id (alter f l h !!! l') = p_id (h !!! l').
Proof.
  intros Hf. destruct (decide (l = l')) as [->|Hne].
  - destruct (decide (l' < length h)) as [Hlt|Hge].
    + by rewrite list_lookup_total_alter_eq by done.
    + rewrite !list_lookup_total_alt, list_lookup_alter_eq.
      by rewrite (lookup_ge_None_2 h l') by lia.
  - by rewrite list_lookup_total_alter_ne.
Qed.

Lemma membership_Idle p :
  membership p = Idle <-> isInQueue p || isInMatch p = false.
Proof. unfold membership. destruct (isInMatch p), (isInQueue p); naive_solver. Qed.

(** ** Admission *)

(** X1: [addPlayer] fails with [AlreadyActive] exactly when the player is
    queued or in a match, and then changes nothing; otherwise it stores the
    weight computed at [now], flags the player as queued, adds one entry for
    it to the queue (a permutation of the old entries and the new one) and
    returns the 1-based position of that entry, the only one of the player. *)
Theorem addPlayer_spec (now : Z) (pl : loc) (st : State) :
  wf st -> pl < length (heap st) ->
  let this := heap st !!! pl in
  let st' := (addPlayer now pl st).1 in
  (membership this <> Idle <-> (addPlayer now pl st).2 = Failure AlreadyActive) /\
  (membership this <> Idle -> st' = st) /\
  (membership this = Idle ->
     let item := mkQueueItem pl now (queueWeight (calculateQueueWeight now this)) in
     st' = set_badmintonQueue (badmintonQueue st') (set_heap (heap st') st) /\
     heap st' = <[pl := calculateQueueWeight now (set_isInQueue true this)]> (heap st) /\
     membership (heap st' !!! pl) = Queued /\
     badmintonQueue st' ≡ₚ item :: badmintonQueue st /\
     exists i,
       (addPlayer now pl st).2 = Success (Z.of_nat i + 1)%Z /\
       badmintonQueue st' !! i = Some item /\
       forall j e, badmintonQueue st' !! j = Some e -> player e = pl -> j = i).
Proof.
  intros Hwf Hpl this st'. subst st'. unfold addPlayer. fold this.
  rewrite membership_Idle.
  destruct (isInQueue this || isInMatch this) eqn:Hflags; cbn [fst snd].
  { split_and!; [done|done|done]. }
  split_and!; [naive_solver|done|]. intros _.
  set (item := mkQueueItem pl now (queueWeight (calculateQueueWeight now this))).
  set (f := fun p => calculateQueueWeight now (set_isInQueue true p)).
  set (h := alter f pl (heap st)).
  assert (Hh : h !!! pl = f this)
    by (subst h; by rewrite list_lookup_total_alter_eq).
  assert (Hitem : mkQueueItem pl now (queueWeight (h !!! pl)) = item).
  { subst item. rewrite Hh. reflexivity. }
  rewrite Hitem.
  set (q' := JS.sort compareFn (badmintonQueue st ++ [item])).
  assert (Hperm : q' ≡ₚ item :: badmintonQueue st).
  { subst q'. rewrite sort_Permutation. by rewrite Permutation_app_comm. }
  apply orb_false_elim in Hflags as [HinQ HinM].
  assert (Hnotin : pl ∉ player <$> badmintonQueue st).
  { intros Hin. apply (wf_queued st Hwf pl this) in Hin; [|by apply heap_lookup].
    congruence. }
  assert (Hown : forall e, e ∈ q' -> player e = pl -> e = item).
  { intros e He Hpe. rewrite Hperm in He.
    apply elem_of_cons in He as [->|He]; [done|].
    destruct Hnotin. rewrite <- Hpe. by apply list_elem_of_fmap_2. }
  assert (Hid : forall e, e ∈ q' ->
            p_id (h !!! player e) = p_id (h !!! pl) -> player e = pl).
  { intros e He. subst h. rewrite !alter_p_id by done. intros Heq.
    eapply ids_inj; [apply Hwf| |done|done].
    rewrite Hperm in He. apply elem_of_cons in He as [->|He]; [done|].
    by apply (wf_queue_valid st Hwf). }
  cbn [heap badmintonQueue set_badmintonQueue set_heap].
  split_and!; [done| |rewrite Hh; unfold f, membership; cbn; by rewrite HinM|done|].
  { subst h. apply list_eq. intros k.
    destruct (decide (k = pl)) as [->|Hne].
    - rewrite list_lookup_alter_eq, list_lookup_insert_eq by done.
      by rewrite heap_lookup.
    - by rewrite list_lookup_alter_ne, list_lookup_insert_ne. }
  destruct (findIndex_cases
    (fun q => bool_decide (p_id (h !!! player q) = p_id (h !!! pl))) q')
    as [Hnone|(i & Hi & _)].
  { rewrite findIndex_None in Hnone.
    assert (Hin : item ∈ q') by (rewrite Hperm; left).
    specialize (Hnone item Hin). cbn in Hnone.
    by rewrite bool_decide_eq_false in Hnone. }
  exists i. rewrite Hi. split; [done|].
  apply findIndex_Some in Hi as (e & Hie & He & _).
  apply bool_decide_eq_true in He.
  assert (e = item) as ->.
  { apply Hown; [by eapply list_elem_of_lookup_2|].
    apply Hid; [by eapply list_elem_of_lookup_2|done]. }
  split; [done|]. intros j e Hj Hpe.
  assert (e = item) as -> by (apply Hown; [by eapply list_elem_of_lookup_2|done]).
  eapply lookup_once; [exact Hperm| |done..].
  intros Hin. destruct Hnotin.
  change pl with (player item). by apply list_elem_of_fmap_2.
Qed.

(** ** Updating several players *)

Section FoldAlter.
Context {X : Type} (g : X -> loc) (f : Player -> Player).
Implicit Types (h : list Player) (xs : list X).

Lemma alter_all_cons h x xs :
  alter_all g f h (x :: xs) = alter_all g f (alter f (g x) h) xs.
Proof. reflexivity. Qed.

Lemma alter_all_length h xs : length (alter_all g f h xs) = length h.
Proof.
  revert h. induction xs as [|x xs IH]; intros h; [done|].
  by rewrite alter_all_cons, IH, length_alter.
Qed.

Lemma alter_all_notin h xs l :
  l ∉ g <$> xs -> alter_all g f h xs !! l = h !! l.
Proof.
  revert h. induction xs as [|x xs IH]; intros h Hl; [done|].
  rewrite fmap_cons, not_elem_of_cons in Hl. destruct Hl as [Hne Hl].
  rewrite alter_all_cons, IH by done. by rewrite list_lookup_alter_ne.
Qed.

Lemma alter_all_NoDup h xs l :
  NoDup (g <$> xs) -> l ∈ g <$> xs -> alter_all g f h xs !! l = f <$> h !! l.
Proof.
  revert h. induction xs as [|x xs IH]; intros h Hnd Hl.
  { by apply elem_of_nil in Hl. }
  rewrite fmap_cons in Hnd, Hl. apply NoDup_cons in Hnd as [Hx Hnd].
  rewrite alter_all_cons.
  apply elem_of_cons in Hl as [->|Hl].
  - rewrite alter_all_notin by done. apply list_lookup_alter_eq.
  - rewrite IH by done. rewrite list_lookup_alter_ne; [done|].
    intros Heq. apply Hx. by rewrite Heq.
Qed.

Lemma alter_all_idemp h xs l :
  (forall p, f (f p) = f p) -> l ∈ g <$> xs ->
  alter_all g f h xs !! l = f <$> h !! l.
Proof.
  intros Hf. revert h. induction xs as [|x xs IH]; intros h Hl.
  { by apply elem_of_nil in Hl. }
  rewrite fmap_cons in Hl. rewrite alter_all_cons.
  destruct (decide (l ∈ g <$> xs)) as [Hin|Hnotin].
  - rewrite IH by done. destruct (decide (g x = l)) as [->|Hne].
    + rewrite list_lookup_alter_eq.
      destruct (h !! l) as [p|]; cbn; [|done].
      by rewrite Hf.
    + by rewrite list_lookup_alter_ne.
  - apply elem_of_cons in Hl as [->|Hl]; [|done].
    rewrite alter_all_notin by done. apply list_lookup_alter_eq.
Qed.

(** A field that [f] leaves alone is left alone. *)
Lemma alter_all_field {B} (field : Player -> B) h xs l p' :
  (forall p, field (f p) = field p) ->
  alter_all g f h xs !! l = Some p' ->
  exists p, h !! l = Some p /\ field p' = field p.
Proof.
  intros Hf. revert h. induction xs as [|x xs IH]; intros h Hl.
  { eauto. }
  rewrite alter_all_cons in Hl.
  apply IH in Hl as (q & Hq & Hfield).
  destruct (decide (g x = l)) as [<-|Hne].
  - rewrite list_lookup_alter_eq in Hq.
    destruct (h !! g x) as [p|] eqn:Hp; [|done]. cbn in Hq.
    injection Hq as <-. exists p. split; [done|]. by rewrite Hfield.
  - rewrite list_lookup_alter_ne in Hq by done. eauto.
Qed.

(** A property that [f] preserves is preserved. *)
Lemma alter_all_preserved (Q : Player -> Prop) h xs l p' :
  (forall p, Q p -> Q (f p)) ->
  alter_all g f h xs !! l = Some p' ->
  exists p, h !! l = Some p /\ (Q p -> Q p').
Proof.
  intros Hf. revert h. induction xs as [|x xs IH]; intros h Hl.
  { eauto. }
  rewrite alter_all_cons in Hl.
  apply IH in Hl as (q & Hq & HQ).
  destruct (decide (g x = l)) as [<-|Hne].
  - rewrite list_lookup_alter_eq in Hq.
    destruct (h !! g x) as [p|] eqn:Hp; [|done]. cbn in Hq.
    injection Hq as <-. exists p. split; [done|]. auto.
  - rewrite list_lookup_alter_ne in Hq by done. eauto.
Qed.

Lemma alter_all_ids h xs :
  (forall p, p_id (f p) = p_id p) ->
  p_id <$> alter_all g f h xs = p_id <$> h.
Proof.
  intros Hf. apply list_eq. intros l. rewrite !list_lookup_fmap.
  destruct (alter_all g f h xs !! l) as [p'|] eqn:Hl.
  - apply (alter_all_field p_id) in Hl as (p & -> & Hid); [|done].
    cbn. by rewrite Hid.
  - apply lookup_ge_None in Hl. rewrite alter_all_length in Hl.
    by rewrite (lookup_ge_None_2 h l).
Qed.

End FoldAlter.

(** ** The invariant *)

Lemma wf_initial : wf initial.
Proof.
  split; cbn; try (intros; by rewrite ?lookup_nil in * ); try constructor.
  - intros e He. by apply elem_of_nil in He.
  - intros l Hl. by apply elem_of_nil in Hl.
  - intros k l Hl. by apply elem_of_nil in Hl.
Qed.

Lemma alter_ids (f : Player -> Player) (h : list Player) l :
  (forall p, p_id (f p) = p_id p) -> p_id <$> alter f l h = p_id <$> h.
Proof. intros Hf. by apply (alter_all_ids id f h [l]). Qed.

Lemma ids_total (h h' : list Player) l :
  p_id <$> h' = p_id <$> h -> p_id (h' !!! l) = p_id (h !!! l).
Proof.
  intros Heq. rewrite !list_lookup_total_alt.
  assert (Hl : (p_id <$> h') !! l = (p_id <$> h) !! l) by (by rewrite Heq).
  rewrite !list_lookup_fmap in Hl.
  destruct (h' !! l), (h !! l); cbn in *; congruence.
Qed.

(** What a store looks like at [l'] after the player at [l] went through [f]. *)
Lemma alter_lookup_inv (f : Player -> Player) (h : list Player) l l' p' :
  alter f l h !! l' = Some p' ->
  exists p, h !! l' = Some p /\ (l' = l /\ p' = f p \/ l' <> l /\ p' = p).
Proof.
  destruct (decide (l = l')) as [->|Hne].
  - rewrite list_lookup_alter_eq. destruct (h !! l') as [p|]; [|done].
    intros [= <-]. eauto.
  - rewrite list_lookup_alter_ne by done. eauto.
Qed.

Lemma wf_addPlayer now pl st :
  wf st -> pl < length (heap st) -> wf (addPlayer now pl st).1.
Proof.
  intros Hwf Hpl. unfold addPlayer.
  set (this := heap st !!! pl).
  destruct (isInQueue this || isInMatch this) eqn:Hflags; [done|].
  apply orb_false_elim in Hflags as [HinQ HinM].
  set (f := fun p => calculateQueueWeight now (set_isInQueue true p)).
  set (h := alter f pl (heap st)).
  set (item := mkQueueItem pl now (queueWeight (h !!! pl))).
  set (q' := JS.sort compareFn (badmintonQueue st ++ [item])).
  assert (Hperm : q' ≡ₚ item :: badmintonQueue st).
  { subst q'. rewrite sort_Permutation. by rewrite Permutation_app_comm. }
  assert (Hthis : heap st !! pl = Some this) by (by apply heap_lookup).
  assert (Hnotin : pl ∉ player <$> badmintonQueue st).
  { intros Hin. apply (wf_queued st Hwf pl this) in Hin; [|done]. congruence. }
  assert (Hplayers : player <$> q' ≡ₚ pl :: (player <$> badmintonQueue st)).
  { by rewrite Hperm. }
  cbn [fst]. split; cbn [heap badmintonQueue match_heap matches players
    set_badmintonQueue set_heap].
  - subst h. rewrite alter_ids by done. apply Hwf.
  - intros e He. subst h. rewrite length_alter. rewrite Hperm in He.
    apply elem_of_cons in He as [->|He]; [done|]. by apply Hwf.
  - rewrite Hplayers. apply NoDup_cons. split; [done|apply Hwf].
  - intros l p' Hl. rewrite Hplayers, elem_of_cons.
    apply alter_lookup_inv in Hl as (p & Hp & [[-> ->]|[Hne ->]]).
    + split; [by left|done].
    + rewrite (wf_queued st Hwf l p Hp). split; [auto|]. by intros [?|?].
  - intros l p' Hl HM.
    apply alter_lookup_inv in Hl as (p & Hp & [[-> ->]|[Hne ->]]).
    + rewrite Hthis in Hp. injection Hp as <-. cbn in HM. congruence.
    + by eapply (wf_exclusive st Hwf).
  - intros ml m Hm Hact.
    destruct (wf_roster st Hwf ml m Hm Hact) as (Hlen & Hnd & Hmem).
    split_and!; [done..|]. intros l Hl.
    destruct (Hmem l Hl) as (p & Hp & HpM). exists p. split; [|done].
    subst h. rewrite list_lookup_alter_ne; [done|].
    intros ->. rewrite Hthis in Hp. injection Hp as <-. congruence.
  - apply Hwf.
  - apply Hwf.
  - intros l Hl. subst h. rewrite length_alter. by apply Hwf.
  - intros k l Hl. subst h. rewrite alter_p_id by done. by apply Hwf.
Qed.

(** How [removePlayer] proceeds: no entry carries the id and nothing happens,
    or the first entry that does is taken out and its player unflagged. *)
Lemma removePlayer_inv playerId st :
  (removePlayer playerId st = (st, Failure NotQueued) /\
   forall e, e ∈ badmintonQueue st -> p_id (heap st !!! player e) <> playerId) \/
  (exists i item,
     badmintonQueue st !! i = Some item /\
     p_id (heap st !!! player item) = playerId /\
     (forall j e, badmintonQueue st !! j = Some e -> j < i ->
                  p_id (heap st !!! player e) <> playerId) /\
     removePlayer playerId st =
       (set_badmintonQueue (delete i (badmintonQueue st))
          (set_heap (alter (set_isInQueue false) (player item) (heap st)) st),
        Success (player item))).
Proof.
  unfold removePlayer.
  set (f := fun q => bool_decide (p_id (heap st !!! player q) = playerId)).
  destruct (findIndex_cases f (badmintonQueue st)) as [Hnone|(i & Hi & Hlt)].
  - left. rewrite Hnone. split; [done|].
    rewrite findIndex_None in Hnone. intros e He.
    specialize (Hnone e He). by apply bool_decide_eq_false in Hnone.
  - right. rewrite Hi.
    apply findIndex_Some in Hi as (item & Hitem & Hf & Hfirst).
    exists i, item. apply bool_decide_eq_true in Hf.
    split_and!; [done..| |].
    + intros j e Hj Hji. specialize (Hfirst j e Hj Hji).
      by apply bool_decide_eq_false in Hfirst.
    + destruct (Z.of_nat i =? -1)%Z eqn:Hneg; [lia|].
      rewrite Nat2Z.id.
      by rewrite (list_lookup_total_correct _ _ _ Hitem).
Qed.

Lemma wf_removePlayer playerId st : wf st -> wf (removePlayer playerId st).1.
Proof.
  intros Hwf.
  destruct (removePlayer_inv playerId st)
    as [[-> _]|(i & item & Hitem & _ & _ & ->)]; [done|].
  assert (Hsub : forall e, e ∈ delete i (badmintonQueue st) -> e ∈ badmintonQueue st).
  { intros e He. rewrite (delete_Permutation _ _ _ Hitem). by right. }
  assert (Hplayers : player <$> badmintonQueue st
                     ≡ₚ player item :: (player <$> delete i (badmintonQueue st))).
  { rewrite <- fmap_cons. apply fmap_Permutation. by apply delete_Permutation. }
  pose proof (wf_queue_nodup st Hwf) as Hnd. rewrite Hplayers in Hnd.
  apply NoDup_cons in Hnd as [Hnotin Hnd].
  cbn [fst]. split; cbn [heap badmintonQueue match_heap matches players
    set_badmintonQueue set_heap].
  - rewrite alter_ids by done. apply Hwf.
  - intros e He. rewrite length_alter. apply Hwf. auto.
  - done.
  - intros l p' Hl.
    apply alter_lookup_inv in Hl as (p & Hp & [[-> ->]|[Hne ->]]).
    + done.
    + rewrite (wf_queued st Hwf l p Hp), Hplayers, elem_of_cons.
      split; [by intros [?|?]|auto].
  - intros l p' Hl HM.
    apply alter_lookup_inv in Hl as (p & Hp & [[-> ->]|[Hne ->]]); [done|].
    by eapply (wf_exclusive st Hwf).
  - intros ml m Hm Hact.
    destruct (wf_roster st Hwf ml m Hm Hact) as (Hlen & Hnd' & Hmem).
    split_and!; [done..|]. intros l Hl.
    destruct (Hmem l Hl) as (p & Hp & HpM).
    destruct (decide (l = player item)) as [->|Hne].
    + exists (set_isInQueue false p). split; [|done].
      by rewrite list_lookup_alter_eq, Hp.
    + exists p. by rewrite list_lookup_alter_ne.
  - apply Hwf.
  - apply Hwf.
  - intros l Hl. rewrite length_alter. by apply Hwf.
  - intros k l Hl. rewrite alter_p_id by done. by apply Hwf.
Qed.

Lemma get_set {V} (k k' : JS.string) (v : V) (d : JS.dict V) :
  JS.get k (JS.set k' v d) = if decide (k = k') then Some v else JS.get k d.
Proof.
  induction d as [|[k0 v0] d IH]; cbn.
  - by destruct (decide (k = k')).
  - destruct (decide (k' = k0)) as [->|Hne]; cbn.
    + destruct (decide (k = k0)); [done|]. by destruct (decide (k = k0)).
    + destruct (decide (k = k0)) as [->|Hne'].
      * by destruct (decide (k0 = k')); [congruence|].
      * done.
Qed.

(** What [createMatch] returns when the queue is long enough. *)
Lemma createMatch_success now uuid st :
  4 <= length (badmintonQueue st) ->
  createMatch now uuid st =
    (mkState
       (alter_all player (fun p => set_isInMatch true (set_isInQueue false p))
          (heap st) (take 4 (badmintonQueue st)))
       (match_heap st
        ++ [mkMatch uuid (player <$> take 4 (badmintonQueue st)) now None None
              None active])
       (players st) (JS.set uuid (length (match_heap st)) (matches st))
       (activeMatches st ++ [length (match_heap st)]) (completedMatches st)
       (drop 4 (badmintonQueue st)) (flagged st),
     Success (length (match_heap st))).
Proof.
  intros Hlen. unfold createMatch.
  destruct (length (badmintonQueue st) <? 4) eqn:Hlt; [|done].
  apply Nat.ltb_lt in Hlt. lia.
Qed.

Lemma createMatch_failure now uuid st :
  length (badmintonQueue st) < 4 ->
  createMatch now uuid st = (st, Failure InsufficientEntries).
Proof.
  intros Hlen. unfold createMatch.
  destruct (length (badmintonQueue st) <? 4) eqn:Hlt; [done|].
  apply Nat.ltb_ge in Hlt. lia.
Qed.

Lemma wf_createMatch now uuid st : wf st -> wf (createMatch now uuid st).1.
Proof.
  intros Hwf.
  destruct (decide (length (badmintonQueue st) < 4)) as [Hlt|Hge].
  { by rewrite createMatch_failure. }
  rewrite createMatch_success by lia. cbn [fst].
  set (f := fun p => set_isInMatch true (set_isInQueue false p)).
  set (taken := take 4 (badmintonQueue st)).
  set (rest := drop 4 (badmintonQueue st)).
  set (h := alter_all player f (heap st) taken).
  assert (Hq : badmintonQueue st = taken ++ rest)
    by (symmetry; apply take_drop).
  pose proof (wf_queue_nodup st Hwf) as Hnd.
  rewrite Hq, fmap_app in Hnd. apply NoDup_app in Hnd as (Hnd1 & Hdisj & Hnd2).
  assert (Hvalid : forall l, l ∈ player <$> taken -> exists p, heap st !! l = Some p).
  { intros l (e & -> & He)%list_elem_of_fmap.
    apply lookup_lt_is_Some. apply Hwf. rewrite Hq. apply elem_of_app. auto. }
  assert (Hin : forall l p, l ∈ player <$> taken -> heap st !! l = Some p ->
                  h !! l = Some (f p)).
  { intros l p Hl Hp. subst h.
    rewrite (alter_all_idemp player f) by done. by rewrite Hp. }
  assert (Hout : forall l, l ∉ player <$> taken -> h !! l = heap st !! l).
  { intros l Hl. by apply alter_all_notin. }
  assert (Hqueued : forall l p, l ∈ player <$> taken -> heap st !! l = Some p ->
                      isInMatch p = false).
  { intros l p Hl Hp.
    assert (HQ : isInQueue p = true).
    { apply (wf_queued st Hwf l p Hp). rewrite Hq, fmap_app, elem_of_app. auto. }
    destruct (isInMatch p) eqn:HM; [|done].
    apply (wf_exclusive st Hwf l p Hp) in HM. congruence. }
  split; cbn [heap badmintonQueue match_heap matches players].
  - subst h. rewrite alter_all_ids by done. apply Hwf.
  - intros e He. subst h. rewrite alter_all_length. apply Hwf.
    rewrite Hq. apply elem_of_app. auto.
  - done.
  - intros l p' Hl. destruct (decide (l ∈ player <$> taken)) as [Ht|Ht].
    + destruct (Hvalid l Ht) as [p Hp]. rewrite (Hin l p Ht Hp) in Hl.
      injection Hl as <-. cbn. split; [done|]. intros Hr. by destruct (Hdisj l).
    + rewrite Hout in Hl by done. rewrite (wf_queued st Hwf l p' Hl).
      rewrite Hq, fmap_app, elem_of_app. split; [by intros [?|?]|auto].
  - intros l p' Hl HM. destruct (decide (l ∈ player <$> taken)) as [Ht|Ht].
    + destruct (Hvalid l Ht) as [p Hp]. rewrite (Hin l p Ht Hp) in Hl.
      by injection Hl as <-.
    + rewrite Hout in Hl by done. by eapply (wf_exclusive st Hwf).
  - intros ml m Hm Hact. apply lookup_app_Some in Hm as [Hm|[_ Hm]].
    + destruct (wf_roster st Hwf ml m Hm Hact) as (Hlen & Hnd' & Hmem).
      split_and!; [done..|]. intros l Hl.
      destruct (Hmem l Hl) as (p & Hp & HpM).
      destruct (decide (l ∈ player <$> taken)) as [Ht|Ht].
      * exists (f p). split; [by apply Hin|done].
      * exists p. split; [by rewrite Hout|done].
    + destruct (ml - length (match_heap st)) as [|k]; cbn in Hm; [|done].
      injection Hm as <-. cbn [m_players].
      split_and!; [|done|].
      * rewrite length_fmap. subst taken. rewrite length_take. lia.
      * intros l Hl. destruct (Hvalid l Hl) as [p Hp].
        exists (f p). split; [by apply Hin|done].
  - assert (Hnew : forall ml m l, match_heap st !! ml = Some m -> status m = active ->
              l ∈ m_players m -> l ∈ player <$> taken -> False).
    { intros ml m l Hm Hact Hl Ht.
      destruct (wf_roster st Hwf ml m Hm Hact) as (_ & _ & Hmem).
      destruct (Hmem l Hl) as (p & Hp & HpM).
      rewrite (Hqueued l p Ht Hp) in HpM. done. }
    intros ml1 ml2 m1 m2 l Hm1 Ha1 Hm2 Ha2 Hl1 Hl2.
    apply lookup_app_Some in Hm1 as [Hm1|[Hge1 Hm1]];
      apply lookup_app_Some in Hm2 as [Hm2|[Hge2 Hm2]].
    + by eapply (wf_disjoint st Hwf).
    + destruct (ml2 - length (match_heap st)) as [|k]; cbn in Hm2; [|done].
      injection Hm2 as <-. destruct (Hnew ml1 m1 l); done.
    + destruct (ml1 - length (match_heap st)) as [|k]; cbn in Hm1; [|done].
      injection Hm1 as <-. destruct (Hnew ml2 m2 l); done.
    + apply lookup_lt_Some in Hm1, Hm2. cbn in Hm1, Hm2. lia.
  - intros k ml. rewrite get_set, length_app. cbn.
    destruct (decide (k = uuid)); [intros [= <-]; lia|].
    intros Hget. apply (wf_matches st Hwf) in Hget. lia.
  - intros l Hl. subst h. rewrite alter_all_length. by apply Hwf.
  - intros k l Hl. subst h.
    rewrite (ids_total (heap st)) by (by apply alter_all_ids). by apply Hwf.
Qed.

Lemma status_active_lookup (mh : list BadmintonMatch) ml :
  status (mh !!! ml) = active -> mh !! ml = Some (mh !!! ml).
Proof.
  rewrite list_lookup_total_alt. destruct (mh !! ml) as [m|]; [done|].
  cbn. discriminate.
Qed.

Lemma winners_of_subseteq st m wids l :
  l ∈ winners_of st m wids -> l ∈ m_players m.
Proof. unfold winners_of. rewrite list_elem_of_filter. tauto. Qed.

Lemma losers_of_subseteq st m wids l :
  l ∈ losers_of st m wids -> l ∈ m_players m.
Proof. unfold losers_of. rewrite list_elem_of_filter. tauto. Qed.

(** The four ways [complete_match] can go, in the order it checks them. *)
Lemma complete_match_cases pow_approx now matchId winnerIds st :
  let r := complete_match pow_approx now matchId winnerIds st in
  (r = (st, InvalidOutcome "Match ID and 2 winner IDs required") /\
   (forall mid wids, matchId = Some mid -> winnerIds = Some wids ->
      mid = [] \/ length wids <> 2)) \/
  (exists mid wids,
     matchId = Some mid /\ winnerIds = Some wids /\ mid <> [] /\ length wids = 2 /\
     ((r = (st, SessionNotFound) /\
       (JS.get mid (matches st) = None \/
        exists ml, JS.get mid (matches st) = Some ml /\
                   status (match_heap st !!! ml) = completed)) \/
      (exists ml m,
         JS.get mid (matches st) = Some ml /\
         match_heap st !! ml = Some m /\ status m = active /\
         ((r = (st, InvalidOutcome "Invalid winner selection") /\
           (length (winners_of st m wids) <> 2 \/ length (losers_of st m wids) <> 2)) \/
          (length (winners_of st m wids) = 2 /\ length (losers_of st m wids) = 2 /\
           r = (move_to_completed mid ml
                  (completeMatch pow_approx now ml (winners_of st m wids)
                     (losers_of st m wids) st),
                mkReply 200 (Success ml))))))).
Proof.
  cbn zeta. unfold complete_match.
  destruct matchId as [mid|]; [|left; split; [done|intros; discriminate]].
  destruct winnerIds as [wids|]; [|left; split; [done|intros; discriminate]].
  destruct (decide (mid = [])) as [->|Hmid].
  { left. split; [done|]. intros ?? [= <-] _. by left. }
  rewrite bool_decide_eq_false_2 by done. cbn [orb].
  destruct (length wids =? 2) eqn:Hlen; cbn [negb].
  2:{ left. split; [done|]. intros ?? [= <-] [= <-]. right.
      by apply Nat.eqb_neq. }
  apply Nat.eqb_eq in Hlen.
  right. exists mid, wids. split_and!; [done..|].
  destruct (JS.get mid (matches st)) as [ml|] eqn:Hget; [|left; auto].
  destruct (status (match_heap st !!! ml)) eqn:Hstatus.
  2:{ left. split; [done|]. right. eauto. }
  right. exists ml, (match_heap st !!! ml).
  split_and!; [done|by apply status_active_lookup|done|].
  destruct (length (winners_of st _ wids) =? 2) eqn:Hw; cbn [negb orb].
  2:{ left. split; [done|]. left. by apply Nat.eqb_neq. }
  destruct (length (losers_of st _ wids) =? 2) eqn:Hl; cbn [negb orb].
  2:{ left. split; [done|]. right. by apply Nat.eqb_neq. }
  right. apply Nat.eqb_eq in Hw, Hl. done.
Qed.

Lemma settle_p_id pow_approx now won opp p :
  p_id (settle pow_approx now won opp p) = p_id p.
Proof. unfold settle, updateRanking. by destruct won. Qed.

Lemma settle_isInQueue pow_approx now won opp p :
  isInQueue (settle pow_approx now won opp p) = isInQueue p.
Proof. unfold settle, updateRanking. by destruct won. Qed.

(** The store after [completeMatch], seen from one location. *)
Lemma completeMatch_heap_inv pow_approx now ml winners losers st l p' :
  heap (completeMatch pow_approx now ml winners losers st) !! l = Some p' ->
  exists p, heap st !! l = Some p /\
    p_id p' = p_id p /\ isInQueue p' = isInQueue p /\
    (isInMatch p' = true -> isInMatch p = true) /\
    (l ∉ winners -> l ∉ losers -> p' = p).
Proof.
  unfold completeMatch. cbn [heap set_heap].
  set (fw := settle pow_approx now true _). set (fl := settle pow_approx now false _).
  intros Hl.
  pose proof Hl as Hl1.
  apply (alter_all_field id fl p_id) in Hl1 as (q & Hq & Hid);
    [|apply settle_p_id].
  pose proof Hq as Hq1.
  apply (alter_all_field id fw p_id) in Hq1 as (p & Hp & Hid');
    [|apply settle_p_id].
  exists p. split; [done|]. split; [congruence|].
  split.
  { pose proof Hl as Hl2.
    apply (alter_all_field id fl isInQueue) in Hl2 as (q2 & Hq2 & HQ);
      [|apply settle_isInQueue].
    pose proof Hq as Hq3.
    apply (alter_all_field id fw isInQueue) in Hq3 as (p3 & Hp3 & HQ');
      [|apply settle_isInQueue].
    congruence. }
  split.
  { intros HM. destruct (isInMatch p) eqn:HMp; [done|].
    pose proof Hl as Hl2.
    apply (alter_all_preserved id fl (fun p => isInMatch p = false)) in Hl2
      as (q2 & Hq2 & HQ); [|done].
    pose proof Hq as Hq3.
    apply (alter_all_preserved id fw (fun p => isInMatch p = false)) in Hq3
      as (p3 & Hp3 & HQ'); [|done].
    assert (q2 = q) as -> by congruence. assert (p3 = p) as -> by congruence.
    rewrite HQ in HM by auto. done. }
  intros Hw Hlo.
  rewrite alter_all_notin in Hl by (by rewrite list_fmap_id).
  rewrite alter_all_notin in Hl by (by rewrite list_fmap_id).
  congruence.
Qed.

Lemma wf_completeMatch pow_approx now ml m winners losers st :
  wf st -> match_heap st !! ml = Some m -> status m = active ->
  (forall l, l ∈ winners -> l ∈ m_players m) ->
  (forall l, l ∈ losers -> l ∈ m_players m) ->
  wf (completeMatch pow_approx now ml winners losers st).
Proof.
  intros Hwf Hm Hact Hw Hl.
  set (st1 := completeMatch pow_approx now ml winners losers st).
  assert (Hmh : forall ml' m', match_heap st1 !! ml' = Some m' -> status m' = active ->
            ml' <> ml /\ match_heap st !! ml' = Some m').
  { intros ml' m'. subst st1. unfold completeMatch. cbn [match_heap set_heap set_match_heap].
    destruct (decide (ml' = ml)) as [->|Hne].
    - rewrite list_lookup_alter_eq, Hm. cbn. by intros [= <-].
    - by rewrite list_lookup_alter_ne. }
  assert (Hlen : length (heap st1) = length (heap st)).
  { subst st1. unfold completeMatch. cbn [heap set_heap].
    by rewrite !alter_all_length. }
  assert (Hq : badmintonQueue st1 = badmintonQueue st) by done.
  split.
  - subst st1. unfold completeMatch. cbn [heap set_heap].
    rewrite !alter_all_ids by (intros; apply settle_p_id). apply Hwf.
  - rewrite Hq, Hlen. apply Hwf.
  - rewrite Hq. apply Hwf.
  - intros l p' Hp'. rewrite Hq.
    apply completeMatch_heap_inv in Hp' as (p & Hp & _ & -> & _).
    by apply Hwf.
  - intros l p' Hp' HM.
    apply completeMatch_heap_inv in Hp' as (p & Hp & _ & -> & HM' & _).
    eapply (wf_exclusive st Hwf); eauto.
  - intros ml' m' Hm' Hact'. destruct (Hmh ml' m' Hm' Hact') as [Hne Hold].
    destruct (wf_roster st Hwf ml' m' Hold Hact') as (Hl4 & Hnd & Hmem).
    split_and!; [done..|]. intros l Hlm.
    destruct (Hmem l Hlm) as (p & Hp & HpM). exists p. split; [|done].
    assert (Hnot : l ∉ m_players m).
    { intros Hin. destruct Hne. by eapply (wf_disjoint st Hwf ml' ml m' m l). }
    subst st1. unfold completeMatch. cbn [heap set_heap].
    rewrite !alter_all_notin; rewrite ?list_fmap_id; [done|..].
    + intros Hin. apply Hnot. by apply Hw.
    + intros Hin. apply Hnot. by apply Hl.
  - intros ml1 ml2 m1 m2 l Hm1 Ha1 Hm2 Ha2 Hl1 Hl2.
    destruct (Hmh ml1 m1 Hm1 Ha1) as [_ Hold1].
    destruct (Hmh ml2 m2 Hm2 Ha2) as [_ Hold2].
    by eapply (wf_disjoint st Hwf ml1 ml2 m1 m2 l).
  - intros k ml' Hget. subst st1. unfold completeMatch.
    cbn [match_heap set_heap set_match_heap]. rewrite length_alter.
    by apply (wf_matches st Hwf k).
  - intros l Hin. rewrite Hlen. by apply Hwf.
  - intros k l Hin. subst st1. unfold completeMatch. cbn [heap set_heap players].
    rewrite (ids_total (heap st)); [by apply Hwf|].
    rewrite !alter_all_ids by (intros; apply settle_p_id). done.
Qed.

Lemma wf_move_to_completed matchId ml st :
  wf st -> wf (move_to_completed matchId ml st).
Proof.
  intros Hwf. unfold move_to_completed.
  destruct (_ =? _)%Z; [done|]. by destruct Hwf.
Qed.

Lemma wf_complete_match pow_approx now matchId winnerIds st :
  wf st -> wf (complete_match pow_approx now matchId winnerIds st).1.
Proof.
  intros Hwf.
  destruct (complete_match_cases pow_approx now matchId winnerIds st)
    as [[-> _]|(mid & wids & _ & _ & _ & _ &
         [[-> _]|(ml & m & _ & Hm & Hact & [[-> _]|(_ & _ & ->)])])];
    [done..|].
  cbn [fst]. apply wf_move_to_completed.
  eapply wf_completeMatch; eauto using winners_of_subseteq, losers_of_subseteq.
Qed.

Lemma get_values {V} (k : JS.string) (v : V) (d : JS.dict V) :
  JS.get k d = Some v -> v ∈ JS.values d.
Proof.
  unfold JS.values. induction d as [|[k0 v0] d IH]; cbn; [done|].
  destruct (decide (k = k0)).
  - intros [= ->]. left.
  - intros Hget. right. auto.
Qed.

Lemma values_set {V} (k : JS.string) (v v' : V) (d : JS.dict V) :
  v' ∈ JS.values (JS.set k v d) -> v' = v \/ v' ∈ JS.values d.
Proof.
  unfold JS.values. induction d as [|[k0 v0] d IH]; cbn.
  - intros ?%list_elem_of_singleton. by left.
  - destruct (decide (k = k0)); cbn; rewrite !elem_of_cons.
    + intros [->|?]; auto.
    + intros [->|?]; auto. destruct IH; auto.
Qed.

Lemma elem_of_set {V} (k k' : JS.string) (v v' : V) (d : JS.dict V) :
  (k', v') ∈ JS.set k v d -> k' = k /\ v' = v \/ (k', v') ∈ d.
Proof.
  induction d as [|[k0 v0] d IH]; cbn.
  - intros [= -> ->]%list_elem_of_singleton. by left.
  - destruct (decide (k = k0)) as [->|Hne]; rewrite !elem_of_cons.
    + intros [[= -> ->]|Hin]; auto.
    + intros [[= -> ->]|Hin]; [auto|]. destruct (IH Hin); auto.
Qed.

Lemma find_elem_of {A} (f : A -> bool) (l : list A) x :
  JS.find f l = Some x -> x ∈ l /\ f x = true.
Proof.
  unfold JS.find. destruct (list_find _ l) as [[i y]|] eqn:Hfind; [|done].
  intros [= <-]. apply list_find_Some in Hfind as (Hi & Hy & _).
  split; [by eapply list_elem_of_lookup_2|by apply Is_true_true].
Qed.

(** Registering a new player under a fresh id. *)
Lemma wf_register uuid name st :
  wf st -> uuid ∉ p_id <$> heap st ->
  wf (set_players (JS.set uuid (length (heap st)) (players st))
        (set_heap (heap st ++ [new_Player uuid name]) st)).
Proof.
  intros Hwf Hfresh.
  assert (Hold : forall l p, (heap st ++ [new_Player uuid name]) !! l = Some p ->
            heap st !! l = Some p \/
            l = length (heap st) /\ p = new_Player uuid name).
  { intros l p [Hl|[Hge Hl]]%lookup_app_Some; [by left|right].
    destruct (l - length (heap st)) as [|k] eqn:Hk; cbn in Hl; [|done].
    injection Hl as <-. split; [lia|done]. }
  assert (Hnotq : length (heap st) ∉ player <$> badmintonQueue st).
  { intros (e & Heq & He)%list_elem_of_fmap.
    apply (wf_queue_valid st Hwf) in He. lia. }
  split; cbn [heap badmintonQueue match_heap matches players set_players set_heap].
  - rewrite fmap_app. apply NoDup_app. split_and!; [apply Hwf| |].
    + intros x Hx ?%list_elem_of_singleton. by subst.
    + apply NoDup_singleton.
  - intros e He. rewrite length_app. apply (wf_queue_valid st Hwf) in He. lia.
  - apply Hwf.
  - intros l p [Hl|[-> ->]]%Hold; [by apply Hwf|]. by cbn.
  - intros l p [Hl|[-> ->]]%Hold; [by eapply Hwf|done].
  - intros ml m Hm Hact.
    destruct (wf_roster st Hwf ml m Hm Hact) as (Hlen & Hnd & Hmem).
    split_and!; [done..|]. intros l Hl.
    destruct (Hmem l Hl) as (p & Hp & HpM). exists p. split; [|done].
    by apply lookup_app_l_Some.
  - apply Hwf.
  - apply Hwf.
  - intros l [->|Hl]%values_set; rewrite length_app; cbn; [lia|].
    apply (wf_players st Hwf) in Hl. lia.
  - intros k l [[-> ->]|Hin]%elem_of_set.
    + by rewrite list_lookup_total_middle.
    + assert (Hlt : l < length (heap st)).
      { apply Hwf. apply list_elem_of_fmap. by exists (k, l). }
      rewrite lookup_total_app_l by done. by apply Hwf.
Qed.

Lemma wf_join now uuid playerName st :
  wf st -> uuid ∉ p_id <$> heap st -> wf (join now uuid playerName st).1.
Proof.
  intros Hwf Hfresh. unfold join.
  destruct playerName as [playerName|]; [|done].
  destruct (_ || _); [done|].
  destruct (find_by_name _ st) as [pl|] eqn:Hfind.
  - destruct (addPlayer now pl st) as [st' r] eqn:Hadd. cbn [fst].
    change st' with (st', r).1. rewrite <- Hadd. apply wf_addPlayer; [done|].
    apply find_elem_of in Hfind as [Hin _]. by apply Hwf.
  - destruct (addPlayer now _ _) as [st' r] eqn:Hadd. cbn [fst].
    change st' with (st', r).1. rewrite <- Hadd.
    apply wf_addPlayer; [by apply wf_register|].
    cbn. rewrite length_app. cbn. lia.
Qed.

Lemma wf_set_flagged f st : wf st -> wf (set_flagged f st).
Proof. intros Hwf. by destruct Hwf. Qed.

Lemma wf_rejoin now playerId st : wf st -> wf (rejoin now playerId st).1.
Proof.
  intros Hwf. unfold rejoin.
  destruct (JS.get playerId (players st)) as [pl|] eqn:Hget.
  2:{ destruct (inherited _ _); [|done].
      destruct (inherited_isInQueue _ _); [done|]. by apply wf_set_flagged. }
  destruct (isInMatch _); [done|].
  destruct (addPlayer now pl st) as [st' r] eqn:Hadd. cbn [fst].
  change st' with (st', r).1. rewrite <- Hadd. apply wf_addPlayer; [done|].
  apply Hwf. by eapply get_values.
Qed.

Lemma wf_step pow_approx st r :
  wf st -> fresh_uuid st r -> wf (step pow_approx st r).
Proof.
  intros Hwf Hfresh. destruct r as [now uuid name|playerId|now uuid|now mid wids|now playerId];
    cbn [step].
  - by apply wf_join.
  - unfold leave. destruct (removePlayer playerId st) as [st' r] eqn:Hrem.
    change st' with (st', r).1. rewrite <- Hrem. by apply wf_removePlayer.
  - unfold create_match. destruct (createMatch now uuid st) as [st' r] eqn:Hcr.
    change st' with (st', r).1. rewrite <- Hcr. by apply wf_createMatch.
  - by apply wf_complete_match.
  - by apply wf_rejoin.
Qed.

(** Every state the server reaches satisfies the invariant. *)
Lemma reachable_wf pow_approx st : reachable pow_approx st -> wf st.
Proof.
  induction 1 as [|st r _ IH Hfresh]; [apply wf_initial|by apply wf_step].
Qed.

(** ** Admission, withdrawal and match creation *)

(** What [addPlayer] returns for a player that is neither queued nor in a
    match. *)
Lemma addPlayer_Idle now pl st :
  isInQueue (heap st !!! pl) || isInMatch (heap st !!! pl) = false ->
  exists rank,
    addPlayer now pl st =
      (set_badmintonQueue
         (JS.sort compareFn
            (badmintonQueue st
             ++ [mkQueueItem pl now
                   (queueWeight (calculateQueueWeight now (heap st !!! pl)))]))
         (set_heap
            (alter (fun p => calculateQueueWeight now (set_isInQueue true p)) pl
               (heap st)) st),
       Success rank).
Proof.
  intros Hflags. unfold addPlayer. rewrite Hflags. eexists. do 3 f_equal.
  destruct (decide (pl < length (heap st))) as [Hlt|Hge].
  - by rewrite list_lookup_total_alter_eq.
  - rewrite !list_lookup_total_alt, list_lookup_alter_eq.
    by rewrite (lookup_ge_None_2 _ pl) by lia.
Qed.

(** Withdrawing a queued player by its id takes out an entry of that very
    player. *)
Lemma removePlayer_queued pl st :
  wf st -> pl < length (heap st) -> isInQueue (heap st !!! pl) = true ->
  exists i item,
    badmintonQueue st !! i = Some item /\ player item = pl /\
    removePlayer (p_id (heap st !!! pl)) st =
      (set_badmintonQueue (delete i (badmintonQueue st))
         (set_heap (alter (set_isInQueue false) pl (heap st)) st),
       Success pl).
Proof.
  intros Hwf Hpl HQ.
  assert (Hin : pl ∈ player <$> badmintonQueue st).
  { apply (wf_queued st Hwf pl (heap st !!! pl)); [by apply heap_lookup|done]. }
  apply list_elem_of_fmap in Hin as (e & Hpe & He).
  destruct (removePlayer_inv (p_id (heap st !!! pl)) st)
    as [[_ Hnone]|(i & item & Hitem & Hid & _ & Heq)].
  { destruct (Hnone e He). by rewrite <- Hpe. }
  assert (player item = pl) as Hpi.
  { eapply ids_inj; [apply Hwf| |done|done].
    apply Hwf. by eapply list_elem_of_lookup_2. }
  exists i, item. rewrite Heq, Hpi. done.
Qed.

(** X2: [createMatch] fails with [InsufficientEntries] exactly when the queue
    has fewer than four entries, and then changes nothing; otherwise the new
    match has the players of the first four entries as its roster, in queue
    order, the queue is left with the entries that followed them, in their
    order, and every player of the roster is in a match and no longer
    queued, the other players being as they were. *)
Theorem createMatch_spec (now : Z) (uuid : JS.string) (st : State) :
  wf st ->
  let r := createMatch now uuid st in
  (length (badmintonQueue st) < 4 <-> r.2 = Failure InsufficientEntries) /\
  (length (badmintonQueue st) < 4 -> r.1 = st) /\
  (4 <= length (badmintonQueue st) ->
     exists ml m,
       r.2 = Success ml /\ match_heap r.1 !! ml = Some m /\ status m = active /\
       m_players m = player <$> take 4 (badmintonQueue st) /\
       length (m_players m) = 4 /\
       badmintonQueue st = take 4 (badmintonQueue st) ++ badmintonQueue r.1 /\
       badmintonQueue r.1 = drop 4 (badmintonQueue st) /\
       (forall l, l ∈ m_players m ->
          membership (heap r.1 !!! l) = InSession /\
          isInQueue (heap r.1 !!! l) = false) /\
       (forall l, l ∉ m_players m -> heap r.1 !!! l = heap st !!! l)).
Proof.
  intros Hwf r. subst r.
  destruct (decide (length (badmintonQueue st) < 4)) as [Hlt|Hge].
  { rewrite createMatch_failure by done. split_and!; [done|done|lia]. }
  rewrite createMatch_success by lia. cbn [fst snd].
  split_and!; [split; [lia|discriminate]|lia|]. intros _.
  eexists _, _. split; [reflexivity|].
  cbn [match_heap heap badmintonQueue].
  split; [by rewrite list_lookup_middle|]. cbn [status m_players].
  split_and!; [done|done| |by rewrite take_drop|done| |].
  - rewrite length_fmap, length_take. lia.
  - intros l Hl.
    assert (Hlt : l < length (heap st)).
    { apply list_elem_of_fmap in Hl as (e & -> & He). apply Hwf.
      rewrite <- (take_drop 4 (badmintonQueue st)). apply elem_of_app. auto. }
    rewrite list_lookup_total_alt, (alter_all_idemp player) by done.
    rewrite (heap_lookup _ _ Hlt). done.
  - intros l Hl. by rewrite !list_lookup_total_alt, alter_all_notin.
Qed.

(** C10: withdrawing a queued player by its id succeeds and returns that
    player; in the store only that player changes, and of it only the
    [isInQueue] flag (the rating, the counters and the time of the last match
    are as before), which takes it from queued to idle; the queue loses one
    entry, that player's only one, and the other entries stay as they are, in
    their order; nothing else in the state changes. *)
Theorem removePlayer_frame (pl : loc) (st : State) :
  wf st -> pl < length (heap st) -> membership (heap st !!! pl) = Queued ->
  let this := heap st !!! pl in
  let r := removePlayer (p_id this) st in
  r.2 = Success pl /\
  heap r.1 = <[pl := set_isInQueue false this]> (heap st) /\
  membership (heap r.1 !!! pl) = Idle /\
  ranking (heap r.1 !!! pl) = ranking this /\
  wins (heap r.1 !!! pl) = wins this /\
  losses (heap r.1 !!! pl) = losses this /\
  totalMatches (heap r.1 !!! pl) = totalMatches this /\
  lastMatchTime (heap r.1 !!! pl) = lastMatchTime this /\
  (forall l, l <> pl -> heap r.1 !!! l = heap st !!! l) /\
  (exists i item,
     badmintonQueue st !! i = Some item /\ player item = pl /\
     badmintonQueue r.1 = delete i (badmintonQueue st) /\
     pl ∉ player <$> badmintonQueue r.1) /\
  r.1 = set_badmintonQueue (badmintonQueue r.1) (set_heap (heap r.1) st).
Proof.
  intros Hwf Hpl Hmem this r. subst r this.
  set (this := heap st !!! pl) in *.
  assert (isInMatch this = false /\ isInQueue this = true) as [HM HQ].
  { unfold membership in Hmem. destruct (isInMatch this), (isInQueue this); done. }
  destruct (removePlayer_queued pl st Hwf Hpl HQ) as (i & item & Hitem & Hpi & Hrem).
  fold this in Hrem. rewrite Hrem.
  cbn [fst snd heap badmintonQueue set_badmintonQueue set_heap].
  assert (Hnew : alter (set_isInQueue false) pl (heap st) !!! pl
                 = set_isInQueue false this).
  { by rewrite list_lookup_total_alter_eq. }
  rewrite Hnew.
  split_and!; try done.
  - apply list_eq. intros k. destruct (decide (k = pl)) as [->|Hne].
    + rewrite list_lookup_alter_eq, list_lookup_insert_eq by done.
      by rewrite heap_lookup.
    + by rewrite list_lookup_alter_ne, list_lookup_insert_ne.
  - unfold membership. cbn. by rewrite HM.
  - intros l Hne. by rewrite list_lookup_total_alter_ne.
  - exists i, item. split_and!; [done..|].
    pose proof (wf_queue_nodup st Hwf) as Hnd.
    rewrite (delete_Permutation _ _ _ Hitem), fmap_cons, Hpi in Hnd.
    by apply NoDup_cons in Hnd as [? _].
Qed.

(** C7: admitting a player that is idle and withdrawing it at once succeeds
    both times, leaves the player idle and the queue as long as it was. *)
Theorem admit_then_withdraw (now : Z) (pl : loc) (st : State) :
  wf st -> pl < length (heap st) -> membership (heap st !!! pl) = Idle ->
  let st1 := (addPlayer now pl st).1 in
  let r := removePlayer (p_id (heap st1 !!! pl)) st1 in
  (exists rank, (addPlayer now pl st).2 = Success rank) /\
  membership (heap st1 !!! pl) = Queued /\
  length (badmintonQueue st1) = S (length (badmintonQueue st)) /\
  r.2 = Success pl /\
  membership (heap r.1 !!! pl) = Idle /\
  length (badmintonQueue r.1) = length (badmintonQueue st).
Proof.
  intros Hwf Hpl Hmem st1 r.
  pose proof (wf_addPlayer now pl st Hwf Hpl) as Hwf1. fold st1 in Hwf1.
  apply membership_Idle in Hmem.
  destruct (addPlayer_Idle now pl st Hmem) as [rank Hadd].
  apply orb_false_elim in Hmem as [HQ HM].
  assert (Hst1 : st1 = (addPlayer now pl st).1) by done.
  rewrite Hadd in Hst1 |- *. cbn [fst snd] in Hst1 |- *.
  assert (Hlen1 : length (heap st1) = length (heap st)).
  { rewrite Hst1. cbn. by rewrite length_alter. }
  assert (Hpl1 : heap st1 !!! pl
                 = calculateQueueWeight now (set_isInQueue true (heap st !!! pl))).
  { rewrite Hst1. cbn [heap set_badmintonQueue set_heap].
    by rewrite list_lookup_total_alter_eq. }
  assert (Hq1 : length (badmintonQueue st1) = S (length (badmintonQueue st))).
  { rewrite Hst1. cbn [badmintonQueue set_badmintonQueue].
    rewrite sort_length, length_app. cbn. lia. }
  destruct (removePlayer_queued pl st1 Hwf1) as (i & item & Hitem & Hpi & Hrem);
    [lia|by rewrite Hpl1|].
  subst r. rewrite Hrem. cbn [fst snd heap badmintonQueue set_badmintonQueue set_heap].
  split_and!; [by eexists| |done|done| |].
  - rewrite Hpl1. unfold membership. cbn. by rewrite HM.
  - rewrite list_lookup_total_alter_eq by lia. rewrite Hpl1.
    unfold membership. cbn. by rewrite HM.
  - rewrite length_delete by (by eexists). lia.
Qed.

(** ** Match completion *)

Lemma alter_alter_all_comm {X} (g : X -> loc) (f f' : Player -> Player) h xs l :
  l ∉ g <$> xs ->
  alter f' l (alter_all g f h xs) = alter_all g f (alter f' l h) xs.
Proof.
  revert h. induction xs as [|x xs IH]; intros h Hl; [done|].
  rewrite fmap_cons, not_elem_of_cons in Hl. destruct Hl as [Hne Hl].
  rewrite !alter_all_cons, IH by done. f_equal.
  by apply list_alter_alter_ne.
Qed.

(** Two rounds of updates on disjoint sets of players commute. *)
Lemma alter_all_comm (f f' : Player -> Player) h (xs ys : list loc) :
  (forall l, l ∈ xs -> l ∉ ys) ->
  alter_all id f' (alter_all id f h xs) ys
  = alter_all id f (alter_all id f' h ys) xs.
Proof.
  revert h. induction ys as [|y ys IH]; intros h Hdisj; [done|].
  rewrite !alter_all_cons. cbn [id].
  rewrite alter_alter_all_comm.
  - apply IH. intros l Hl Hin. apply (Hdisj l Hl). by right.
  - rewrite list_fmap_id. intros Hin. apply (Hdisj y Hin). by left.
Qed.

Lemma avgRanking_mean h team :
  length team = 2 ->
  avgRanking h team = arithmetic_mean ((fun l => ranking (h !!! l)) <$> team).
Proof.
  intros Hlen. destruct team as [|a [|b [|]]]; try done.
Qed.

Lemma move_to_completed_heap matchId ml st :
  heap (move_to_completed matchId ml st) = heap st /\
  match_heap (move_to_completed matchId ml st) = match_heap st /\
  matches (move_to_completed matchId ml st) = matches st /\
  players (move_to_completed matchId ml st) = players st /\
  badmintonQueue (move_to_completed matchId ml st) = badmintonQueue st.
Proof. unfold move_to_completed. by destruct (_ =? _)%Z. Qed.

(** C3: when [complete_match] succeeds, each side has two players; the
    rating an opponent side is credited with is the arithmetic mean of its
    two ratings as they were before the request; every player of the roster is
    a winner or a loser and gets the Elo rating computed from its own previous
    rating and that mean, one more win or one more loss, one more match, the
    instant of the request as the time of its last match, and is idle again;
    and processing the losers before the winners gives the same state. *)
Theorem complete_match_settles (pow_approx : float -> float -> float) (now : Z)
    (matchId : option JS.string) (winnerIds : option (list JS.string))
    (st : State) (ml : loc) :
  wf st ->
  (complete_match pow_approx now matchId winnerIds st).2 = mkReply 200 (Success ml) ->
  let st' := (complete_match pow_approx now matchId winnerIds st).1 in
  exists m wids,
    winnerIds = Some wids /\ match_heap st !! ml = Some m /\
    let winners := winners_of st m wids in
    let losers := losers_of st m wids in
    let winnerAvg :=
      arithmetic_mean ((fun l => ranking (heap st !!! l)) <$> winners) in
    let loserAvg :=
      arithmetic_mean ((fun l => ranking (heap st !!! l)) <$> losers) in
    length winners = 2 /\ length losers = 2 /\
    (forall l, l ∈ m_players m ->
       let p := heap st !!! l in
       let p' := heap st' !!! l in
       (l ∈ winners /\
        ranking p' = elo_rating pow_approx (ranking p) loserAvg true /\
        wins p' = (wins p + 1)%Z /\ losses p' = losses p
        \/
        l ∈ losers /\
        ranking p' = elo_rating pow_approx (ranking p) winnerAvg false /\
        wins p' = wins p /\ losses p' = (losses p + 1)%Z) /\
       totalMatches p' = (totalMatches p + 1)%Z /\
       lastMatchTime p' = Some now /\
       membership p' = Idle) /\
    (forall l, l ∉ m_players m -> heap st' !!! l = heap st !!! l) /\
    completeMatch pow_approx now ml winners losers st
    = completeMatch_losers_first pow_approx now ml winners losers st.
Proof.
  intros Hwf Hok st'. subst st'.
  destruct (complete_match_cases pow_approx now matchId winnerIds st)
    as [[Hr _]|(mid & wids & -> & -> & _ & _ &
         [[Hr _]|(ml' & m & _ & Hm & Hact & [[Hr _]|(Hw & Hl & Hr)])])];
    rewrite Hr in Hok |- *; try discriminate.
  injection Hok as <-. cbn [fst].
  exists m, wids. split; [done|]. split; [done|]. cbn zeta.
  set (winners := winners_of st m wids) in *.
  set (losers := losers_of st m wids) in *.
  rewrite <- !avgRanking_mean by done.
  destruct (wf_roster st Hwf ml' m Hm Hact) as (Hlen & Hnd & Hmem).
  assert (Hdisj : forall l, l ∈ winners -> l ∉ losers).
  { intros l. subst winners losers. unfold winners_of, losers_of.
    rewrite !list_elem_of_filter. tauto. }
  assert (Hndw : NoDup winners) by (by apply NoDup_filter).
  assert (Hndl : NoDup losers) by (by apply NoDup_filter).
  destruct (move_to_completed_heap mid ml'
    (completeMatch pow_approx now ml' winners losers st)) as (-> & _).
  set (fw := settle pow_approx now true (avgRanking (heap st) losers)).
  set (fl := settle pow_approx now false (avgRanking (heap st) winners)).
  assert (Hh : heap (completeMatch pow_approx now ml' winners losers st)
               = alter_all id fl (alter_all id fw (heap st) winners) losers)
    by done.
  rewrite Hh.
  split; [done|]. split; [done|]. split_and!.
  - intros l Hlm. destruct (Hmem l Hlm) as (p & Hp & HpM).
    assert (HpQ : isInQueue p = false) by (by eapply (wf_exclusive st Hwf)).
    rewrite (list_lookup_total_correct _ _ _ Hp).
    destruct (decide (p_id (heap st !!! l) ∈ wids)) as [Hin|Hout].
    + assert (Hlw : l ∈ winners) by (by apply list_elem_of_filter).
      assert (Hnew : alter_all id fl (alter_all id fw (heap st) winners) losers !! l
                     = Some (fw p)).
      { rewrite alter_all_notin by (rewrite list_fmap_id; auto).
        rewrite alter_all_NoDup by (by rewrite list_fmap_id). by rewrite Hp. }
      rewrite (list_lookup_total_correct _ _ _ Hnew).
      split_and!; [left; split_and!; done|done|done|].
      unfold membership. cbn. by rewrite HpQ.
    + assert (Hll : l ∈ losers) by (by apply list_elem_of_filter).
      assert (Hnew : alter_all id fl (alter_all id fw (heap st) winners) losers !! l
                     = Some (fl p)).
      { rewrite alter_all_NoDup by (by rewrite list_fmap_id).
        rewrite alter_all_notin by (rewrite list_fmap_id; intros ?; by eapply Hdisj).
        by rewrite Hp. }
      rewrite (list_lookup_total_correct _ _ _ Hnew).
      split_and!; [right; split_and!; done|done|done|].
      unfold membership. cbn. by rewrite HpQ.
  - intros l Hl'. rewrite !list_lookup_total_alt.
    rewrite !alter_all_notin; rewrite ?list_fmap_id; [done|..].
    + intros Hin. apply Hl'. by eapply winners_of_subseteq.
    + intros Hin. apply Hl'. by eapply losers_of_subseteq.
  - unfold completeMatch, completeMatch_losers_first. f_equal.
    by apply alter_all_comm.
Qed.

(** ** Failures of match completion *)

Lemma filter_fmap_length {A B} (f : A -> B) (P : B -> Prop)
    (decP : forall y, Decision (P y)) (decPf : forall x, Decision (P (f x)))
    (l : list A) :
  length (@filter _ _ _ (fun x => P (f x)) decPf l)
  = length (@filter _ _ _ P decP (f <$> l)).
Proof.
  induction l as [|x l IH]; [done|].
  rewrite fmap_cons, !filter_cons.
  repeat case_decide; try done; cbn [length]; by rewrite IH.
Qed.

(** Among distinct ids, exactly two are named by a list of two ids just when
    the two are distinct and both among them. *)
Lemma count_named (ids wids : list JS.string) :
  NoDup ids -> length wids = 2 ->
  (length (filter (fun x => x ∈ wids) ids) = 2 <->
   NoDup wids /\ forall w, w ∈ wids -> w ∈ ids).
Proof.
  intros Hnd Hlen.
  assert (HndW : NoDup (filter (fun x => x ∈ wids) ids)) by (by apply NoDup_filter).
  split.
  - intros HW. destruct wids as [|a [|b [|]]]; try done.
    destruct (filter _ ids) as [|x [|y [|]]] eqn:HF; try done.
    assert (Hx : x ∈ filter (fun x => x ∈ [a; b]) ids) by (rewrite HF; left).
    assert (Hy : y ∈ filter (fun x => x ∈ [a; b]) ids) by (rewrite HF; right; left).
    apply list_elem_of_filter in Hx as [Hxw Hxi], Hy as [Hyw Hyi].
    apply NoDup_cons in HndW as [Hxy _].
    rewrite list_elem_of_singleton in Hxy.
    rewrite !elem_of_cons, elem_of_nil in Hxw, Hyw.
    assert (a <> b /\ a ∈ ids /\ b ∈ ids) as (Hab & Ha & Hb).
    { destruct Hxw as [->|[->|[]]], Hyw as [->|[->|[]]]; done. }
    split.
    + apply NoDup_cons. split; [by rewrite list_elem_of_singleton|].
      apply NoDup_singleton.
    + intros w. rewrite !elem_of_cons, elem_of_nil. by intros [->|[->|[]]].
  - intros [HndI Hsub]. rewrite <- Hlen. apply Permutation_length.
    apply NoDup_Permutation; [done..|].
    intros x. rewrite list_elem_of_filter. split; [tauto|auto].
Qed.

(** For a match that is active, the two length checks of [complete_match]
    pass exactly when the winner ids name half of the roster. *)
Lemma winners_losers_count st ml m wids :
  wf st -> match_heap st !! ml = Some m -> status m = active ->
  length wids = 2 ->
  (length (winners_of st m wids) = 2 /\ length (losers_of st m wids) = 2 <->
   names_half st m wids).
Proof.
  intros Hwf Hm Hact Hlen.
  destruct (wf_roster st Hwf ml m Hm Hact) as (Hl4 & Hnd & Hmem).
  assert (Hids : NoDup (roster_ids st m)).
  { apply NoDup_fmap_2_strong; [|done]. intros l1 l2 H1 H2 Heq.
    destruct (Hmem l1 H1) as (p1 & Hp1 & _), (Hmem l2 H2) as (p2 & Hp2 & _).
    eapply ids_inj; [apply Hwf|by eapply lookup_lt_Some..|done]. }
  assert (Hsum : length (winners_of st m wids) + length (losers_of st m wids) = 4).
  { rewrite <- Hl4, <- length_app. apply Permutation_length.
    apply (filter_app_complement (fun p => p_id (heap st !!! p) ∈ wids)). }
  assert (HW : length (winners_of st m wids)
               = length (filter (fun x => x ∈ wids) (roster_ids st m))).
  { unfold winners_of, roster_ids.
    apply (filter_fmap_length (fun l => p_id (heap st !!! l)) (fun x => x ∈ wids)). }
  unfold names_half. rewrite <- (count_named _ _ Hids Hlen), <- HW.
  split; [tauto|]. intros (_ & ?). lia.
Qed.

Lemma active_match_Some st mid ml :
  active_match st mid = Some ml <->
  JS.get mid (matches st) = Some ml /\ status (match_heap st !!! ml) = active.
Proof.
  unfold active_match. destruct (JS.get mid (matches st)) as [ml'|].
  - destruct (status (match_heap st !!! ml')) eqn:Hs.
    + split; [by intros [= <-]|by intros [[= <-] _]].
    + split; [done|]. intros [[= <-] ?]. congruence.
  - split; [done|by intros [? _]].
Qed.

Lemma active_match_None st mid :
  active_match st mid = None <->
  JS.get mid (matches st) = None \/
  exists ml, JS.get mid (matches st) = Some ml /\
             status (match_heap st !!! ml) = completed.
Proof.
  unfold active_match. destruct (JS.get mid (matches st)) as [ml'|].
  - destruct (status (match_heap st !!! ml')) eqn:Hs.
    + split; [done|]. intros [?|(ml & [= <-] & ?)]; congruence.
    + split; [|done]. intros _. right. eauto.
  - split; [by left|done].
Qed.

(** C4, as the claim has it, fails: with no match at all, a request that
    carries one winner id is answered with the 400 of [InvalidOutcome], not
    with [SessionNotFound]: the length of [winnerIds] is checked before the
    match is looked up. *)
Lemma complete_match_checks_winners_first :
  active_match initial (JS.str "any-id") = None /\
  complete_match unreached_pow 0 (Some (JS.str "any-id"))
    (Some [JS.str "only-one"]) initial
  = (initial, InvalidOutcome "Match ID and 2 winner IDs required") /\
  (InvalidOutcome "Match ID and 2 winner IDs required" : reply loc)
  <> SessionNotFound.
Proof. split; [reflexivity|]. split; [reflexivity|discriminate]. Qed.

(** C4, amended. A request without a match id or without exactly two winner
    ids is answered with [InvalidOutcome], whatever the match; a request with
    both is answered with [SessionNotFound] when no active match has the id,
    with [InvalidOutcome] when the match is active and the two ids do not
    name half of its roster, and with success otherwise. A request that is
    not answered with success leaves the state as it was, and a request that
    is answered with success is answered with [SessionNotFound] when it is
    made again, whenever that is. *)
Theorem complete_match_failures (pow_approx : float -> float -> float) (now : Z)
    (matchId : option JS.string) (winnerIds : option (list JS.string))
    (st : State) :
  wf st ->
  let r := complete_match pow_approx now matchId winnerIds st in
  (malformed matchId winnerIds ->
     r = (st, InvalidOutcome "Match ID and 2 winner IDs required")) /\
  (forall mid wids,
     matchId = Some mid -> winnerIds = Some wids -> mid <> [] -> length wids = 2 ->
     (active_match st mid = None -> r = (st, SessionNotFound)) /\
     (forall ml, active_match st mid = Some ml ->
        (~ names_half st (match_heap st !!! ml) wids ->
           r = (st, InvalidOutcome "Invalid winner selection")) /\
        (names_half st (match_heap st !!! ml) wids ->
           r.2 = mkReply 200 (Success ml)))) /\
  (code r.2 <> 200%Z -> r.1 = st) /\
  (code r.2 = 200%Z ->
     forall now',
       complete_match pow_approx now' matchId winnerIds r.1 = (r.1, SessionNotFound)).
Proof.
  intros Hwf r. subst r.
  destruct (complete_match_cases pow_approx now matchId winnerIds st)
    as [[Hr Hbad]|(mid & wids & -> & -> & Hmid & Hlen &
         [[Hr Hnone]|(ml & m & Hget & Hm & Hact &
            [[Hr Hcount]|(Hw & Hl & Hr)])])]; rewrite Hr; cbn [fst snd code].
  - split_and!; [done| |done|done].
    intros mid wids -> -> Hmid Hlen. destruct (Hbad mid wids); done.
  - split_and!; [intros Hbad; destruct (Hbad mid wids); done| |done|done].
    intros ? ? [= <-] [= <-] _ _. split; [done|].
    intros ml Hml. apply active_match_Some in Hml as [Hget Hst].
    destruct Hnone as [Hnone|(ml' & Hget' & Hst')]; congruence.
  - assert (Hmm : match_heap st !!! ml = m)
      by (by apply list_lookup_total_correct).
    assert (Hactive : active_match st mid = Some ml).
    { apply active_match_Some. by rewrite Hmm. }
    split_and!; [intros Hbad; destruct (Hbad mid wids); done| |done|done].
    intros ? ? [= <-] [= <-] _ _. split; [congruence|].
    intros ml' Hml'. rewrite Hactive in Hml'. injection Hml' as <-.
    rewrite Hmm. split; [done|].
    intros Hhalf. apply (winners_losers_count st ml m wids) in Hhalf; [|done..].
    lia.
  - assert (Hmm : match_heap st !!! ml = m)
      by (by apply list_lookup_total_correct).
    assert (Hactive : active_match st mid = Some ml).
    { apply active_match_Some. by rewrite Hmm. }
    split_and!; [intros Hbad; destruct (Hbad mid wids); done| |done|].
    + intros ? ? [= <-] [= <-] _ _. split; [congruence|].
      intros ml' Hml'. rewrite Hactive in Hml'. injection Hml' as <-.
      rewrite Hmm. split; [|done].
      intros Hnot. destruct Hnot.
      by apply (winners_losers_count st ml m wids).
    + intros _ now'.
      set (st1 := completeMatch pow_approx now ml _ _ st).
      set (st' := move_to_completed mid ml st1).
      destruct (move_to_completed_heap mid ml st1) as (_ & Hmh & Hms & _).
      fold st' in Hmh, Hms.
      assert (Hdone : status (match_heap st' !!! ml) = completed).
      { rewrite Hmh. subst st1. unfold completeMatch.
        cbn [match_heap set_heap set_match_heap].
        rewrite list_lookup_total_alter_eq; [done|]. by eapply lookup_lt_Some. }
      unfold complete_match.
      rewrite bool_decide_eq_false_2 by done.
      rewrite Hlen. cbn [Nat.eqb negb orb].
      rewrite Hms. change (matches st1) with (matches st).
      by rewrite Hget, Hdone.
Qed.

(** ** The registry *)

Lemma run_cons pow_approx r rs st :
  run pow_approx (r :: rs) st = run pow_approx rs (step pow_approx st r).
Proof. reflexivity. Qed.

Lemma run_wf pow_approx rs st :
  wf st -> fresh_run pow_approx st rs -> wf (run pow_approx rs st).
Proof.
  revert st. induction rs as [|r rs IH]; intros st Hwf Hfresh; [done|].
  destruct Hfresh as [Hr Hrs]. rewrite run_cons. apply IH; [|done].
  by apply wf_step.
Qed.

Lemma run_reachable pow_approx rs st :
  reachable pow_approx st -> fresh_run pow_approx st rs ->
  reachable pow_approx (run pow_approx rs st).
Proof.
  revert st. induction rs as [|r rs IH]; intros st Hreach Hfresh; [done|].
  destruct Hfresh as [Hr Hrs]. rewrite run_cons. apply IH; [|done].
  by apply reachable_step.
Qed.

Lemma find_None {A} (f : A -> bool) (l : list A) :
  JS.find f l = None <-> forall x, x ∈ l -> f x = false.
Proof.
  unfold JS.find. destruct (list_find _ l) as [[i y]|] eqn:Hfind; cbn.
  - apply list_find_Some in Hfind as (Hi & Hy & _). split; [done|].
    intros Hall. apply list_elem_of_lookup_2 in Hi.
    rewrite (Hall _ Hi) in Hy. destruct Hy.
  - apply list_find_None in Hfind. rewrite Forall_forall in Hfind.
    split; [|done]. intros _ x Hx. specialize (Hfind x Hx).
    by destruct (f x); [destruct Hfind|].
Qed.

Lemma find_app_l {A} (f : A -> bool) (l1 l2 : list A) x :
  JS.find f l1 = Some x -> JS.find f (l1 ++ l2) = Some x.
Proof.
  unfold JS.find. destruct (list_find _ l1) as [[i y]|] eqn:Hfind; [|done].
  intros [= <-]. by rewrite (list_find_app_l _ _ _ _ _ Hfind).
Qed.

Lemma find_ext {A} (f g : A -> bool) (l : list A) :
  (forall x, x ∈ l -> f x = g x) -> JS.find f l = JS.find g l.
Proof.
  intros Hext. induction l as [|x l IH]; [done|].
  unfold JS.find in *. cbn.
  rewrite (Hext x) by left.
  destruct (decide (Is_true (g x))); [done|].
  assert (Hl : forall x, x ∈ l -> f x = g x) by (intros; apply Hext; by right).
  specialize (IH Hl).
  destruct (list_find _ l) as [[i y]|], (list_find _ l) as [[j z]|];
    cbn in *; congruence.
Qed.

(** The only element that satisfies [f] is the one [find] returns. *)
Lemma find_unique {A} (f : A -> bool) (l : list A) x :
  x ∈ l -> f x = true -> (forall y, y ∈ l -> f y = true -> y = x) ->
  JS.find f l = Some x.
Proof.
  intros Hx Hfx Huniq. destruct (JS.find f l) as [y|] eqn:Hfind.
  - apply find_elem_of in Hfind as [Hy Hfy]. f_equal. auto.
  - rewrite find_None in Hfind. rewrite (Hfind x Hx) in Hfx. done.
Qed.

Lemma set_fresh {V} (k : JS.string) (v : V) (d : JS.dict V) :
  k ∉ d.*1 -> JS.set k v d = d ++ [(k, v)].
Proof.
  induction d as [|[k0 v0] d IH]; cbn; [done|].
  rewrite not_elem_of_cons. intros [Hne Hk].
  destruct (decide (k = k0)); [done|]. by rewrite IH.
Qed.

Lemma alter_all_total_field {X B} (g : X -> loc) (f : Player -> Player)
    (field : Player -> B) h xs l :
  (forall p, field (f p) = field p) ->
  field (alter_all g f h xs !!! l) = field (h !!! l).
Proof.
  intros Hf. rewrite !list_lookup_total_alt.
  destruct (alter_all g f h xs !! l) as [p'|] eqn:Hl.
  - apply (alter_all_field g f field) in Hl as (p & -> & Hp); done.
  - apply lookup_ge_None in Hl. rewrite alter_all_length in Hl.
    by rewrite (lookup_ge_None_2 h l).
Qed.

Lemma alter_total_field {B} (f : Player -> Player) (field : Player -> B)
    (h : list Player) (l l' : loc) :
  (forall p, field (f p) = field p) ->
  field (alter f l h !!! l') = field (h !!! l').
Proof. intros Hf. by apply (alter_all_total_field id f field h [l]). Qed.

(** A lookup by name finds the same player in a state whose registry has
    only grown at the end and whose registered players kept their names. *)
Lemma find_by_name_preserved name st st' pl extra :
  find_by_name name st = Some pl ->
  JS.values (players st') = JS.values (players st) ++ extra ->
  (forall l, l ∈ JS.values (players st) ->
     p_name (heap st' !!! l) = p_name (heap st !!! l)) ->
  find_by_name name st' = Some pl.
Proof.
  unfold find_by_name. intros Hfind -> Hnames.
  apply find_app_l. rewrite <- Hfind. apply find_ext.
  intros l Hl. by rewrite Hnames.
Qed.

Lemma addPlayer_names now pl st :
  players (addPlayer now pl st).1 = players st /\
  length (heap (addPlayer now pl st).1) = length (heap st) /\
  forall l, p_name (heap (addPlayer now pl st).1 !!! l) = p_name (heap st !!! l).
Proof.
  unfold addPlayer. destruct (_ || _); [done|].
  cbn [fst players heap set_badmintonQueue set_heap].
  split; [done|]. split; [by rewrite length_alter|].
  intros l. by apply (alter_total_field _ p_name).
Qed.

Lemma settle_p_name pow_approx now won opp p :
  p_name (settle pow_approx now won opp p) = p_name p.
Proof. unfold settle, updateRanking. by destruct won. Qed.

(** Serving a request does not change which player a name denotes. *)
Lemma step_find_by_name pow_approx name st r pl :
  wf st -> fresh_uuid st r ->
  find_by_name name st = Some pl ->
  find_by_name name (step pow_approx st r) = Some pl.
Proof.
  intros Hwf Hfresh Hfind.
  destruct r as [now uuid playerName|playerId|now uuid|now mid wids|now playerId];
    cbn [step].
  - unfold join. destruct playerName as [playerName|]; [|done].
    destruct (_ || _); [done|].
    destruct (find_by_name (JS.trim playerName) st) as [pl0|] eqn:Hfind0.
    + destruct (addPlayer now pl0 st) as [st' res] eqn:Hadd. cbn [fst].
      destruct (addPlayer_names now pl0 st) as (Hp & _ & Hn).
      rewrite Hadd in Hp, Hn. cbn [fst] in Hp, Hn.
      apply (find_by_name_preserved name st st' pl []); [done| |by intros].
      by rewrite Hp, app_nil_r.
    + set (st1 := set_players _ _).
      destruct (addPlayer now (length (heap st)) st1) as [st' res] eqn:Hadd.
      cbn [fst].
      destruct (addPlayer_names now (length (heap st)) st1) as (Hp & _ & Hn).
      rewrite Hadd in Hp, Hn. cbn [fst] in Hp, Hn.
      assert (Hkey : uuid ∉ (players st).*1).
      { intros ((k & l) & Hk & Hin)%list_elem_of_fmap. cbn in Hk. subst k.
        apply Hfresh. apply list_elem_of_fmap. exists (heap st !!! l).
        split; [symmetry; by apply Hwf|].
        apply list_elem_of_lookup_total_2. apply Hwf.
        apply list_elem_of_fmap. by exists (uuid, l). }
      apply (find_by_name_preserved name st st' pl [length (heap st)]); [done| |].
      * rewrite Hp. subst st1. cbn [players set_players set_heap].
        rewrite set_fresh by done. unfold JS.values. by rewrite fmap_app.
      * intros l Hl. rewrite Hn. subst st1. cbn [heap set_players set_heap].
        rewrite lookup_total_app_l; [done|]. by apply Hwf.
  - unfold leave, removePlayer. destruct (_ =? _)%Z; [done|]. cbn [fst].
    apply (find_by_name_preserved name st _ pl []); [done|by rewrite app_nil_r|].
    intros l _. cbn [heap set_badmintonQueue set_heap].
    by apply (alter_total_field _ p_name).
  - unfold create_match, createMatch. destruct (_ <? _); [done|]. cbn [fst].
    apply (find_by_name_preserved name st _ pl []); [done|by rewrite app_nil_r|].
    intros l _. cbn [heap]. by apply (alter_all_total_field _ _ p_name).
  - destruct (complete_match_cases pow_approx now mid wids st)
      as [[-> _]|(mid' & wids' & _ & _ & _ & _ &
           [[-> _]|(ml & m & _ & _ & _ & [[-> _]|(_ & _ & ->)])])];
      [done..|].
    cbn [fst].
    destruct (move_to_completed_heap mid' ml
      (completeMatch pow_approx now ml (winners_of st m wids')
         (losers_of st m wids') st)) as (Hh & _ & _ & Hp & _).
    apply (find_by_name_preserved name st _ pl []); [done|by rewrite Hp, app_nil_r|].
    intros l _. rewrite Hh. unfold completeMatch. cbn [heap set_heap].
    rewrite !(alter_all_total_field _ _ p_name); [done|..];
      intros; apply settle_p_name.
  - unfold rejoin. destruct (JS.get playerId (players st)) as [pl0|].
    2:{ destruct (inherited _ _); [|done].
        by destruct (inherited_isInQueue _ _). }
    destruct (isInMatch _); [done|].
    destruct (addPlayer now pl0 st) as [st' res] eqn:Hadd. cbn [fst].
    destruct (addPlayer_names now pl0 st) as (Hp & _ & Hn).
    rewrite Hadd in Hp, Hn. cbn [fst] in Hp, Hn.
    apply (find_by_name_preserved name st st' pl []); [done| |by intros].
    by rewrite Hp, app_nil_r.
Qed.

Lemma run_find_by_name pow_approx name rs st pl :
  wf st -> fresh_run pow_approx st rs ->
  find_by_name name st = Some pl ->
  find_by_name name (run pow_approx rs st) = Some pl.
Proof.
  revert st. induction rs as [|r rs IH]; intros st Hwf Hfresh Hfind; [done|].
  destruct Hfresh as [Hr Hrs]. rewrite run_cons.
  apply IH; [by apply wf_step|done|by apply step_find_by_name].
Qed.

Lemma trim_nil : JS.trim [] = [].
Proof. reflexivity. Qed.

(** What [trim] returns neither starts nor ends with white space. *)
Lemma trimStart_head s c s' :
  JS.trimStart s = c :: s' -> JS.is_white_space c = false.
Proof.
  induction s as [|d s IH]; cbn; [done|].
  destruct (JS.is_white_space d) eqn:Hd; [done|]. by intros [= <- _].
Qed.

Lemma trim_last s c : last (JS.trim s) = Some c -> JS.is_white_space c = false.
Proof.
  unfold JS.trim, JS.trimEnd. rewrite last_reverse.
  destruct (JS.trimStart (reverse (JS.trimStart s))) as [|d t] eqn:Ht; [done|].
  cbn. intros [= <-]. by eapply trimStart_head.
Qed.

Example trim_Bob : JS.trim (JS.str "  Bob ") = JS.str "Bob".
Proof. reflexivity. Qed.

(** What [join] does with a name that is not blank. *)
Lemma join_nonblank now uuid playerName st :
  JS.trim playerName <> [] ->
  join now uuid (Some playerName) st =
    match find_by_name (JS.trim playerName) st with
    | Some pl => ((addPlayer now pl st).1, join_200 (addPlayer now pl st).2 pl)
    | None =>
        let pl := length (heap st) in
        let st1 :=
          set_players (JS.set uuid pl (players st))
            (set_heap (heap st ++ [new_Player uuid (JS.trim playerName)]) st) in
        ((addPlayer now pl st1).1, join_200 (addPlayer now pl st1).2 pl)
    end.
Proof.
  intros Hname. unfold join.
  rewrite (bool_decide_eq_false_2 (JS.trim playerName = [])) by done.
  rewrite bool_decide_eq_false_2 by (by intros ->). cbn [orb].
  destruct (find_by_name _ st) as [pl|]; cbn zeta; by destruct (addPlayer _ _ _).
Qed.

(** C9: a join under a name that is not blank addresses the first registered
    player whose name is exactly the trimmed name, creating no player and
    leaving the registry as it is; only when there is none does it create a
    player, rated 1200 and with no match played, register it under the fresh
    uuid and admit it to the queue. Either way the player it addressed
    carries the trimmed name, and every later join under a name that trims to
    the same addresses that very player and creates none, whatever requests
    were served in between. *)
Theorem join_lookup_or_create (pow_approx : float -> float -> float) (now : Z)
    (uuid playerName : JS.string) (st : State) :
  wf st -> uuid ∉ p_id <$> heap st -> JS.trim playerName <> [] ->
  let name := JS.trim playerName in
  let r := join now uuid (Some playerName) st in
  exists pl res,
    r.2 = join_200 res pl /\
    (forall pl0, find_by_name name st = Some pl0 ->
       pl = pl0 /\ p_name (heap st !!! pl) = name /\
       r.1 = (addPlayer now pl st).1 /\ res = (addPlayer now pl st).2 /\
       length (heap r.1) = length (heap st) /\ players r.1 = players st) /\
    (find_by_name name st = None ->
       let st1 :=
         set_players (JS.set uuid pl (players st))
           (set_heap (heap st ++ [new_Player uuid name]) st) in
       pl = length (heap st) /\
       heap st1 !!! pl = new_Player uuid name /\
       ranking (new_Player uuid name) = 1200%float /\
       r.1 = (addPlayer now pl st1).1 /\ res = (addPlayer now pl st1).2 /\
       (exists rank, res = Success rank) /\
       length (heap r.1) = S (length (heap st)) /\
       ranking (heap r.1 !!! pl) = 1200%float /\
       JS.get uuid (players r.1) = Some pl) /\
    p_name (heap r.1 !!! pl) = name /\
    (forall rs now' uuid' playerName',
       fresh_run pow_approx r.1 rs -> JS.trim playerName' = name ->
       let st2 := run pow_approx rs r.1 in
       let r' := join now' uuid' (Some playerName') st2 in
       (exists res', r'.2 = join_200 res' pl) /\
       length (heap r'.1) = length (heap st2) /\
       players r'.1 = players st2).
Proof.
  intros Hwf Hfresh Hname name r.
  assert (Hwf' : wf r.1) by (by apply wf_join).
  assert (Hlater : forall pl, find_by_name name r.1 = Some pl ->
    forall rs now' uuid' playerName',
       fresh_run pow_approx r.1 rs -> JS.trim playerName' = name ->
       let st2 := run pow_approx rs r.1 in
       let r' := join now' uuid' (Some playerName') st2 in
       (exists res', r'.2 = join_200 res' pl) /\
       length (heap r'.1) = length (heap st2) /\
       players r'.1 = players st2).
  { intros pl Hfind rs now' uuid' playerName' Hrs Htrim st2 r'.
    assert (Hfind2 : find_by_name name st2 = Some pl)
      by (by apply run_find_by_name).
    subst r'. rewrite join_nonblank by (by rewrite Htrim).
    rewrite Htrim, Hfind2. cbn [fst snd].
    destruct (addPlayer_names now' pl st2) as (Hp & Hlen & _).
    split; [by eexists|done]. }
  assert (Hr : r = join now uuid (Some playerName) st) by done.
  rewrite join_nonblank in Hr by done. fold name in Hr. clearbody r.
  destruct (find_by_name name st) as [pl|] eqn:Hfind.
  - destruct (addPlayer_names now pl st) as (Hp & Hlen & Hn).
    pose proof Hfind as Hfind'.
    apply find_elem_of in Hfind' as [_ Hnm]. apply bool_decide_eq_true in Hnm.
    subst r. cbn [fst snd] in *.
    exists pl, (addPlayer now pl st).2. split; [done|]. split_and!.
    + intros ? [= <-]. done.
    + done.
    + by rewrite Hn.
    + apply Hlater.
      apply (find_by_name_preserved name st _ pl []); [done| |by intros].
      by rewrite Hp, app_nil_r.
  - cbn zeta in Hr.
    set (pl := length (heap st)) in *.
    set (st1 := set_players _ _) in *.
    destruct (addPlayer_names now pl st1) as (Hp & Hlen & Hn).
    subst r. cbn [fst snd] in *.
    assert (Hnew : heap st1 !!! pl = new_Player uuid name).
    { subst st1 pl. cbn [heap set_players set_heap].
      by rewrite list_lookup_total_middle. }
    assert (Hflags : isInQueue (heap st1 !!! pl) || isInMatch (heap st1 !!! pl) = false)
      by (by rewrite Hnew).
    destruct (addPlayer_Idle now pl st1 Hflags) as [rank Hadd].
    assert (Hget : JS.get uuid (players (addPlayer now pl st1).1) = Some pl).
    { rewrite Hp. subst st1. cbn [players set_players set_heap].
      rewrite get_set. by destruct (decide (uuid = uuid)). }
    assert (Hfind1 : find_by_name name (addPlayer now pl st1).1 = Some pl).
    { unfold find_by_name. apply find_unique.
      - by eapply get_values.
      - apply bool_decide_eq_true. by rewrite Hn, Hnew.
      - intros l Hl Hnm. apply bool_decide_eq_true in Hnm. rewrite Hn in Hnm.
        rewrite Hp in Hl. subst st1. cbn [players heap set_players set_heap] in *.
        apply values_set in Hl as [->|Hl]; [done|].
        unfold find_by_name in Hfind. rewrite find_None in Hfind.
        specialize (Hfind l Hl). apply bool_decide_eq_false in Hfind.
        destruct Hfind. rewrite <- Hnm.
        rewrite lookup_total_app_l; [done|]. by apply Hwf. }
    exists pl, (addPlayer now pl st1).2. split; [done|]. split_and!.
    + done.
    + intros _. cbn zeta. fold st1.
      split_and!; try done.
      * rewrite Hadd. by exists rank.
      * rewrite Hlen. subst st1. cbn. rewrite length_app. cbn. lia.
      * rewrite Hadd. cbn [fst heap set_badmintonQueue set_heap].
        rewrite (alter_total_field _ ranking) by done. by rewrite Hnew.
    + by rewrite Hn, Hnew.
    + by apply Hlater.
Qed.

(** ** Further invariants *)

Lemma alter_fmap_field {A B} (field : A -> B) (f : A -> A) (h : list A) l :
  (forall p, field (f p) = field p) -> field <$> alter f l h = field <$> h.
Proof.
  intros Hf. apply list_eq. intros i. rewrite !list_lookup_fmap.
  destruct (decide (i = l)) as [->|Hne].
  - rewrite list_lookup_alter_eq. destruct (h !! l); cbn; by rewrite ?Hf.
  - by rewrite list_lookup_alter_ne.
Qed.

Lemma alter_all_fmap_field {X B} (g : X -> loc) (field : Player -> B)
    (f : Player -> Player) (h : list Player) xs :
  (forall p, field (f p) = field p) ->
  field <$> alter_all g f h xs = field <$> h.
Proof.
  intros Hf. revert h. induction xs as [|x xs IH]; intros h; [done|].
  by rewrite alter_all_cons, IH, alter_fmap_field.
Qed.

Lemma alter_all_Forall {X} (g : X -> loc) (Q : Player -> Prop)
    (f : Player -> Player) (h : list Player) xs :
  (forall p, Q p -> Q (f p)) -> Forall Q h -> Forall Q (alter_all g f h xs).
Proof.
  intros Hf. revert h. induction xs as [|x xs IH]; intros h Hh; [done|].
  rewrite alter_all_cons. apply IH. apply Forall_alter; auto.
Qed.

Lemma elem_of_alter_inv (f : Player -> Player) (h : list Player) l p' :
  p' ∈ alter f l h -> exists p, p ∈ h /\ (p' = p \/ p' = f p).
Proof.
  intros (i & Hi)%list_elem_of_lookup.
  apply alter_lookup_inv in Hi as (p & Hp & [[_ ->]|[_ ->]]);
    exists p; split; eauto using list_elem_of_lookup_2.
Qed.

Lemma coherent_initial : coherent initial.
Proof.
  split; cbn; try (intros ? ? ?; by rewrite ?lookup_nil in * );
    try apply NoDup_nil_2; try (by intros ? ?%elem_of_nil).
  - apply wf_initial.
  - split; [apply NoDup_nil_2|]. intros ml. split; [by intros ?%elem_of_nil|].
    intros (m & Hm & _). by rewrite lookup_nil in Hm.
  - split; [apply NoDup_nil_2|]. intros ml. split; [by intros ?%elem_of_nil|].
    intros (m & Hm & _). by rewrite lookup_nil in Hm.
Qed.

Lemma coherent_addPlayer now pl st :
  coherent st -> pl < length (heap st) -> coherent (addPlayer now pl st).1.
Proof.
  intros Hco Hpl. pose proof (co_wf st Hco) as Hwf.
  pose proof (wf_addPlayer now pl st Hwf Hpl) as Hwf'.
  destruct (isInQueue (heap st !!! pl) || isInMatch (heap st !!! pl)) eqn:Hflags.
  { unfold addPlayer. by rewrite Hflags. }
  destruct (addPlayer_Idle now pl st Hflags) as [rank Hadd].
  rewrite Hadd in Hwf' |- *. cbn [fst] in *.
  apply orb_false_elim in Hflags as [HinQ HinM].
  set (f := fun p => calculateQueueWeight now (set_isInQueue true p)) in *.
  set (item := mkQueueItem pl now _) in *.
  assert (Hthis : heap st !! pl = Some (heap st !!! pl)) by (by apply heap_lookup).
  assert (Hnotin : pl ∉ player <$> badmintonQueue st).
  { intros Hin. apply (wf_queued st Hwf pl _ Hthis) in Hin. congruence. }
  split; cbn [heap badmintonQueue match_heap matches players activeMatches
    completedMatches set_badmintonQueue set_heap]; try apply Hco.
  - done.
  - intros l p' Hl.
    apply alter_lookup_inv in Hl as (p & Hp & [[_ ->]|[_ ->]]);
      exact (co_registered st Hco l p Hp).
  - rewrite alter_fmap_field by done. apply Hco.
  - intros p' (p & Hp & [->| ->])%elem_of_alter_inv;
      exact (co_trimmed st Hco p Hp).
  - intros p' (p & Hp & [->| ->])%elem_of_alter_inv;
      exact (co_stats st Hco p Hp).
  - intros e He. rewrite sort_Permutation in He.
    apply elem_of_app in He as [He|He%list_elem_of_singleton].
    + rewrite (co_weight st Hco e He).
      rewrite !list_lookup_total_alt, list_lookup_alter_ne; [done|].
      intros ->. apply Hnotin. apply list_elem_of_fmap. eauto.
    + subst e. cbn [weight item player].
      rewrite !list_lookup_total_alt, list_lookup_alter_eq, Hthis.
      reflexivity.
  - intros l p' Hl HM.
    apply alter_lookup_inv in Hl as (p & Hp & [[_ ->]|[_ ->]]);
      exact (co_in_match st Hco l p Hp HM).
Qed.


Lemma coherent_removePlayer playerId st :
  coherent st -> coherent (removePlayer playerId st).1.
Proof.
  intros Hco. pose proof (co_wf st Hco) as Hwf.
  pose proof (wf_removePlayer playerId st Hwf) as Hwf'.
  destruct (removePlayer_inv playerId st)
    as [[-> _]|(i & item & Hitem & _ & _ & Hrem)]; [done|].
  rewrite Hrem in Hwf' |- *. cbn [fst] in *.
  split; cbn [heap badmintonQueue match_heap matches players activeMatches
    completedMatches set_badmintonQueue set_heap]; try apply Hco.
  - done.
  - intros l p' Hl.
    apply alter_lookup_inv in Hl as (p & Hp & [[_ ->]|[_ ->]]);
      exact (co_registered st Hco l p Hp).
  - rewrite alter_fmap_field by done. apply Hco.
  - intros p' (p & Hp & [->| ->])%elem_of_alter_inv;
      exact (co_trimmed st Hco p Hp).
  - intros p' (p & Hp & [->| ->])%elem_of_alter_inv;
      exact (co_stats st Hco p Hp).
  - intros e He.
    assert (He' : e ∈ badmintonQueue st).
    { rewrite (delete_Permutation _ _ _ Hitem). by right. }
    rewrite (co_weight st Hco e He'). symmetry.
    by apply (alter_total_field (set_isInQueue false) queueWeight).
  - intros l p' Hl HM.
    apply alter_lookup_inv in Hl as (p & Hp & [[_ ->]|[_ ->]]);
      exact (co_in_match st Hco l p Hp HM).
Qed.

(** [trim] strips all there is to strip. *)
Lemma trimStart_suffix s : exists w, s = w ++ JS.trimStart s.
Proof.
  induction s as [|c s [w IH]]; [by exists []|]. cbn.
  destruct (JS.is_white_space c); [|by exists []].
  exists (c :: w). cbn. by rewrite <- IH.
Qed.

Lemma trimStart_id s :
  match s with c :: _ => JS.is_white_space c = false | [] => True end ->
  JS.trimStart s = s.
Proof. destruct s as [|c s]; [done|]. cbn. by intros ->. Qed.

Lemma trimStart_idemp s : JS.trimStart (JS.trimStart s) = JS.trimStart s.
Proof.
  apply trimStart_id. destruct (JS.trimStart s) as [|c s'] eqn:Hs; [done|].
  by eapply trimStart_head.
Qed.

Lemma trim_idemp s : JS.trim (JS.trim s) = JS.trim s.
Proof.
  unfold JS.trim. set (t := JS.trimStart s).
  assert (Hu : JS.trimStart (JS.trimEnd t) = JS.trimEnd t).
  { apply trimStart_id. destruct (JS.trimEnd t) as [|c u] eqn:Hu; [done|].
    destruct (trimStart_suffix (reverse t)) as [w Hw].
    apply (f_equal reverse) in Hw. rewrite reverse_involutive, reverse_app in Hw.
    fold (JS.trimEnd t) in Hw. rewrite Hu in Hw. cbn in Hw.
    eapply (trimStart_head s). fold t. exact Hw. }
  rewrite Hu. unfold JS.trimEnd at 1. unfold JS.trimEnd at 1.
  by rewrite reverse_involutive, trimStart_idemp.
Qed.

Lemma trimStart_nil s :
  JS.trimStart s = [] <-> Forall (fun c => JS.is_white_space c = true) s.
Proof.
  induction s as [|c s IH]; cbn; [by split; [constructor|]|].
  destruct (JS.is_white_space c) eqn:Hc.
  - rewrite IH. split; [by constructor|]. by intros [_ ?]%Forall_cons.
  - split; [done|]. intros [? _]%Forall_cons. congruence.
Qed.

Lemma trim_nil_iff s :
  JS.trim s = [] <-> Forall (fun c => JS.is_white_space c = true) s.
Proof.
  rewrite <- trimStart_nil. unfold JS.trim, JS.trimEnd.
  split.
  - intros H. apply (f_equal reverse) in H. rewrite reverse_involutive in H.
    cbn in H. apply trimStart_nil in H. apply Forall_reverse in H.
    rewrite reverse_involutive in H.
    destruct (JS.trimStart s) as [|c t] eqn:Ht; [done|].
    apply trimStart_head in Ht. apply Forall_cons in H as [? _]. congruence.
  - by intros ->.
Qed.

Lemma get_elem_of {V} (k : JS.string) (v : V) (d : JS.dict V) :
  JS.get k d = Some v -> (k, v) ∈ d.
Proof.
  induction d as [|[k' v'] d IH]; cbn; [done|].
  destruct (decide (k = k')) as [->|Hne].
  - intros [= ->]. by left.
  - intros H. right. auto.
Qed.

(** The names in use are those [find_by_name] finds. *)
Lemma find_by_name_None name st :
  coherent st -> find_by_name name st = None -> name ∉ p_name <$> heap st.
Proof.
  intros Hco Hfind (p & -> & (l & Hl)%list_elem_of_lookup)%list_elem_of_fmap.
  unfold find_by_name in Hfind. rewrite find_None in Hfind.
  specialize (Hfind l).
  rewrite (list_lookup_total_correct _ _ _ Hl) in Hfind.
  rewrite bool_decide_eq_false in Hfind. apply Hfind; [|done].
  eapply get_values. by apply (co_registered st Hco).
Qed.

Lemma coherent_register uuid name st :
  coherent st -> uuid ∉ p_id <$> heap st ->
  name <> [] -> JS.trim name = name -> name ∉ p_name <$> heap st ->
  coherent (set_players (JS.set uuid (length (heap st)) (players st))
              (set_heap (heap st ++ [new_Player uuid name]) st)).
Proof.
  intros Hco Hfresh Hne Htrim Hname. pose proof (co_wf st Hco) as Hwf.
  assert (Hold : forall l p, (heap st ++ [new_Player uuid name]) !! l = Some p ->
            heap st !! l = Some p \/
            l = length (heap st) /\ p = new_Player uuid name).
  { intros l p [Hl|[Hge Hl]]%lookup_app_Some; [by left|right].
    destruct (l - length (heap st)) as [|k] eqn:Hk; cbn in Hl; [|done].
    injection Hl as <-. split; [lia|done]. }
  assert (Hin : forall p, p ∈ heap st ++ [new_Player uuid name] ->
            p ∈ heap st \/ p = new_Player uuid name).
  { intros p [?|?%list_elem_of_singleton]%elem_of_app; auto. }
  split; cbn [heap badmintonQueue match_heap matches players activeMatches
    completedMatches set_players set_heap]; try apply Hco.
  - by apply wf_register.
  - intros l p [Hl|[-> ->]]%Hold; rewrite get_set.
    + destruct (decide (p_id p = uuid)) as [Heq|_].
      * destruct Hfresh. rewrite <- Heq. apply list_elem_of_fmap.
        eauto using list_elem_of_lookup_2.
      * by apply (co_registered st Hco).
    + cbn. by rewrite decide_True.
  - rewrite fmap_app. apply NoDup_app. split_and!; [apply Hco| |].
    + intros x Hx ?%list_elem_of_singleton. by subst.
    + apply NoDup_singleton.
  - intros p [Hp| ->]%Hin; [by apply (co_trimmed st Hco)|done].
  - intros p [Hp| ->]%Hin; [by apply (co_stats st Hco)|]. cbn. split_and!; done.
  - intros e He. rewrite (co_weight st Hco e He).
    rewrite lookup_total_app_l; [done|]. by apply (wf_queue_valid st Hwf).
  - intros l p [Hl|[-> ->]]%Hold HM; [|done].
    exact (co_in_match st Hco l p Hl HM).
Qed.

Lemma coherent_join now uuid playerName st :
  coherent st -> uuid ∉ p_id <$> heap st ->
  coherent (join now uuid playerName st).1.
Proof.
  intros Hco Hfresh. pose proof (co_wf st Hco) as Hwf. unfold join.
  destruct playerName as [playerName|]; [|done].
  destruct (_ || _) eqn:Hblank; [done|].
  apply orb_false_elim in Hblank as [_ Hblank%bool_decide_eq_false].
  destruct (find_by_name _ st) as [pl|] eqn:Hfind.
  - destruct (addPlayer now pl st) as [st' r] eqn:Hadd. cbn [fst].
    change st' with (st', r).1. rewrite <- Hadd. apply coherent_addPlayer; [done|].
    apply find_elem_of in Hfind as [Hin _]. by apply Hwf.
  - destruct (addPlayer now _ _) as [st' r] eqn:Hadd. cbn [fst].
    change st' with (st', r).1. rewrite <- Hadd.
    apply coherent_addPlayer.
    + apply coherent_register; auto using trim_idemp, find_by_name_None.
    + cbn. rewrite length_app. cbn. lia.
Qed.

Lemma coherent_set_flagged f st : coherent st -> coherent (set_flagged f st).
Proof. intros []. constructor; cbn; try done. by apply wf_set_flagged. Qed.

Lemma coherent_rejoin now playerId st :
  coherent st -> coherent (rejoin now playerId st).1.
Proof.
  intros Hco. pose proof (co_wf st Hco) as Hwf. unfold rejoin.
  destruct (JS.get playerId (players st)) as [pl|] eqn:Hget.
  2:{ destruct (inherited _ _); [|done].
      destruct (inherited_isInQueue _ _); [done|]. by apply coherent_set_flagged. }
  destruct (isInMatch _); [done|].
  destruct (addPlayer now pl st) as [st' r] eqn:Hadd. cbn [fst].
  change st' with (st', r).1. rewrite <- Hadd. apply coherent_addPlayer; [done|].
  apply Hwf. by eapply get_values.
Qed.


Lemma lookup_snoc_Some {A} (l : list A) (x y : A) i :
  (l ++ [x]) !! i = Some y <->
  l !! i = Some y \/ i = length l /\ y = x.
Proof.
  rewrite lookup_app_Some. split; (intros [H|[H1 H2]]; [by left|right]).
  - destruct (i - length l) as [|k] eqn:Hk; cbn in H2; [|done].
    injection H2 as <-. split; [lia|done].
  - subst. split; [lia|]. by rewrite Nat.sub_diag.
Qed.

Lemma coherent_createMatch now uuid st :
  coherent st -> uuid ∉ m_id <$> match_heap st ->
  coherent (createMatch now uuid st).1.
Proof.
  intros Hco Hfresh. pose proof (co_wf st Hco) as Hwf.
  pose proof (wf_createMatch now uuid st Hwf) as Hwf'.
  destruct (decide (length (badmintonQueue st) < 4)) as [Hlt|Hge].
  { by rewrite createMatch_failure. }
  rewrite createMatch_success in Hwf' |- * by lia. cbn [fst] in *.
  set (f := fun p => set_isInMatch true (set_isInQueue false p)) in *.
  set (taken := take 4 (badmintonQueue st)) in *.
  set (rest := drop 4 (badmintonQueue st)) in *.
  set (h := alter_all player f (heap st) taken) in *.
  set (new := mkMatch uuid (player <$> taken) now None None None active) in *.
  assert (Hq : badmintonQueue st = taken ++ rest)
    by (symmetry; apply take_drop).
  pose proof (wf_queue_nodup st Hwf) as Hnd.
  rewrite Hq, fmap_app in Hnd. apply NoDup_app in Hnd as (Hnd1 & Hdisj & Hnd2).
  destruct (co_active st Hco) as [Hand Hact].
  destruct (co_completed st Hco) as [Hcnd Hcomp].
  split; cbn [heap badmintonQueue match_heap matches players activeMatches
    completedMatches]; try apply Hco.
  - done.
  - intros l p' Hl.
    apply (alter_all_field player f p_id) in Hl as (p & Hp & ->); [|done].
    exact (co_registered st Hco l p Hp).
  - subst h. rewrite alter_all_fmap_field by done. apply Hco.
  - apply Forall_forall. apply alter_all_Forall; [done|].
    apply Forall_forall, Hco.
  - apply Forall_forall. apply alter_all_Forall; [done|].
    apply Forall_forall, Hco.
  - intros e He.
    assert (He' : e ∈ badmintonQueue st) by (rewrite Hq, elem_of_app; auto).
    rewrite (co_weight st Hco e He'). symmetry.
    by apply (alter_all_total_field player f queueWeight).
  - intros l p' Hl HM.
    destruct (decide (l ∈ player <$> taken)) as [Ht|Ht].
    + exists (length (match_heap st)), new. split_and!; [|done..].
      apply lookup_snoc_Some. by right.
    + subst h. rewrite alter_all_notin in Hl by done.
      destruct (co_in_match st Hco l p' Hl HM) as (ml & m & Hm & Ha & Hin).
      exists ml, m. split_and!; [|done..]. by apply lookup_app_l_Some.
  - rewrite fmap_app. apply NoDup_app. split_and!; [apply Hco| |].
    + intros x Hx ?%list_elem_of_singleton. by subst.
    + apply NoDup_singleton.
  - intros ml m [Hm|[-> ->]]%lookup_snoc_Some; rewrite get_set.
    + destruct (decide (m_id m = uuid)) as [Heq|_].
      * destruct Hfresh. rewrite <- Heq. apply list_elem_of_fmap.
        eauto using list_elem_of_lookup_2.
      * by apply (co_match_indexed st Hco).
    + cbn. by rewrite decide_True.
  - intros k ml. rewrite get_set.
    destruct (decide (k = uuid)) as [->|Hne].
    + intros [= <-]. by rewrite list_lookup_total_middle.
    + intros Hget. rewrite lookup_total_app_l by (by eapply (wf_matches st Hwf)).
      by apply (co_match_keys st Hco).
  - split.
    + apply NoDup_app. split_and!; [done| |apply NoDup_singleton].
      intros ml (m & Hm & _)%Hact ->%list_elem_of_singleton.
      apply lookup_lt_Some in Hm. lia.
    + intros ml. rewrite elem_of_app, list_elem_of_singleton, Hact.
      split.
      * intros [(m & Hm & Ha)| ->].
        -- exists m. split; [by apply lookup_app_l_Some|done].
        -- exists new. split; [|done]. apply lookup_snoc_Some. by right.
      * intros (m & [Hm|[-> ->]]%lookup_snoc_Some & Ha); eauto.
  - split; [done|]. intros ml. rewrite Hcomp. split.
    + intros (m & Hm & Hc). exists m. split; [by apply lookup_app_l_Some|done].
    + intros (m & [Hm|[-> ->]]%lookup_snoc_Some & Hc); [eauto|done].
  - intros ml m [Hm|[-> ->]]%lookup_snoc_Some.
    + by apply (co_result st Hco ml).
    + cbn. split_and!; [|done..].
      rewrite length_fmap. subst taken. rewrite length_take. lia.
Qed.


Lemma list_alter_lookup_inv {A} (f : A -> A) (xs : list A) i j y :
  alter f i xs !! j = Some y ->
  exists x, xs !! j = Some x /\ (j = i /\ y = f x \/ j <> i /\ y = x).
Proof.
  destruct (decide (i = j)) as [->|Hne].
  - rewrite list_lookup_alter_eq. destruct (xs !! j) as [x|]; [|done].
    intros [= <-]. eauto.
  - rewrite list_lookup_alter_ne by done. eauto.
Qed.

Lemma match_ids_inj (mh : list BadmintonMatch) ml1 ml2 m1 m2 :
  NoDup (m_id <$> mh) -> mh !! ml1 = Some m1 -> mh !! ml2 = Some m2 ->
  m_id m1 = m_id m2 -> ml1 = ml2.
Proof.
  intros Hnd H1 H2 Heq.
  apply (proj1 (NoDup_alt _) Hnd ml1 ml2 (m_id m1));
    rewrite list_lookup_fmap; [by rewrite H1|by rewrite H2, Heq].
Qed.

(** In a coherent state the completed match is found among the active ones,
    and moved. *)
Lemma move_to_completed_found pow_approx now mid ml m winners losers st :
  coherent st -> JS.get mid (matches st) = Some ml ->
  match_heap st !! ml = Some m -> status m = active ->
  exists i,
    activeMatches st !! i = Some ml /\
    move_to_completed mid ml (completeMatch pow_approx now ml winners losers st)
    = mkState
        (alter_all id (settle pow_approx now false (avgRanking (heap st) winners))
           (alter_all id (settle pow_approx now true (avgRanking (heap st) losers))
              (heap st) winners) losers)
        (alter (completed_from now winners losers) ml (match_heap st))
        (players st) (matches st) (delete i (activeMatches st))
        (completedMatches st ++ [ml]) (badmintonQueue st) (flagged st).
Proof.
  intros Hco Hget Hm Hact. pose proof (co_wf st Hco) as Hwf.
  destruct (co_active st Hco) as [Hand Hactive].
  assert (Hmid : m_id m = mid).
  { rewrite <- (co_match_keys st Hco mid ml Hget).
    by rewrite (list_lookup_total_correct _ _ _ Hm). }
  unfold move_to_completed.
  set (st1 := completeMatch pow_approx now ml winners losers st).
  set (f := fun m' => bool_decide (m_id (match_heap st1 !!! m') = mid)).
  assert (Hf : forall x mx, match_heap st !! x = Some mx ->
            f x = bool_decide (m_id mx = mid)).
  { intros x mx Hx. unfold f. f_equal. subst st1. unfold completeMatch.
    cbn [match_heap set_heap set_match_heap].
    rewrite list_lookup_total_alt.
    destruct (decide (x = ml)) as [->|Hne].
    - rewrite list_lookup_alter_eq, Hx. done.
    - rewrite list_lookup_alter_ne, Hx by done. done. }
  destruct (findIndex_cases f (activeMatches st1)) as [Hnone|(i & Hi & Hlt)].
  { rewrite findIndex_None in Hnone.
    assert (Hin : ml ∈ activeMatches st) by (apply Hactive; eauto).
    specialize (Hnone ml Hin). rewrite (Hf ml m Hm) in Hnone.
    by apply bool_decide_eq_false in Hnone. }
  rewrite Hi. destruct (Z.of_nat i =? -1)%Z eqn:Hneg; [lia|].
  rewrite Nat2Z.id. exists i.
  apply findIndex_Some in Hi as (x & Hx & Hfx & _).
  change (activeMatches st1) with (activeMatches st) in Hx.
  assert (x = ml) as ->.
  { assert (Hxa : x ∈ activeMatches st) by eauto using list_elem_of_lookup_2.
    apply Hactive in Hxa as (mx & Hmx & _).
    rewrite (Hf x mx Hmx) in Hfx. apply bool_decide_eq_true in Hfx.
    eapply match_ids_inj; [apply Hco|done..|congruence]. }
  split; [done|]. reflexivity.
Qed.

Lemma settle_books pow_approx now won opp p :
  ((totalMatches p = wins p + losses p)%Z /\ (0 <= wins p)%Z /\
   (0 <= losses p)%Z /\ (lastMatchTime p = None <-> totalMatches p = 0%Z)) ->
  let p' := settle pow_approx now won opp p in
  (totalMatches p' = wins p' + losses p')%Z /\ (0 <= wins p')%Z /\
  (0 <= losses p')%Z /\ (lastMatchTime p' = None <-> totalMatches p' = 0%Z).
Proof.
  intros (Ht & Hw & Hl & _). unfold settle, updateRanking.
  destruct won; cbn [totalMatches wins losses lastMatchTime set_isInMatch
    set_lastMatchTime set_totalMatches set_wins set_losses set_ranking];
    (split_and!; [lia..|split; [done|lia]]).
Qed.

Lemma coherent_complete_match pow_approx now matchId winnerIds st :
  coherent st -> coherent (complete_match pow_approx now matchId winnerIds st).1.
Proof.
  intros Hco. pose proof (co_wf st Hco) as Hwf.
  pose proof (wf_complete_match pow_approx now matchId winnerIds st Hwf) as Hwf'.
  destruct (complete_match_cases pow_approx now matchId winnerIds st)
    as [[-> _]|(mid & wids & _ & _ & _ & _ &
         [[-> _]|(ml & m & Hget & Hm & Hact & [[-> _]|(Hw2 & Hl2 & Hr)])])];
    [done..|].
  rewrite Hr in Hwf' |- *. cbn [fst] in *.
  set (winners := winners_of st m wids) in *.
  set (losers := losers_of st m wids) in *.
  destruct (move_to_completed_found pow_approx now mid ml m winners losers st
              Hco Hget Hm Hact) as (i & Hi & Hmove).
  rewrite Hmove in Hwf' |- *. clear Hmove Hr.
  set (fw := settle pow_approx now true _) in *.
  set (fl := settle pow_approx now false _) in *.
  set (h := alter_all id fl (alter_all id fw (heap st) winners) losers) in *.
  set (g := completed_from now winners losers) in *.
  destruct (co_active st Hco) as [Hand Hactive].
  destruct (co_completed st Hco) as [Hcnd Hcomp].
  destruct (co_result st Hco ml m Hm) as (Hlen & Hnd & _).
  assert (Hndw : NoDup winners) by (by apply NoDup_filter).
  assert (Hndl : NoDup losers) by (by apply NoDup_filter).
  assert (Hroster : forall l, l ∈ m_players m -> l ∈ winners \/ l ∈ losers).
  { intros l Hl. subst winners losers. unfold winners_of, losers_of.
    rewrite !list_elem_of_filter.
    destruct (decide (p_id (heap st !!! l) ∈ wids)); auto. }
  assert (Hsettled : forall l p', (l ∈ winners \/ l ∈ losers) ->
            h !! l = Some p' -> isInMatch p' = false).
  { intros l p' Hin Hl. subst h.
    destruct (decide (l ∈ losers)) as [Hlo|Hlo].
    - rewrite (alter_all_NoDup id fl) in Hl by (by rewrite list_fmap_id).
      destruct (alter_all _ _ _ _ !! l); [|done]. by injection Hl as <-.
    - destruct Hin as [Hwi|?]; [|done].
      rewrite alter_all_notin in Hl by (by rewrite list_fmap_id).
      rewrite (alter_all_NoDup id fw) in Hl by (by rewrite list_fmap_id).
      destruct (heap st !! l); [|done]. by injection Hl as <-. }
  assert (Hperm : activeMatches st ≡ₚ ml :: delete i (activeMatches st))
    by (by apply delete_Permutation).
  assert (Hnotin : ml ∉ delete i (activeMatches st)).
  { rewrite Hperm in Hand. by apply NoDup_cons in Hand as [? _]. }
  split; cbn [heap badmintonQueue match_heap matches players activeMatches
    completedMatches]; try apply Hco.
  - done.
  - intros l p' Hl.
    apply (alter_all_field id fl p_id) in Hl as (q & Hq & ->);
      [|apply settle_p_id].
    apply (alter_all_field id fw p_id) in Hq as (p & Hp & ->);
      [|apply settle_p_id].
    exact (co_registered st Hco l p Hp).
  - subst h. rewrite !alter_all_fmap_field by (intros; apply settle_p_name).
    apply Hco.
  - apply Forall_forall. do 2 (apply alter_all_Forall; [done|]).
    apply Forall_forall, Hco.
  - apply Forall_forall.
    do 2 (apply alter_all_Forall; [intros p; apply settle_books|]).
    apply Forall_forall, Hco.
  - intros e He. rewrite (co_weight st Hco e He). symmetry. subst h.
    rewrite (alter_all_total_field id fl queueWeight) by done.
    by rewrite (alter_all_total_field id fw queueWeight).
  - intros l p' Hl HM.
    destruct (decide (l ∈ winners)) as [Hwi|Hwi].
    { rewrite (Hsettled l p') in HM by auto. done. }
    destruct (decide (l ∈ losers)) as [Hlo|Hlo].
    { rewrite (Hsettled l p') in HM by auto. done. }
    subst h. rewrite !alter_all_notin in Hl by (by rewrite list_fmap_id).
    destruct (co_in_match st Hco l p' Hl HM) as (ml' & m' & Hm' & Ha' & Hin).
    exists ml', m'. split_and!; [|done..].
    rewrite list_lookup_alter_ne; [done|]. intros ->.
    assert (m' = m) as -> by congruence.
    destruct (Hroster l Hin); done.
  - rewrite alter_fmap_field by done. apply Hco.
  - intros ml' m' (m0 & Hm0 & [[-> ->]|[_ ->]])%list_alter_lookup_inv;
      exact (co_match_indexed st Hco _ m0 Hm0).
  - intros k ml' Hk. rewrite list_lookup_total_alt.
    pose proof (co_match_keys st Hco k ml' Hk) as Hkey.
    rewrite list_lookup_total_alt in Hkey.
    destruct (decide (ml' = ml)) as [->|Hne].
    + rewrite list_lookup_alter_eq. by destruct (match_heap st !! ml).
    + by rewrite list_lookup_alter_ne.
  - split.
    + rewrite Hperm in Hand. by apply NoDup_cons in Hand as [_ ?].
    + intros ml'. split.
      * intros Hin.
        assert (Hin' : ml' ∈ activeMatches st) by (rewrite Hperm; by right).
        apply Hactive in Hin' as (m' & Hm' & Ha'). exists m'. split; [|done].
        rewrite list_lookup_alter_ne; [done|]. by intros ->.
      * intros (m' & (m0 & Hm0 & [[-> ->]|[Hne ->]])%list_alter_lookup_inv & Ha');
          [done|].
        assert (Hin' : ml' ∈ activeMatches st) by (apply Hactive; eauto).
        rewrite Hperm in Hin'. by apply elem_of_cons in Hin' as [?|?].
  - split.
    + apply NoDup_app. split_and!; [done| |apply NoDup_singleton].
      intros ml' (m' & Hm' & Hc')%Hcomp ->%list_elem_of_singleton.
      congruence.
    + intros ml'. rewrite elem_of_app, list_elem_of_singleton, Hcomp. split.
      * intros [(m' & Hm' & Hc')| ->].
        -- exists m'. split; [|done]. rewrite list_lookup_alter_ne; [done|].
           intros ->. congruence.
        -- exists (g m). split; [|done]. by rewrite list_lookup_alter_eq, Hm.
      * intros (m' & (m0 & Hm0 & [[-> ->]|[Hne ->]])%list_alter_lookup_inv & Hc');
          eauto.
  - intros ml' m' (m0 & Hm0 & [[-> ->]|[Hne ->]])%list_alter_lookup_inv;
      [|by apply (co_result st Hco ml')].
    assert (m0 = m) as -> by congruence.
    cbn. split_and!; [done..|].
    exists now, winners, losers. split_and!; [done..|].
    subst winners losers. unfold winners_of, losers_of.
    apply filter_app_complement.
Qed.

Lemma coherent_step pow_approx st r :
  coherent st -> fresh_uuid st r -> fresh_match_uuid st r ->
  coherent (step pow_approx st r).
Proof.
  intros Hco Hfresh Hfresh'.
  destruct r as [now uuid name|playerId|now uuid|now mid wids|now playerId];
    cbn [step].
  - by apply coherent_join.
  - unfold leave. destruct (removePlayer playerId st) as [st' r] eqn:Hrem.
    change st' with (st', r).1. rewrite <- Hrem. by apply coherent_removePlayer.
  - unfold create_match. destruct (createMatch now uuid st) as [st' r] eqn:Hcr.
    change st' with (st', r).1. rewrite <- Hcr. by apply coherent_createMatch.
  - by apply coherent_complete_match.
  - by apply coherent_rejoin.
Qed.

(** The books are kept in every state the server gets into. *)
Lemma in_service_coherent pow_approx st : in_service pow_approx st -> coherent st.
Proof.
  induction 1 as [|st r _ IH Hfresh Hfresh'];
    [apply coherent_initial|by apply coherent_step].
Qed.


(** ** What a request does to a player *)

Lemma addPlayer_player pow_approx r now pl st l p :
  (forall p, isInQueue p = false -> isInMatch p = false ->
     player_step pow_approx r p (calculateQueueWeight now (set_isInQueue true p))) ->
  heap st !! l = Some p ->
  exists p', heap (addPlayer now pl st).1 !! l = Some p' /\
             player_step pow_approx r p p'.
Proof.
  intros Hr Hl.
  destruct (isInQueue (heap st !!! pl) || isInMatch (heap st !!! pl)) eqn:Hflags.
  { unfold addPlayer. rewrite Hflags. exists p. split; [done|constructor]. }
  destruct (addPlayer_Idle now pl st Hflags) as [rank ->]. cbn [fst heap
    set_badmintonQueue set_heap].
  apply orb_false_elim in Hflags as [HinQ HinM].
  destruct (decide (l = pl)) as [->|Hne].
  - rewrite list_lookup_alter_eq, Hl. cbn.
    rewrite (list_lookup_total_correct _ _ _ Hl) in HinQ, HinM. eauto.
  - rewrite list_lookup_alter_ne by done. exists p. split; [done|constructor].
Qed.

Lemma step_player pow_approx st r l p :
  wf st -> heap st !! l = Some p ->
  exists p', heap (step pow_approx st r) !! l = Some p' /\
             player_step pow_approx r p p'.
Proof.
  intros Hwf Hl.
  destruct r as [now uuid name|playerId|now uuid|now mid wids|now playerId];
    cbn [step].
  - unfold join. destruct name as [name|]; [|exists p; split; [done|constructor]].
    destruct (_ || _); [exists p; split; [done|constructor]|].
    destruct (find_by_name _ st) as [pl|].
    + destruct (addPlayer now pl st) as [st' res] eqn:Hadd. cbn [fst].
      change st' with (st', res).1. rewrite <- Hadd.
      apply addPlayer_player; [|done]. intros. by constructor.
    + destruct (addPlayer now _ _) as [st' res] eqn:Hadd. cbn [fst].
      change st' with (st', res).1. rewrite <- Hadd.
      apply addPlayer_player; [intros; by constructor|].
      cbn. by apply lookup_app_l_Some.
  - unfold leave. destruct (removePlayer playerId st) as [st' res] eqn:Hrem.
    cbn [fst].
    destruct (removePlayer_inv playerId st)
      as [[Heq _]|(i & item & Hitem & _ & _ & Heq)]; rewrite Heq in Hrem;
      injection Hrem as <- <-.
    { exists p. split; [done|constructor]. }
    cbn [heap set_badmintonQueue set_heap].
    destruct (decide (l = player item)) as [->|Hne].
    + rewrite list_lookup_alter_eq, Hl. cbn. eexists. split; [done|].
      assert (HQ : isInQueue p = true).
      { apply (wf_queued st Hwf _ p Hl). apply list_elem_of_fmap.
        eauto using list_elem_of_lookup_2. }
      constructor; [done|]. destruct (isInMatch p) eqn:HM; [|done].
      apply (wf_exclusive st Hwf _ p Hl) in HM. congruence.
    + rewrite list_lookup_alter_ne by done. exists p. split; [done|constructor].
  - unfold create_match. destruct (createMatch now uuid st) as [st' res] eqn:Hcr.
    cbn [fst].
    destruct (decide (length (badmintonQueue st) < 4)) as [Hlt|Hge].
    { rewrite createMatch_failure in Hcr by done. injection Hcr as <- <-.
      exists p. split; [done|constructor]. }
    rewrite createMatch_success in Hcr by lia. injection Hcr as <- <-.
    cbn [heap].
    destruct (decide (l ∈ player <$> take 4 (badmintonQueue st))) as [Ht|Ht].
    + rewrite alter_all_idemp by done. rewrite Hl. cbn. eexists. split; [done|].
      assert (HQ : isInQueue p = true).
      { apply (wf_queued st Hwf _ p Hl).
        rewrite <- (take_drop 4 (badmintonQueue st)), fmap_app, elem_of_app. auto. }
      constructor; [done|]. destruct (isInMatch p) eqn:HM; [|done].
      apply (wf_exclusive st Hwf _ p Hl) in HM. congruence.
    + rewrite alter_all_notin by done. exists p. split; [done|constructor].
  - destruct (complete_match_cases pow_approx now mid wids st)
      as [[-> _]|(mid' & wids' & _ & _ & _ & _ &
           [[-> _]|(ml & m & _ & Hm & Hact & [[-> _]|(_ & _ & ->)])])];
      try (exists p; split; [done|constructor]).
    cbn [fst].
    destruct (move_to_completed_heap mid'
      ml (completeMatch pow_approx now ml (winners_of st m wids')
            (losers_of st m wids') st)) as (-> & _).
    unfold completeMatch. cbn [heap set_heap set_match_heap].
    set (winners := winners_of st m wids'). set (losers := losers_of st m wids').
    destruct (wf_roster st Hwf ml m Hm Hact) as (_ & Hnd & Hmem).
    assert (Hflags : l ∈ m_players m -> isInQueue p = false /\ isInMatch p = true).
    { intros Hin. destruct (Hmem l Hin) as (p0 & Hp0 & HM).
      assert (p0 = p) as -> by congruence. split; [|done].
      by apply (wf_exclusive st Hwf l p). }
    destruct (decide (l ∈ losers)) as [Hlo|Hlo].
    + rewrite (alter_all_NoDup id) by
        (rewrite ?list_fmap_id; first [by apply NoDup_filter|done]).
      rewrite alter_all_notin.
      2:{ rewrite list_fmap_id. subst winners losers. unfold winners_of, losers_of in *.
          rewrite list_elem_of_filter in Hlo. rewrite list_elem_of_filter. tauto. }
      rewrite Hl. cbn. eexists. split; [done|].
      apply player_settled; apply Hflags; by eapply losers_of_subseteq.
    + rewrite alter_all_notin by (by rewrite list_fmap_id).
      destruct (decide (l ∈ winners)) as [Hwi|Hwi].
      * rewrite (alter_all_NoDup id) by
          (rewrite ?list_fmap_id; first [by apply NoDup_filter|done]).
        rewrite Hl. cbn. eexists. split; [done|].
        apply player_settled; apply Hflags; by eapply winners_of_subseteq.
      * rewrite alter_all_notin by (by rewrite list_fmap_id).
        exists p. split; [done|constructor].
  - unfold rejoin. destruct (JS.get playerId (players st)) as [pl|].
    2:{ destruct (inherited _ _); [|exists p; split; [done|constructor]].
        destruct (inherited_isInQueue _ _); exists p; (split; [done|constructor]). }
    destruct (isInMatch _); [exists p; split; [done|constructor]|].
    destruct (addPlayer now pl st) as [st' res] eqn:Hadd. cbn [fst].
    change st' with (st', res).1. rewrite <- Hadd.
    apply addPlayer_player; [|done]. intros. by constructor.
Qed.


(** X3: a request moves a player along Idle -> Queued -> Idle or InSession
    -> Idle only, and each kind of request makes one kind of move: a join or a
    rejoin queues an idle player, a leave withdraws a queued one, a
    create-match seats queued players, a complete-match frees seated ones;
    no player disappears. *)
Theorem membership_moves (pow_approx : float -> float -> float) (st : State)
    (r : request) (l : loc) (p : Player) :
  wf st -> heap st !! l = Some p ->
  exists p', heap (step pow_approx st r) !! l = Some p' /\
    (membership p' = membership p \/
     match r with
     | Join _ _ _ | Rejoin _ _ => membership p = Idle /\ membership p' = Queued
     | Leave _ => membership p = Queued /\ membership p' = Idle
     | CreateMatch _ _ => membership p = Queued /\ membership p' = InSession
     | CompleteMatch _ _ _ => membership p = InSession /\ membership p' = Idle
     end).
Proof.
  intros Hwf Hl.
  destruct (step_player pow_approx st r l p Hwf Hl) as (p' & Hl' & Hstep).
  exists p'. split; [done|].
  destruct Hstep as [r p|now uuid name p HQ HM|now playerId p HQ HM|playerId p HQ HM
                    |now uuid p HQ HM|now mid wids won opp p HQ HM];
    [by left|right..]; unfold membership; try destruct won; cbn;
    by rewrite ?HQ, ?HM.
Qed.

(** X4: whatever the request, a player keeps its id and its name; its rating,
    its counters and the time of its last match are touched by a
    complete-match only, which then adds one match, one win or one loss, and
    stamps the time; the queue weight is touched by a join or a rejoin only. *)
Theorem record_changes_on_completion_only (pow_approx : float -> float -> float)
    (st : State) (r : request) (l : loc) (p : Player) :
  wf st -> heap st !! l = Some p ->
  exists p', heap (step pow_approx st r) !! l = Some p' /\
    p_id p' = p_id p /\ p_name p' = p_name p /\
    match r with
    | CompleteMatch now _ _ =>
        queueWeight p' = queueWeight p /\
        (p' = p \/
         lastMatchTime p' = Some now /\
         totalMatches p' = (totalMatches p + 1)%Z /\
         (wins p' = (wins p + 1)%Z /\ losses p' = losses p \/
          wins p' = wins p /\ losses p' = (losses p + 1)%Z))
    | _ =>
        ranking p' = ranking p /\ wins p' = wins p /\ losses p' = losses p /\
        totalMatches p' = totalMatches p /\ lastMatchTime p' = lastMatchTime p /\
        match r with
        | Join _ _ _ | Rejoin _ _ => True
        | _ => queueWeight p' = queueWeight p
        end
    end.
Proof.
  intros Hwf Hl.
  destruct (step_player pow_approx st r l p Hwf Hl) as (p' & Hl' & Hstep).
  exists p'. split; [done|].
  destruct Hstep as [r p|now uuid name p HQ HM|now playerId p HQ HM|playerId p HQ HM
                    |now uuid p HQ HM|now mid wids won opp p HQ HM].
  - destruct r; auto 10.
  - by cbn.
  - by cbn.
  - by cbn.
  - by cbn.
  - unfold settle, updateRanking. destruct won; cbn; auto 10.
Qed.

Lemma addPlayer_match_heap now pl st :
  match_heap (addPlayer now pl st).1 = match_heap st.
Proof. unfold addPlayer. by destruct (_ || _). Qed.

Lemma join_match_heap now uuid name st :
  match_heap (join now uuid name st).1 = match_heap st.
Proof.
  unfold join. destruct name as [name|]; [|done]. destruct (_ || _); [done|].
  destruct (find_by_name _ st) as [pl|].
  - destruct (addPlayer now pl st) as [st' res] eqn:Hadd. cbn [fst].
    change st' with (st', res).1. rewrite <- Hadd. apply addPlayer_match_heap.
  - destruct (addPlayer now _ _) as [st' res] eqn:Hadd. cbn [fst].
    change st' with (st', res).1. rewrite <- Hadd.
    by rewrite addPlayer_match_heap.
Qed.

(** X5: no request removes a match or changes its id, its roster or its start
    time; a match that is completed is never touched again, and an active one
    changes only by being completed, by a complete-match that names its id. *)
Theorem matches_persist (pow_approx : float -> float -> float) (st : State)
    (r : request) (ml : loc) (m : BadmintonMatch) :
  match_heap st !! ml = Some m ->
  exists m', match_heap (step pow_approx st r) !! ml = Some m' /\
    m_id m' = m_id m /\ m_players m' = m_players m /\
    startTime m' = startTime m /\
    (m' = m \/
     exists now mid wids,
       r = CompleteMatch now (Some mid) (Some wids) /\
       JS.get mid (matches st) = Some ml /\
       status m = active /\ status m' = completed /\ endTime m' = Some now /\
       result m' = Some (winners_of st m wids, losers_of st m wids)).
Proof.
  intros Hm.
  destruct r as [now uuid name|playerId|now uuid|now mid wids|now playerId];
    cbn [step].
  - rewrite join_match_heap. eauto 10.
  - unfold leave. destruct (removePlayer playerId st) as [st' res] eqn:Hrem.
    cbn [fst].
    destruct (removePlayer_inv playerId st)
      as [[Heq _]|(i & item & _ & _ & _ & Heq)]; rewrite Heq in Hrem;
      injection Hrem as <- <-; eauto 10.
  - unfold create_match. destruct (createMatch now uuid st) as [st' res] eqn:Hcr.
    cbn [fst].
    destruct (decide (length (badmintonQueue st) < 4)) as [Hlt|Hge].
    { rewrite createMatch_failure in Hcr by done. injection Hcr as <- <-.
      eauto 10. }
    rewrite createMatch_success in Hcr by lia. injection Hcr as <- <-.
    cbn [match_heap]. exists m. split; [by apply lookup_app_l_Some|auto].
  - destruct (complete_match_cases pow_approx now mid wids st)
      as [[-> _]|(mid' & wids' & -> & -> & _ & _ &
           [[-> _]|(ml' & m0 & Hget & Hm0 & Hact & [[-> _]|(_ & _ & ->)])])];
      eauto 10.
    cbn [fst].
    destruct (move_to_completed_heap mid'
      ml' (completeMatch pow_approx now ml' (winners_of st m0 wids')
            (losers_of st m0 wids') st)) as (_ & -> & _).
    unfold completeMatch. cbn [match_heap set_heap set_match_heap].
    destruct (decide (ml = ml')) as [->|Hne].
    + rewrite list_lookup_alter_eq, Hm. cbn.
      assert (m0 = m) as -> by congruence.
      eexists. split; [done|]. split_and!; [done..|]. right.
      exists now, mid', wids'. by split_and!.
    + rewrite list_lookup_alter_ne by done. eauto 10.
  - unfold rejoin. destruct (JS.get playerId (players st)) as [pl|].
    2:{ destruct (inherited _ _); [|eauto 10].
        destruct (inherited_isInQueue _ _); cbn; eauto 10. }
    destruct (isInMatch _); [eauto 10|].
    destruct (addPlayer now pl st) as [st' res] eqn:Hadd. cbn [fst].
    change st' with (st', res).1. rewrite <- Hadd.
    rewrite addPlayer_match_heap. eauto 10.
Qed.

(** X6: [getQueueStatus] numbers the entries 1, 2, ... in queue order, its
    [length] counts them, and its [canCreateMatch] is true exactly when
    [createMatch] would succeed. *)
Theorem getQueueStatus_canCreateMatch (now : Z) (uuid : JS.string) (st : State) :
  position <$> queue (getQueueStatus st)
    = (fun i => Z.of_nat i + 1)%Z <$> seq 0 (length (badmintonQueue st)) /\
  queue_length (getQueueStatus st) = Z.of_nat (length (queue (getQueueStatus st))) /\
  (canCreateMatch (getQueueStatus st) = true <->
   exists ml, (createMatch now uuid st).2 = Success ml) /\
  (canCreateMatch (getQueueStatus st) = false <->
   createMatch now uuid st = (st, Failure InsufficientEntries)).
Proof.
  unfold getQueueStatus. cbn [queue queue_length canCreateMatch].
  split_and!.
  - apply list_eq. intros i. rewrite !list_lookup_fmap, list_lookup_imap.
    destruct (badmintonQueue st !! i) as [q|] eqn:Hq; cbn.
    + rewrite lookup_seq_lt by (by eapply lookup_lt_Some). done.
    + rewrite lookup_seq_ge by (by apply lookup_ge_None). done.
  - by rewrite length_imap.
  - destruct (decide (length (badmintonQueue st) < 4)) as [Hlt|Hge].
    + rewrite createMatch_failure by done.
      rewrite (proj2 (Nat.leb_gt _ _)) by done. split; [done|by intros [? ?]].
    + rewrite createMatch_success by lia.
      rewrite (proj2 (Nat.leb_le _ _)) by lia. split; [eauto|done].
  - destruct (decide (length (badmintonQueue st) < 4)) as [Hlt|Hge].
    + rewrite createMatch_failure by done.
      rewrite (proj2 (Nat.leb_gt _ _)) by done. done.
    + rewrite createMatch_success by lia.
      rewrite (proj2 (Nat.leb_le _ _)) by lia. split; [done|]. intros [= _ ?].
Qed.


(** ** Answers and broadcasts *)

Lemma addPlayer_outcome now pl st :
  match (addPlayer now pl st).2 with
  | Success _ =>
      length (badmintonQueue (addPlayer now pl st).1)
      = S (length (badmintonQueue st))
  | Failure _ => (addPlayer now pl st).1 = st
  end.
Proof.
  destruct (isInQueue (heap st !!! pl) || isInMatch (heap st !!! pl)) eqn:Hflags.
  { unfold addPlayer. by rewrite Hflags. }
  destruct (addPlayer_Idle now pl st Hflags) as [rank ->].
  cbn [fst snd badmintonQueue set_badmintonQueue set_heap].
  rewrite sort_length, length_app. cbn. lia.
Qed.

Lemma join_outcome now uuid playerName st :
  match (join now uuid playerName st).2 with
  | join_200 (Success _) _ =>
      length (badmintonQueue (join now uuid playerName st).1)
      = S (length (badmintonQueue st))
  | _ => (join now uuid playerName st).1 = st
  end.
Proof.
  unfold join. destruct playerName as [playerName|]; [|done].
  destruct (_ || _); [done|].
  destruct (find_by_name _ st) as [pl|].
  - pose proof (addPlayer_outcome now pl st) as H.
    by destruct (addPlayer now pl st) as [st' [rank|msg]].
  - set (st1 := set_players _ _).
    assert (Hflags : isInQueue (heap st1 !!! length (heap st))
                     || isInMatch (heap st1 !!! length (heap st)) = false).
    { subst st1. cbn. by rewrite list_lookup_total_middle. }
    destruct (addPlayer_Idle now (length (heap st)) st1 Hflags) as [rank ->].
    cbn [fst snd badmintonQueue set_badmintonQueue set_heap].
    rewrite sort_length, length_app. cbn. lia.
Qed.

Lemma leave_outcome playerId st :
  code (leave playerId st).2 = 200%Z /\
  match body (leave playerId st).2 with
  | Success _ =>
      S (length (badmintonQueue (leave playerId st).1))
      = length (badmintonQueue st)
  | Failure _ => (leave playerId st).1 = st
  end.
Proof.
  unfold leave.
  destruct (removePlayer_inv playerId st)
    as [[-> _]|(i & item & Hitem & _ & _ & ->)]; [done|].
  cbn. split; [done|]. rewrite length_delete by eauto.
  apply lookup_lt_Some in Hitem. lia.
Qed.

Lemma create_match_outcome now uuid st :
  code (create_match now uuid st).2 = 200%Z /\
  match body (create_match now uuid st).2 with
  | Success _ =>
      length (badmintonQueue (create_match now uuid st).1) + 4
      = length (badmintonQueue st)
  | Failure _ => (create_match now uuid st).1 = st
  end.
Proof.
  unfold create_match.
  destruct (decide (length (badmintonQueue st) < 4)) as [Hlt|Hge].
  { by rewrite createMatch_failure. }
  rewrite createMatch_success by lia. cbn. split; [done|].
  rewrite length_drop. lia.
Qed.

Lemma complete_match_outcome pow_approx now matchId winnerIds st :
  match body (complete_match pow_approx now matchId winnerIds st).2 with
  | Success ml =>
      status (match_heap st !!! ml) = active /\
      status (match_heap (complete_match pow_approx now matchId winnerIds st).1
                !!! ml) = completed
  | Failure _ => (complete_match pow_approx now matchId winnerIds st).1 = st
  end.
Proof.
  destruct (complete_match_cases pow_approx now matchId winnerIds st)
    as [[-> _]|(mid & wids & _ & _ & _ & _ &
         [[-> _]|(ml & m & _ & Hm & Hact & [[-> _]|(_ & _ & ->)])])];
    [done..|].
  cbn [fst snd body].
  destruct (move_to_completed_heap mid
    ml (completeMatch pow_approx now ml (winners_of st m wids)
          (losers_of st m wids) st)) as (_ & -> & _).
  unfold completeMatch. cbn [match_heap set_heap set_match_heap].
  rewrite !list_lookup_total_alt, list_lookup_alter_eq, Hm. done.
Qed.

Lemma rejoin_outcome now playerId st :
  match (rejoin now playerId st).2 with
  | rejoin_json {| body := Success _ |} =>
      length (badmintonQueue (rejoin now playerId st).1)
      = S (length (badmintonQueue st))
  | rejoin_json {| body := Failure _ |} => (rejoin now playerId st).1 = st
  | rejoin_TypeError =>
      (rejoin now playerId st).1 = set_flagged (flagged st ++ [playerId]) st
  end.
Proof.
  unfold rejoin. destruct (JS.get playerId (players st)) as [pl|].
  2:{ destruct (inherited _ _); [|done]. by destruct (inherited_isInQueue _ _). }
  destruct (isInMatch _); [done|].
  pose proof (addPlayer_outcome now pl st) as H.
  by destruct (addPlayer now pl st) as [st' [rank|msg]].
Qed.

Lemma set_flagged_id st : set_flagged (flagged st) st = st.
Proof. by destruct st. Qed.

(** X7: a handler broadcasts nothing exactly when it leaves the players, the
    matches and the queue as they are; when it does broadcast, the last event
    is the [badmintonUpdate] that carries the queue and the active matches of
    the state it leaves. *)
Theorem broadcast_iff_changed (pow_approx : float -> float -> float)
    (st : State) (r : request) :
  (emitted pow_approx st r = []
   <-> set_flagged (flagged st) (step pow_approx st r) = st) /\
  (emitted pow_approx st r <> [] ->
   last (emitted pow_approx st r) = Some (update (step pow_approx st r))).
Proof.
  assert (Hlen : forall st', length (badmintonQueue st') <> length (badmintonQueue st) ->
            set_flagged (flagged st) st' <> st).
  { intros st' Hne Heq. apply (f_equal badmintonQueue) in Heq. cbn in Heq.
    by rewrite Heq in Hne. }
  destruct r as [now uuid name|playerId|now uuid|now mid wids|now playerId];
    cbn [step emitted].
  - pose proof (join_outcome now uuid name st) as H.
    destruct (join now uuid name st) as [st' [msg|[rank|msg] pl]];
      cbn [fst snd] in *; [subst; by rewrite set_flagged_id| |subst; by rewrite set_flagged_id].
    split; [|done]. split; [done|]. intros Heq. by apply Hlen in Heq; [|lia].
  - pose proof (leave_outcome playerId st) as [_ H].
    destruct (leave playerId st) as [st' [c [pl|msg]]];
      cbn [fst snd body] in *; [|subst; by rewrite set_flagged_id].
    split; [|done]. split; [done|]. intros Heq. by apply Hlen in Heq; [|lia].
  - pose proof (create_match_outcome now uuid st) as [_ H].
    destruct (create_match now uuid st) as [st' [c [ml|msg]]];
      cbn [fst snd body] in *; [|subst; by rewrite set_flagged_id].
    split; [|done]. split; [done|]. intros Heq. by apply Hlen in Heq; [|lia].
  - pose proof (complete_match_outcome pow_approx now mid wids st) as H.
    destruct (complete_match pow_approx now mid wids st) as [st' [c [ml|msg]]];
      cbn [fst snd body] in *; [|subst; by rewrite set_flagged_id].
    split; [|done]. split; [done|]. intros Heq. destruct H as [H1 H2].
    apply (f_equal match_heap) in Heq. cbn in Heq. congruence.
  - pose proof (rejoin_outcome now playerId st) as H.
    destruct (rejoin now playerId st) as [st' [[c [rank|msg]]|]];
      cbn [fst snd body] in *.
    + split; [|done]. split; [done|]. intros Heq. by apply Hlen in Heq; [|lia].
    + subst. by rewrite set_flagged_id.
    + subst. split; [|done]. split; [|done]. intros _. by destruct st.
Qed.


(** ** Leaving, rejoining, blank names *)

Lemma membership_Queued p :
  membership p = Queued <-> isInQueue p = true /\ isInMatch p = false.
Proof.
  unfold membership. destruct (isInMatch p), (isInQueue p);
    (split; [done|by intros [? ?]]).
Qed.

Lemma membership_InSession p : membership p = InSession <-> isInMatch p = true.
Proof. unfold membership. by destruct (isInMatch p), (isInQueue p). Qed.

(** X8: a leave is always answered with status 200; it succeeds exactly when
    a queued player has the id, and then that player is idle afterwards;
    otherwise the answer is the failure "Player not in queue" and nothing
    changes. *)
Theorem leave_spec (playerId : JS.string) (st : State) :
  wf st ->
  let r := leave playerId st in
  code r.2 = 200%Z /\
  ((exists l p, heap st !! l = Some p /\ p_id p = playerId /\
                membership p = Queued)
   <-> exists pl, body r.2 = Success pl) /\
  (forall pl, body r.2 = Success pl ->
     p_id (heap st !!! pl) = playerId /\
     membership (heap st !!! pl) = Queued /\
     membership (heap r.1 !!! pl) = Idle /\
     S (length (badmintonQueue r.1)) = length (badmintonQueue st)) /\
  ((forall pl, body r.2 <> Success pl) ->
   r = (st, mkReply 200 (Failure NotQueued))).
Proof.
  intros Hwf r. subst r. unfold leave.
  destruct (removePlayer_inv playerId st)
    as [[-> Hnone]|(i & item & Hitem & Hid & _ & ->)]; cbn [fst snd code body].
  - split; [done|]. split; [|split; [done|done]].
    split; [|by intros [? ?]].
    intros (l & p & Hl & Hp & [HQ _]%membership_Queued).
    apply (wf_queued st Hwf l p Hl) in HQ as (e & -> & He)%list_elem_of_fmap.
    destruct (Hnone e He). by rewrite (list_lookup_total_correct _ _ _ Hl).
  - assert (Hin : item ∈ badmintonQueue st) by eauto using list_elem_of_lookup_2.
    assert (Hlt : player item < length (heap st)) by (by apply Hwf).
    pose proof (heap_lookup _ _ Hlt) as Hp.
    assert (Hq : membership (heap st !!! player item) = Queued).
    { apply membership_Queued.
      assert (HQ : isInQueue (heap st !!! player item) = true).
      { apply (wf_queued st Hwf _ _ Hp). apply list_elem_of_fmap. eauto. }
      split; [done|]. destruct (isInMatch _) eqn:HM; [|done].
      apply (wf_exclusive st Hwf _ _ Hp) in HM. congruence. }
    split; [done|]. split; [split; [eauto|eauto 10]|]. split; [|by intros H; destruct (H (player item))].
    intros pl [= <-]. split_and!; [done..| |].
    + cbn [heap set_badmintonQueue set_heap].
      rewrite list_lookup_total_alt, list_lookup_alter_eq, Hp. cbn.
      apply membership_Queued in Hq as [_ HM]. unfold membership. cbn. by rewrite HM.
    + cbn. rewrite length_delete by eauto. apply lookup_lt_Some in Hitem. lia.
Qed.

(** X9: a join is refused with status 400 exactly when the name is absent or
    made of white space only (the empty name included), always with the same
    message, and a refused join changes nothing. *)
Theorem join_blank (now : Z) (uuid : JS.string) (playerName : option JS.string)
    (st : State) :
  ((playerName = None \/
    exists s, playerName = Some s /\
              Forall (fun c => JS.is_white_space c = true) s)
   <-> exists msg, (join now uuid playerName st).2 = join_400 msg) /\
  (forall msg, (join now uuid playerName st).2 = join_400 msg ->
     msg = "Player name is required"%string /\
     (join now uuid playerName st).1 = st).
Proof.
  unfold join. destruct playerName as [s|]; [|by split; [split; eauto|intros ? [= <-]]].
  destruct (bool_decide (s = []) || bool_decide (JS.trim s = [])) eqn:Hblank.
  - split; [|by intros ? [= <-]]. split; [eauto|]. intros _. right. exists s.
    split; [done|]. apply trim_nil_iff.
    apply orb_true_iff in Hblank as [->%bool_decide_eq_true|?%bool_decide_eq_true];
      [apply trim_nil|done].
  - apply orb_false_elim in Hblank as [_ Hne%bool_decide_eq_false].
    split.
    + split.
      * intros [?|(s' & [= <-] & Hs%trim_nil_iff)]; done.
      * intros [msg Hmsg]. exfalso.
        destruct (find_by_name _ st); by destruct (addPlayer _ _ _).
    + intros msg Hmsg. exfalso.
      destruct (find_by_name _ st); by destruct (addPlayer _ _ _).
Qed.


Lemma run_in_service pow_approx rs st :
  in_service pow_approx st -> fresh_ids pow_approx st rs ->
  in_service pow_approx (run pow_approx rs st).
Proof.
  revert st. induction rs as [|r rs IH]; intros st Hst Hfresh; [done|].
  destruct Hfresh as (H1 & H2 & Hrest). rewrite run_cons.
  apply IH; [by constructor|done].
Qed.

(** X10: how a rejoin is answered, by the state of the player the id names.
    With no such player, and an id that names nothing every object inherits:
    404, "Player not found". A player in a match: 400. A queued player: 200
    with the failure of [addPlayer]. In these three cases nothing changes. An
    idle player: 200 and the player is queued, one entry more in the queue. *)
Theorem rejoin_spec (pow_approx : float -> float -> float) (now : Z)
    (playerId : JS.string) (st : State) :
  in_service pow_approx st ->
  let r := rejoin now playerId st in
  ((forall p, p ∈ heap st -> p_id p <> playerId) ->
   inherited playerId st = false -> r = (st, rejoin_json NotFound)) /\
  (forall l p, heap st !! l = Some p -> p_id p = playerId ->
     match membership p with
     | InSession =>
         r = (st, rejoin_json
                    (mkReply 400 (Failure "Player is currently in a match")))
     | Queued => r = (st, rejoin_json (mkReply 200 (Failure AlreadyActive)))
     | Idle =>
         (exists rank, r.2 = rejoin_json (mkReply 200 (Success rank))) /\
         membership (heap r.1 !!! l) = Queued /\
         length (badmintonQueue r.1) = S (length (badmintonQueue st))
     end).
Proof.
  intros Hco%in_service_coherent r. pose proof (co_wf st Hco) as Hwf.
  subst r. unfold rejoin. split.
  - intros Hnone Hinh.
    destruct (JS.get playerId (players st)) as [pl|] eqn:Hget;
      [|by rewrite Hinh].
    destruct (Hnone (heap st !!! pl)).
    + apply list_elem_of_lookup. exists pl. apply heap_lookup.
      apply Hwf. by eapply get_values.
    + apply (wf_keys st Hwf). by apply get_elem_of.
  - intros l p Hl <-. rewrite (co_registered st Hco l p Hl).
    rewrite (list_lookup_total_correct _ _ _ Hl).
    unfold membership. destruct (isInMatch p) eqn:HM; [done|].
    destruct (isInQueue p) eqn:HQ.
    + unfold addPlayer. rewrite (list_lookup_total_correct _ _ _ Hl), HQ. done.
    + assert (Hflags : isInQueue (heap st !!! l) || isInMatch (heap st !!! l) = false).
      { by rewrite (list_lookup_total_correct _ _ _ Hl), HQ, HM. }
      destruct (addPlayer_Idle now l st Hflags) as [rank ->].
      cbn [fst snd heap badmintonQueue set_badmintonQueue set_heap].
      split; [eauto|]. split.
      * rewrite list_lookup_total_alt, list_lookup_alter_eq, Hl. cbn. by rewrite HM.
      * rewrite sort_length, length_app. cbn. lia.
Qed.








(** ** What holds in every state *)

(** X12: in every state the server gets into, each player's matches are its
    wins plus its losses, none negative, and it has a last match time exactly
    if it has played. *)
Theorem counters_add_up (pow_approx : float -> float -> float) (st : State)
    (p : Player) :
  in_service pow_approx st -> p ∈ heap st ->
  (totalMatches p = wins p + losses p)%Z /\ (0 <= wins p)%Z /\
  (0 <= losses p)%Z /\ (lastMatchTime p = None <-> totalMatches p = 0%Z).
Proof. intros Hco%in_service_coherent Hp. by apply (co_stats st Hco). Qed.

(** X13: in every state the server gets into, no two players share a name or
    an id, every name is non-empty and trimmed, and each player is the one the
    registry gives for its id and the one a join finds for its name. *)
Theorem players_found_by_id_and_name (pow_approx : float -> float -> float)
    (st : State) :
  in_service pow_approx st ->
  NoDup (p_id <$> heap st) /\ NoDup (p_name <$> heap st) /\
  forall l p, heap st !! l = Some p ->
    p_name p <> [] /\ JS.trim (p_name p) = p_name p /\
    JS.get (p_id p) (players st) = Some l /\
    find_by_name (p_name p) st = Some l.
Proof.
  intros Hco%in_service_coherent. pose proof (co_wf st Hco) as Hwf.
  split; [apply Hwf|]. split; [apply Hco|].
  intros l p Hl.
  assert (Hp : p ∈ heap st) by eauto using list_elem_of_lookup_2.
  destruct (co_trimmed st Hco p Hp) as [Hne Htrim].
  pose proof (co_registered st Hco l p Hl) as Hget.
  split_and!; [done..|].
  unfold find_by_name. apply find_unique.
  - by eapply get_values.
  - rewrite (list_lookup_total_correct _ _ _ Hl). by apply bool_decide_eq_true.
  - intros l' Hl' Hname%bool_decide_eq_true.
    apply (wf_players st Hwf) in Hl'. apply heap_lookup in Hl'.
    apply (proj1 (NoDup_alt _) (co_names st Hco) l' l (p_name p));
      rewrite list_lookup_fmap; [rewrite Hl'; cbn; by rewrite Hname|by rewrite Hl].
Qed.

(** X14: in every state the server gets into, a queue entry carries the
    weight its player holds, and its player is flagged as queued. *)
Theorem queue_entries_current (pow_approx : float -> float -> float)
    (st : State) (e : QueueItem) :
  in_service pow_approx st -> e ∈ badmintonQueue st ->
  weight e = queueWeight (heap st !!! player e) /\
  membership (heap st !!! player e) = Queued.
Proof.
  intros Hco%in_service_coherent He. pose proof (co_wf st Hco) as Hwf.
  split; [by apply (co_weight st Hco)|].
  assert (Hlt : player e < length (heap st)) by (by apply Hwf).
  pose proof (heap_lookup _ _ Hlt) as Hp.
  apply membership_Queued.
  assert (HQ : isInQueue (heap st !!! player e) = true).
  { apply (wf_queued st Hwf _ _ Hp). apply list_elem_of_fmap. eauto. }
  split; [done|]. destruct (isInMatch _) eqn:HM; [|done].
  apply (wf_exclusive st Hwf _ _ Hp) in HM. congruence.
Qed.



(** ** The status and the queue positions *)



(** Where [addPlayer] puts the player it admits. *)
Lemma addPlayer_position now pl st :
  wf st -> pl < length (heap st) ->
  isInQueue (heap st !!! pl) || isInMatch (heap st !!! pl) = false ->
  exists i,
    addPlayer now pl st =
      (set_badmintonQueue
         (JS.sort compareFn
            (badmintonQueue st
             ++ [mkQueueItem pl now
                   (queueWeight (calculateQueueWeight now (heap st !!! pl)))]))
         (set_heap
            (alter (fun p => calculateQueueWeight now (set_isInQueue true p)) pl
               (heap st)) st),
       Success (Z.of_nat i + 1)%Z) /\
    badmintonQueue (addPlayer now pl st).1 !! i
      = Some (mkQueueItem pl now
                (queueWeight (calculateQueueWeight now (heap st !!! pl)))) /\
    forall j e, badmintonQueue (addPlayer now pl st).1 !! j = Some e ->
                player e = pl -> j = i.
Proof.
  intros Hwf Hpl Hflags.
  pose proof (wf_addPlayer now pl st Hwf Hpl) as Hwf'.
  destruct (addPlayer_Idle now pl st Hflags) as [rank Hadd].
  unfold addPlayer in Hadd |- *. rewrite Hflags in Hadd |- *.
  cbn [fst snd badmintonQueue set_badmintonQueue set_heap] in *.
  set (this := heap st !!! pl) in *.
  set (item := mkQueueItem pl now (queueWeight (calculateQueueWeight now this))) in *.
  set (f := fun p => calculateQueueWeight now (set_isInQueue true p)) in *.
  set (h := alter f pl (heap st)) in *.
  assert (Hh : h !!! pl = f this)
    by (subst h; by rewrite list_lookup_total_alter_eq).
  assert (Hitem : mkQueueItem pl now (queueWeight (h !!! pl)) = item).
  { subst item. rewrite Hh. reflexivity. }
  rewrite Hitem in *.
  set (q' := JS.sort compareFn (badmintonQueue st ++ [item])) in *.
  assert (Hperm : q' ≡ₚ item :: badmintonQueue st).
  { subst q'. rewrite sort_Permutation. by rewrite Permutation_app_comm. }
  apply orb_false_elim in Hflags as [HinQ HinM].
  assert (Hnotin : pl ∉ player <$> badmintonQueue st).
  { intros Hin. apply (wf_queued st Hwf pl this) in Hin; [|by apply heap_lookup].
    congruence. }
  assert (Hown : forall e, e ∈ q' -> player e = pl -> e = item).
  { intros e He Hpe. rewrite Hperm in He.
    apply elem_of_cons in He as [->|He]; [done|].
    destruct Hnotin. rewrite <- Hpe. by apply list_elem_of_fmap_2. }
  assert (Hid : forall e, e ∈ q' ->
            p_id (h !!! player e) = p_id (h !!! pl) -> player e = pl).
  { intros e He. subst h. rewrite !alter_p_id by done. intros Heq.
    eapply ids_inj; [apply Hwf| |done|done].
    rewrite Hperm in He. apply elem_of_cons in He as [->|He]; [done|].
    by apply (wf_queue_valid st Hwf). }
  destruct (findIndex_cases
    (fun q => bool_decide (p_id (h !!! player q) = p_id (h !!! pl))) q')
    as [Hnone|(i & Hi & _)].
  { rewrite findIndex_None in Hnone.
    assert (Hin : item ∈ q') by (rewrite Hperm; left).
    specialize (Hnone item Hin). cbn in Hnone.
    by rewrite bool_decide_eq_false in Hnone. }
  exists i. rewrite Hi. split; [done|].
  apply findIndex_Some in Hi as (e & Hie & He & _).
  apply bool_decide_eq_true in He.
  assert (e = item) as ->.
  { apply Hown; [by eapply list_elem_of_lookup_2|].
    apply Hid; [by eapply list_elem_of_lookup_2|done]. }
  split; [done|]. intros j e Hj Hpe.
  assert (e = item) as -> by (apply Hown; [by eapply list_elem_of_lookup_2|done]).
  eapply lookup_once; [exact Hperm| |done..].
  intros Hin. destruct Hnotin.
  change pl with (player item). by apply list_elem_of_fmap_2.
Qed.

Lemma position_in_status now pl st rank :
  wf st -> pl < length (heap st) ->
  (addPlayer now pl st).2 = Success rank ->
  let st' := (addPlayer now pl st).1 in
  exists i e,
    rank = (Z.of_nat i + 1)%Z /\
    queue (getQueueStatus st') !! i = Some e /\
    position e = rank /\
    qp_id (entry_player e) = p_id (heap st' !!! pl) /\
    qp_name (entry_player e) = p_name (heap st' !!! pl) /\
    qp_weight (entry_player e) = queueWeight (heap st' !!! pl) /\
    entry_joinTime e = now /\
    forall j e', queue (getQueueStatus st') !! j = Some e' ->
      qp_id (entry_player e') = p_id (heap st' !!! pl) -> j = i.
Proof.
  intros Hwf Hpl Hok st'.
  pose proof (wf_addPlayer now pl st Hwf Hpl) as Hwf'. fold st' in Hwf'.
  destruct (isInQueue (heap st !!! pl) || isInMatch (heap st !!! pl)) eqn:Hflags.
  { unfold addPlayer in Hok. by rewrite Hflags in Hok. }
  destruct (addPlayer_position now pl st Hwf Hpl Hflags)
    as (i & Hadd & Hi & Honly).
  fold st' in Hi, Honly.
  assert (Hheap : heap st' !!! pl
                  = calculateQueueWeight now (set_isInQueue true (heap st !!! pl))).
  { subst st'. rewrite Hadd. cbn [fst heap set_badmintonQueue set_heap].
    by rewrite list_lookup_total_alter_eq. }
  rewrite Hadd in Hok. injection Hok as <-.
  exists i. eexists. split; [done|]. unfold getQueueStatus. cbn [queue].
  rewrite list_lookup_imap, Hi. cbn [fmap option_fmap option_map].
  split; [done|]. cbn [position entry_player entry_joinTime qp_id qp_name
    qp_weight player weight joinTime].
  split_and!; [done..|by rewrite Hheap|done|].
  intros j e'. rewrite list_lookup_imap.
  destruct (badmintonQueue st' !! j) as [q|] eqn:Hq; [|done].
  intros [= <-]. cbn [entry_player qp_id]. intros Hid.
  apply (Honly j q Hq).
  assert (Hlen : length (heap st') = length (heap st)).
  { subst st'. rewrite Hadd. cbn. by rewrite length_alter. }
  eapply ids_inj; [apply Hwf'| |by rewrite Hlen|done].
  apply (wf_queue_valid st' Hwf'). eauto using list_elem_of_lookup_2.
Qed.

(** X17: the [queuePosition] a successful join answers is the [position] of
    the player's entry in the queue status that is broadcast, the only entry
    with the player's id; that entry carries the instant of the join and the
    weight the player was given. *)
Theorem join_position_in_status (now : Z) (uuid : JS.string)
    (playerName : option JS.string) (st : State) (rank : Z) (pl : loc) :
  wf st -> uuid ∉ p_id <$> heap st ->
  (join now uuid playerName st).2 = join_200 (Success rank) pl ->
  let st' := (join now uuid playerName st).1 in
  exists i e,
    rank = (Z.of_nat i + 1)%Z /\
    queue (getQueueStatus st') !! i = Some e /\
    position e = rank /\
    qp_id (entry_player e) = p_id (heap st' !!! pl) /\
    qp_name (entry_player e) = p_name (heap st' !!! pl) /\
    qp_weight (entry_player e) = queueWeight (heap st' !!! pl) /\
    entry_joinTime e = now /\
    forall j e', queue (getQueueStatus st') !! j = Some e' ->
      qp_id (entry_player e') = p_id (heap st' !!! pl) -> j = i.
Proof.
  intros Hwf Hfresh. unfold join.
  destruct playerName as [playerName|]; [|done].
  destruct (_ || _); [done|].
  destruct (find_by_name _ st) as [pl0|] eqn:Hfind.
  - apply find_elem_of in Hfind as [Hin _]. apply (wf_players st Hwf) in Hin.
    pose proof (position_in_status now pl0 st) as H.
    destruct (addPlayer now pl0 st) as [st' res]. cbn [fst snd] in *.
    intros [= -> <-]. by apply H.
  - set (st1 := set_players _ _).
    assert (Hwf1 : wf st1) by (by apply wf_register).
    assert (Hlt : length (heap st) < length (heap st1)).
    { subst st1. cbn. rewrite length_app. cbn. lia. }
    pose proof (position_in_status now (length (heap st)) st1) as H.
    destruct (addPlayer now (length (heap st)) st1) as [st' res].
    cbn [fst snd] in *. intros [= -> <-]. by apply H.
Qed.


(** ** The life of a match *)

Lemma complete_match_accepts pow_approx now mid wids st ml :
  wf st -> mid <> [] -> active_match st mid = Some ml ->
  names_half st (match_heap st !!! ml) wids ->
  complete_match pow_approx now (Some mid) (Some wids) st
  = (move_to_completed mid ml
       (completeMatch pow_approx now ml
          (winners_of st (match_heap st !!! ml) wids)
          (losers_of st (match_heap st !!! ml) wids) st),
     mkReply 200 (Success ml)).
Proof.
  intros Hwf Hmid Hactive Hhalf. pose proof Hhalf as (Hlen & _).
  apply active_match_Some in Hactive as [Hget Hst].
  pose proof (status_active_lookup _ _ Hst) as Hm.
  apply (winners_losers_count st ml _ wids Hwf Hm Hst Hlen) in Hhalf as [Hw Hl].
  unfold complete_match. rewrite bool_decide_eq_false_2 by done.
  rewrite Hlen. cbn [Nat.eqb negb orb]. rewrite Hget, Hst, Hw, Hl. done.
Qed.

(** What a successful complete-match leaves. *)
Lemma complete_match_success pow_approx now matchId winnerIds st ml :
  coherent st ->
  (complete_match pow_approx now matchId winnerIds st).2 = mkReply 200 (Success ml) ->
  exists mid wids m i,
    matchId = Some mid /\ winnerIds = Some wids /\ mid <> [] /\
    JS.get mid (matches st) = Some ml /\
    match_heap st !! ml = Some m /\ status m = active /\ m_id m = mid /\
    length (winners_of st m wids) = 2 /\ length (losers_of st m wids) = 2 /\
    activeMatches st !! i = Some ml /\
    (complete_match pow_approx now matchId winnerIds st).1
    = mkState
        (alter_all id
           (settle pow_approx now false
              (avgRanking (heap st) (winners_of st m wids)))
           (alter_all id
              (settle pow_approx now true
                 (avgRanking (heap st) (losers_of st m wids)))
              (heap st) (winners_of st m wids)) (losers_of st m wids))
        (alter (completed_from now (winners_of st m wids) (losers_of st m wids))
           ml (match_heap st))
        (players st) (matches st) (delete i (activeMatches st))
        (completedMatches st ++ [ml]) (badmintonQueue st) (flagged st).
Proof.
  intros Hco.
  destruct (complete_match_cases pow_approx now matchId winnerIds st)
    as [[-> _]|(mid & wids & -> & -> & Hmid & _ &
         [[-> _]|(ml' & m & Hget & Hm & Hact & [[-> _]|(Hw2 & Hl2 & ->)])])];
    [done..|].
  cbn [fst snd]. intros [= <-].
  destruct (move_to_completed_found pow_approx now mid ml' m
              (winners_of st m wids) (losers_of st m wids) st
              Hco Hget Hm Hact) as (i & Hi & ->).
  exists mid, wids, m, i. split_and!; try done.
  rewrite <- (co_match_keys st Hco mid ml' Hget).
  by rewrite (list_lookup_total_correct _ _ _ Hm).
Qed.


Lemma createMatch_active now uuid st :
  wf st -> 4 <= length (badmintonQueue st) ->
  let st1 := (createMatch now uuid st).1 in
  active_match st1 uuid = Some (length (match_heap st)) /\
  match_heap st1 !!! length (match_heap st)
  = mkMatch uuid (player <$> take 4 (badmintonQueue st)) now None None None active /\
  forall l, p_id (heap st1 !!! l) = p_id (heap st !!! l).
Proof.
  intros Hwf Hge st1. subst st1. rewrite createMatch_success by done.
  cbn [fst]. split_and!.
  - apply active_match_Some. cbn [matches match_heap].
    rewrite get_set, decide_True by done. by rewrite list_lookup_total_middle.
  - cbn [match_heap]. by rewrite list_lookup_total_middle.
  - intros l. cbn [heap]. by apply (alter_all_total_field player _ p_id).
Qed.

(** X19: a match created under a new, non-empty id can be completed at once:
    naming any two of the four players taken from the head of the queue as
    winners is accepted, for the match just created. *)
Theorem created_match_can_be_completed (pow_approx : float -> float -> float)
    (now now' : Z) (uuid : JS.string) (st : State) (i j : nat) :
  wf st -> uuid <> [] -> 4 <= length (badmintonQueue st) ->
  i < 4 -> j < 4 -> i <> j ->
  let id_at k := p_id (heap st !!! player (badmintonQueue st !!! k)) in
  let st1 := (create_match now uuid st).1 in
  exists ml,
    (create_match now uuid st).2 = mkReply 200 (Success ml) /\
    active_match st1 uuid = Some ml /\
    (complete_match pow_approx now' (Some uuid) (Some [id_at i; id_at j]) st1).2
    = mkReply 200 (Success ml).
Proof.
  intros Hwf Huuid Hge Hi Hj Hij id_at st1.
  assert (Hst1 : st1 = (createMatch now uuid st).1).
  { subst st1. unfold create_match. by destruct (createMatch now uuid st). }
  assert (Hwf1 : wf st1) by (rewrite Hst1; by apply wf_createMatch).
  destruct (createMatch_active now uuid st Hwf Hge) as (Hactive & Hnew & Hids).
  rewrite <- Hst1 in Hactive, Hnew, Hids.
  exists (length (match_heap st)). split_and!; [|done|].
  { unfold create_match. by rewrite createMatch_success. }
  rewrite (complete_match_accepts pow_approx now' uuid _ st1 _ Hwf1 Huuid Hactive);
    [done|].
  rewrite Hnew. unfold names_half, roster_ids. cbn [m_players].
  assert (Hlook : forall k, k < 4 ->
            take 4 (badmintonQueue st) !! k = Some (badmintonQueue st !!! k)).
  { intros k Hk. rewrite lookup_take_lt by done.
    apply list_lookup_lookup_total_lt. lia. }
  assert (Hin : forall k, k < 4 ->
            id_at k ∈ (fun l => p_id (heap st1 !!! l))
                      <$> (player <$> take 4 (badmintonQueue st))).
  { intros k Hk. rewrite <- list_fmap_compose. apply list_elem_of_fmap.
    exists (badmintonQueue st !!! k). split; [cbn; by rewrite Hids|].
    eapply list_elem_of_lookup_2, Hlook, Hk. }
  split; [done|]. split.
  - apply NoDup_cons. split; [|apply NoDup_singleton].
    intros Heq%list_elem_of_singleton. apply Hij.
    assert (Hqi : badmintonQueue st !! i = Some (badmintonQueue st !!! i))
      by (apply list_lookup_lookup_total_lt; lia).
    assert (Hqj : badmintonQueue st !! j = Some (badmintonQueue st !!! j))
      by (apply list_lookup_lookup_total_lt; lia).
    assert (Hpl : player (badmintonQueue st !!! i) = player (badmintonQueue st !!! j)).
    { eapply ids_inj; [apply Hwf| | |done];
        apply (wf_queue_valid st Hwf); eauto using list_elem_of_lookup_2. }
    apply (proj1 (NoDup_alt _) (wf_queue_nodup st Hwf) i j
             (player (badmintonQueue st !!! i)));
      rewrite list_lookup_fmap; [by rewrite Hqi|by rewrite Hqj, Hpl].
  - intros w [->|[->|[]%elem_of_nil]%elem_of_cons]%elem_of_cons; by apply Hin.
Qed.

Lemma rejoin_idle now playerId st l p :
  coherent st -> heap st !! l = Some p -> p_id p = playerId ->
  isInQueue p = false -> isInMatch p = false ->
  (exists rank, (rejoin now playerId st).2 = rejoin_json (mkReply 200 (Success rank))) /\
  membership (heap (rejoin now playerId st).1 !!! l) = Queued /\
  length (badmintonQueue (rejoin now playerId st).1)
  = S (length (badmintonQueue st)).
Proof.
  intros Hco Hl <- HQ HM. unfold rejoin.
  rewrite (co_registered st Hco l p Hl).
  rewrite (list_lookup_total_correct _ _ _ Hl), HM.
  assert (Hflags : isInQueue (heap st !!! l) || isInMatch (heap st !!! l) = false).
  { by rewrite (list_lookup_total_correct _ _ _ Hl), HQ, HM. }
  destruct (addPlayer_Idle now l st Hflags) as [rank ->].
  cbn [fst snd heap badmintonQueue set_badmintonQueue set_heap].
  split; [eauto|]. split.
  - rewrite list_lookup_total_alt, list_lookup_alter_eq, Hl. cbn.
    unfold membership. cbn. by rewrite HM.
  - rewrite sort_length, length_app. cbn. lia.
Qed.

(** X20: once a match is completed, each of its four players can rejoin the
    queue under its id: the rejoin is answered with a position and the player
    is queued again. *)
Theorem settled_players_can_rejoin (pow_approx : float -> float -> float)
    (now now' : Z) (matchId : option JS.string)
    (winnerIds : option (list JS.string)) (st : State) (ml l : loc) :
  in_service pow_approx st ->
  (complete_match pow_approx now matchId winnerIds st).2 = mkReply 200 (Success ml) ->
  l ∈ m_players (match_heap st !!! ml) ->
  let st' := (complete_match pow_approx now matchId winnerIds st).1 in
  let r := rejoin now' (p_id (heap st !!! l)) st' in
  (exists rank, r.2 = rejoin_json (mkReply 200 (Success rank))) /\
  membership (heap r.1 !!! l) = Queued /\
  lastMatchTime (heap r.1 !!! l) = Some now /\
  length (badmintonQueue r.1) = S (length (badmintonQueue st)).
Proof.
  intros Hco%in_service_coherent Hok Hl st' r. subst r st'.
  pose proof (co_wf st Hco) as Hwf.
  pose proof (coherent_complete_match pow_approx now matchId winnerIds st Hco) as Hco'.
  destruct (complete_match_success pow_approx now matchId winnerIds st ml Hco Hok)
    as (mid & wids & m & i & -> & -> & _ & _ & Hm & Hact & _ & _ & _ & _ & Hst').
  rewrite (list_lookup_total_correct _ _ _ Hm) in Hl.
  set (st' := (complete_match pow_approx now (Some mid) (Some wids) st).1) in *.
  set (winners := winners_of st m wids) in *.
  set (losers := losers_of st m wids) in *.
  destruct (wf_roster st Hwf ml m Hm Hact) as (_ & Hnd & Hmem).
  destruct (Hmem l Hl) as (p & Hp & HM).
  assert (HQ : isInQueue p = false) by (by apply (wf_exclusive st Hwf l p)).
  assert (Hp' : exists won opp, heap st' !! l = Some (settle pow_approx now won opp p)).
  { rewrite Hst'. cbn [heap].
    destruct (decide (l ∈ losers)) as [Hlo|Hlo].
    - rewrite (alter_all_NoDup id) by
        (rewrite ?list_fmap_id; first [by apply NoDup_filter|done]).
      rewrite alter_all_notin.
      2:{ rewrite list_fmap_id. subst winners losers. unfold winners_of, losers_of in *.
          rewrite list_elem_of_filter in Hlo. rewrite list_elem_of_filter. tauto. }
      rewrite Hp. cbn. eauto.
    - rewrite alter_all_notin by (by rewrite list_fmap_id).
      assert (Hwi : l ∈ winners).
      { subst winners losers. unfold winners_of, losers_of in *.
        rewrite list_elem_of_filter in Hlo. rewrite list_elem_of_filter.
        destruct (decide (p_id (heap st !!! l) ∈ wids)); tauto. }
      rewrite (alter_all_NoDup id) by
        (rewrite ?list_fmap_id; first [by apply NoDup_filter|done]).
      rewrite Hp. cbn. eauto. }
  destruct Hp' as (won & opp & Hp').
  rewrite (list_lookup_total_correct _ _ _ Hp).
  destruct (rejoin_idle now' (p_id p) st' l _ Hco' Hp') as (Hrank & Hq & Hlen).
  { apply settle_p_id. }
  { by rewrite settle_isInQueue. }
  { done. }
  split_and!; [done..| |].
  - unfold rejoin. rewrite <- (settle_p_id pow_approx now won opp p).
    rewrite (co_registered st' Hco' l _ Hp').
    rewrite (list_lookup_total_correct _ _ _ Hp').
    cbn [isInMatch settle set_isInMatch].
    assert (Hflags : isInQueue (heap st' !!! l) || isInMatch (heap st' !!! l) = false).
    { rewrite (list_lookup_total_correct _ _ _ Hp'), settle_isInQueue, HQ. done. }
    destruct (addPlayer_Idle now' l st' Hflags) as [rank ->].
    cbn [fst heap set_badmintonQueue set_heap].
    rewrite list_lookup_total_alt, list_lookup_alter_eq, Hp'. done.
  - rewrite Hlen. f_equal. by rewrite Hst'.
Qed.


(** X21: the match that a successful create-match announces seats the players
    the queue status showed at positions 1 to 4, in that order, with the id,
    name and rating shown there; it carries the new id, the instant as start
    time and the status active; and every other entry of the queue moves up
    four positions, otherwise unchanged. *)
Theorem matchCreated_top_four (pow_approx : float -> float -> float) (now : Z)
    (uuid : JS.string) (st : State) (ml : loc) :
  (create_match now uuid st).2 = mkReply 200 (Success ml) ->
  let st' := (create_match now uuid st).1 in
  emitted pow_approx st (CreateMatch now uuid)
  = [matchCreated (match_view st' ml); update st'] /\
  match_view st' ml
  = mkMatchView uuid
      ((fun e => mkPlayerBrief (qp_id (entry_player e)) (qp_name (entry_player e))
                   (qp_ranking (entry_player e)))
         <$> take 4 (queue (getQueueStatus st)))
      now active /\
  length (mv_players (match_view st' ml)) = 4 /\
  queue (getQueueStatus st')
  = (fun e => mkQueueEntry (position e - 4) (entry_player e) (entry_joinTime e))
      <$> drop 4 (queue (getQueueStatus st)).
Proof.
  intros Hok st'. subst st'. unfold emitted.
  unfold create_match in *.
  destruct (decide (length (badmintonQueue st) < 4)) as [Hlt|Hge].
  { by rewrite createMatch_failure in Hok. }
  rewrite createMatch_success in Hok |- * by lia.
  cbn [fst snd] in *. injection Hok as <-.
  split; [done|].
  set (f := fun p => set_isInMatch true (set_isInQueue false p)).
  assert (Hid : forall l,
            p_id (alter_all player f (heap st) (take 4 (badmintonQueue st)) !!! l)
            = p_id (heap st !!! l))
    by (intros; by apply alter_all_total_field).
  assert (Hname : forall l,
            p_name (alter_all player f (heap st) (take 4 (badmintonQueue st)) !!! l)
            = p_name (heap st !!! l))
    by (intros; by apply alter_all_total_field).
  assert (Hrank : forall l,
            ranking (alter_all player f (heap st) (take 4 (badmintonQueue st)) !!! l)
            = ranking (heap st !!! l))
    by (intros; by apply alter_all_total_field).
  assert (Hview : mv_players
            (match_view
               (mkState
                  (alter_all player f (heap st) (take 4 (badmintonQueue st)))
                  (match_heap st
                   ++ [mkMatch uuid (player <$> take 4 (badmintonQueue st)) now
                         None None None active])
                  (players st)
                  (JS.set uuid (length (match_heap st)) (matches st))
                  (activeMatches st ++ [length (match_heap st)])
                  (completedMatches st) (drop 4 (badmintonQueue st)) (flagged st))
               (length (match_heap st)))
          = (fun e => mkPlayerBrief (qp_id (entry_player e))
                        (qp_name (entry_player e)) (qp_ranking (entry_player e)))
              <$> take 4 (queue (getQueueStatus st))).
  { unfold match_view, getQueueStatus. cbn [match_heap heap mv_players queue].
    rewrite list_lookup_total_middle by done. cbn [m_players].
    apply list_eq. intros k.
    rewrite <- list_fmap_compose, !list_lookup_fmap.
    destruct (decide (k < 4)) as [Hk|Hk].
    - rewrite !lookup_take_lt, list_lookup_imap by done.
      destruct (badmintonQueue st !! k) as [q|]; [|done]. cbn.
      unfold brief. by rewrite Hid, Hname, Hrank.
    - by rewrite !lookup_take_ge by lia. }
  split_and!.
  - unfold match_view in *. cbn [match_heap heap mv_players] in *.
    rewrite list_lookup_total_middle in * by done.
    cbn [m_id m_players startTime status] in *. by rewrite Hview.
  - rewrite Hview, length_fmap, length_take. unfold getQueueStatus. cbn [queue].
    rewrite length_imap. lia.
  - unfold getQueueStatus. cbn [badmintonQueue heap queue].
    apply list_eq. intros k.
    rewrite list_lookup_fmap, lookup_drop, !list_lookup_imap, lookup_drop.
    destruct (badmintonQueue st !! (4 + k)) as [q|]; [|done]. cbn.
    rewrite Hid, Hname, Hrank. do 2 f_equal. lia.
Qed.

(** ** First come, first served *)

Section SortOrder.
Context {A : Type} (cmp : A -> A -> float).
Implicit Types (l a : list A).

Lemma consistent_on_subseteq l l' :
  l' ⊆ l -> JS.consistent_on cmp l -> JS.consistent_on cmp l'.
Proof.
  intros Hsub [Hasym Htrans]. split.
  - intros x y Hx Hy. apply Hasym; by apply Hsub.
  - intros x y z Hx Hy Hz. apply Htrans; by apply Hsub.
Qed.

Lemma Sorted_impl_on (R R' : relation A) l :
  (forall x y, x ∈ l -> y ∈ l -> R x y -> R' x y) -> Sorted R l -> Sorted R' l.
Proof.
  intros Himpl. induction 1 as [|x l Hl IH Hhd]; [constructor|].
  constructor.
  - apply IH. intros a b ? ?. apply Himpl; by right.
  - destruct Hhd; constructor. apply Himpl; [by left|right; by left|done].
Qed.

Lemma Sorted_StronglySorted_on (R : relation A) l :
  (forall x y z, x ∈ l -> y ∈ l -> z ∈ l -> R x y -> R y z -> R x z) ->
  Sorted R l -> StronglySorted R l.
Proof.
  intros Htrans. induction 1 as [|x l Hl IH Hhd]; [constructor|].
  assert (IH' : StronglySorted R l).
  { apply IH. intros a b c ? ? ?. apply Htrans; by right. }
  constructor; [done|].
  destruct Hhd as [|y l Hxy]; [constructor|].
  apply StronglySorted_cons in IH' as [Hall _].
  constructor; [done|].
  rewrite Forall_forall in *. intros z Hz.
  apply (Htrans x y z); [by left|right; by left|by do 2 right|done|by apply Hall].
Qed.

Lemma run_tail_Sorted isDescending previous l :
  Sorted (fun x y => JS.before cmp y x = isDescending)
    (take (S (JS.run_tail cmp isDescending previous l)) (previous :: l)).
Proof.
  revert previous. induction l as [|current l IH]; intros previous; cbn.
  - repeat constructor.
  - destruct (Bool.eqb _ _) eqn:Heq; [|repeat constructor].
    apply Bool.eqb_prop in Heq. constructor; [apply IH|]. by constructor.
Qed.

Lemma countAndMakeRun_Sorted l :
  JS.consistent_on cmp l -> Sorted (JS.not_after cmp) (JS.countAndMakeRun cmp l).1.
Proof.
  intros [Hasym _]. unfold JS.countAndMakeRun.
  destruct l as [|elementHigh [|elementLow l]]; [repeat constructor..|].
  cbn [fst].
  assert (Hrun : forall isDescending,
            JS.before cmp elementLow elementHigh = isDescending ->
            Sorted (fun x y => JS.before cmp y x = isDescending)
              (take (2 + JS.run_tail cmp isDescending elementLow l)
                 (elementHigh :: elementLow :: l))).
  { intros isDescending Hd.
    change (take _ _) with
      (elementHigh
       :: take (S (JS.run_tail cmp isDescending elementLow l)) (elementLow :: l)).
    constructor; [apply run_tail_Sorted|]. cbn. by constructor. }
  destruct (JS.before cmp elementLow elementHigh) eqn:Hd; [|by apply Hrun].
  specialize (Hrun true eq_refl).
  apply Sorted_reverse in Hrun. revert Hrun. apply Sorted_impl_on.
  intros x y Hx%elem_of_reverse%subseteq_take Hy%elem_of_reverse%subseteq_take Hxy.
  by apply Hasym.
Qed.

Lemma search_spec fuel pivot a left right :
  JS.consistent_on cmp (pivot :: a) -> StronglySorted (JS.not_after cmp) a ->
  left <= right <= length a -> right - left <= fuel ->
  (forall x, x ∈ take left a -> JS.not_after cmp x pivot) ->
  (forall x, x ∈ drop right a -> JS.not_after cmp pivot x) ->
  (forall x, x ∈ take (JS.search cmp fuel pivot a left right) a ->
     JS.not_after cmp x pivot) /\
  (forall x, x ∈ drop (JS.search cmp fuel pivot a left right) a ->
     JS.not_after cmp pivot x).
Proof.
  intros [Hasym Htrans] Hsorted. revert left right.
  induction fuel as [|fuel IH]; intros left right Hrange Hfuel Hleft Hright;
    cbn [JS.search].
  { assert (left = right) as -> by lia. by split. }
  destruct (left <? right) eqn:Hlt; [apply Nat.ltb_lt in Hlt|apply Nat.ltb_ge in Hlt].
  2:{ assert (left = right) as -> by lia. by split. }
  set (mid := left + (right - left) / 2).
  assert (Hmid : left <= mid < right).
  { subst mid. split; [lia|].
    pose proof (Nat.Div0.div_le_upper_bound (right - left) 2 (right - left)). 
    assert ((right - left) / 2 < right - left); [|lia].
    apply Nat.div_lt; lia. }
  destruct (a !! mid) as [x|] eqn:Hx.
  2:{ apply lookup_ge_None in Hx. lia. }
  pose proof (take_drop_middle a mid x Hx) as Ha.
  assert (Hin : x ∈ a) by eauto using list_elem_of_lookup_2.
  rewrite <- Ha in Hsorted.
  apply StronglySorted_app in Hsorted as (Hbefore & _ & [Hafter _]%StronglySorted_cons).
  rewrite Forall_forall in Hafter.
  destruct (JS.before cmp pivot x) eqn:Hcmp.
  - apply IH; [lia|lia|done|].
    intros y Hy. rewrite (drop_S a x mid Hx) in Hy.
    assert (Hpx : JS.not_after cmp pivot x).
    { apply Hasym; [by left|by right|done]. }
    apply elem_of_cons in Hy as [->|Hy]; [done|].
    apply (Htrans pivot x y); [by left|by right| |done|by apply Hafter].
    right. by eapply subseteq_drop.
  - apply IH; [lia|lia| |done].
    intros y Hy. replace (mid + 1) with (S mid) in Hy by lia.
    rewrite (take_S_r a mid x Hx) in Hy.
    apply elem_of_app in Hy as [Hy|Hy]; [|by apply list_elem_of_singleton in Hy as ->].
    apply (Htrans y x pivot); [|by right|by left|apply Hbefore; [done|by left]|done].
    right. by eapply subseteq_take.
Qed.

Lemma binaryInsertion_StronglySorted a pivot :
  JS.consistent_on cmp (pivot :: a) -> StronglySorted (JS.not_after cmp) a ->
  StronglySorted (JS.not_after cmp) (JS.binaryInsertion cmp a pivot).
Proof.
  intros Hcons Hsorted. unfold JS.binaryInsertion.
  destruct (search_spec (length a) pivot a 0 (length a) Hcons Hsorted)
    as [Hleft Hright]; [lia|lia|by intros x ?%elem_of_nil| |].
  { rewrite drop_all. by intros x ?%elem_of_nil. }
  set (k := JS.search cmp (length a) pivot a 0 (length a)) in *.
  rewrite <- (take_drop k a) in Hsorted.
  apply StronglySorted_app in Hsorted as (Hacross & Htake & Hdrop).
  apply StronglySorted_app. split_and!; [|done|].
  - intros x y Hx [->|Hy]%elem_of_cons; [by apply Hleft|by apply Hacross].
  - apply StronglySorted_cons. split; [|done]. by apply Forall_forall.
Qed.

Lemma binaryInsertionSort_StronglySorted rest run :
  JS.consistent_on cmp (run ++ rest) -> StronglySorted (JS.not_after cmp) run ->
  StronglySorted (JS.not_after cmp) (foldl (JS.binaryInsertion cmp) run rest).
Proof.
  revert run. induction rest as [|pivot rest IH]; intros run Hcons Hsorted; [done|].
  cbn. apply IH.
  - revert Hcons. apply consistent_on_subseteq. intros x.
    rewrite elem_of_app, binaryInsertion_Permutation, elem_of_cons,
      elem_of_app, elem_of_cons. tauto.
  - apply binaryInsertion_StronglySorted; [|done].
    revert Hcons. apply consistent_on_subseteq. intros x.
    rewrite elem_of_cons, elem_of_app, elem_of_cons. tauto.
Qed.

Lemma sort_StronglySorted l :
  JS.consistent_on cmp l -> StronglySorted (JS.not_after cmp) (JS.sort cmp l).
Proof.
  intros Hcons. unfold JS.sort.
  pose proof (countAndMakeRun_Sorted l Hcons) as Hrun.
  pose proof (countAndMakeRun_Permutation cmp l) as Hperm.
  destruct (JS.countAndMakeRun cmp l) as [run rest]. cbn [fst snd] in *.
  apply binaryInsertionSort_StronglySorted.
  - revert Hcons. apply consistent_on_subseteq. intros x. by rewrite Hperm.
  - apply Sorted_StronglySorted_on; [|done].
    destruct Hcons as [_ Htrans]. intros x y z Hx Hy Hz.
    apply Htrans; rewrite <- Hperm, elem_of_app; by left.
Qed.

Lemma run_tail_ascending previous l :
  Sorted (JS.not_after cmp) (previous :: l) ->
  JS.run_tail cmp false previous l = length l.
Proof.
  revert previous. induction l as [|x l IH]; intros previous Hs; [done|].
  apply Sorted_inv in Hs as [Hs Hhd]. apply HdRel_inv in Hhd.
  cbn [JS.run_tail length]. unfold JS.not_after in Hhd. rewrite Hhd.
  cbn [Bool.eqb]. by rewrite IH.
Qed.

Lemma sort_sorted l : Sorted (JS.not_after cmp) l -> JS.sort cmp l = l.
Proof.
  intros Hs. unfold JS.sort, JS.countAndMakeRun.
  destruct l as [|x [|y l]]; [done..|].
  apply Sorted_inv in Hs as [Hs Hhd]. apply HdRel_inv in Hhd.
  unfold JS.not_after in Hhd. rewrite Hhd, (run_tail_ascending _ _ Hs).
  rewrite take_ge, drop_ge by (cbn; lia). done.
Qed.
End SortOrder.

Lemma of_Z_not_negative (z : Z) :
  (0 <= z)%Z -> (z < 2 ^ 53)%Z -> (JS.of_Z z <? 0)%float = false.
Proof.
  intros Hz Hlo. rewrite ltb_spec, Prim2SF_of_Z by lia.
  destruct z as [|m|m]; [done|done|lia].
Qed.

Lemma never_played_weight now p :
  lastMatchTime p = None -> (ranking p <? 1000)%float = false ->
  queueWeight (calculateQueueWeight now p) = 1%float.
Proof.
  intros Hlast Hrank. unfold calculateQueueWeight. rewrite Hlast, Hrank.
  cbn [queueWeight set_queueWeight]. by vm_compute.
Qed.

(** X22: first come, first served among players who have not played yet.
    When every entry of the queue has the weight 1 and the entries are in the
    order of their join times, none later than now, then admitting an idle
    player who has never played and is rated 1000 or more appends its entry to
    the queue, which is otherwise unchanged, and answers the last position. *)
Theorem addPlayer_first_come_first_served (now : Z) (pl : loc) (st : State) :
  wf st -> pl < length (heap st) ->
  membership (heap st !!! pl) = Idle ->
  lastMatchTime (heap st !!! pl) = None ->
  (ranking (heap st !!! pl) <? 1000)%float = false ->
  (forall e, e ∈ badmintonQueue st ->
     weight e = 1%float /\ (0 <= joinTime e <= now)%Z) ->
  Sorted (fun a b => (joinTime a <= joinTime b)%Z) (badmintonQueue st) ->
  (now < 2 ^ 53)%Z ->
  badmintonQueue (addPlayer now pl st).1
  = badmintonQueue st ++ [mkQueueItem pl now 1] /\
  (addPlayer now pl st).2
  = Success (Z.of_nat (length (badmintonQueue st)) + 1)%Z.
Proof.
  intros Hwf Hpl Hidle Hlast Hrank Hq Hsorted Hnow.
  apply membership_Idle in Hidle.
  destruct (addPlayer_position now pl st Hwf Hpl Hidle) as (i & Hadd & Hi & Honly).
  rewrite (never_played_weight now _ Hlast Hrank) in Hadd, Hi.
  set (item := mkQueueItem pl now 1) in *.
  assert (Hcmp : forall a b, weight a = 1%float -> weight b = 1%float ->
            (joinTime a <= joinTime b)%Z ->
            (0 <= joinTime a)%Z -> (joinTime b < 2 ^ 53)%Z ->
            JS.not_after compareFn a b).
  { intros a b Ha Hb Hle H0 Hb53. unfold JS.not_after, JS.before, compareFn.
    rewrite Ha, Hb.
    replace (JS.Math_abs (1 - 1) <? 0.01)%float with true by (by vm_compute).
    apply of_Z_not_negative; lia. }
  assert (Hsorted' : Sorted (JS.not_after compareFn) (badmintonQueue st ++ [item])).
  { clear Hadd Hi Honly. revert Hq Hsorted.
    induction (badmintonQueue st) as [|a q IH]; intros Hq Hsorted.
    - cbn. repeat constructor.
    - cbn. apply Sorted_inv in Hsorted as [Hsorted Hhd].
      constructor.
      + apply IH; [|done]. intros e He. apply Hq. by right.
      + destruct (Hq a) as [Ha Hta]; [by left|].
        destruct Hhd as [|b q Hab]; cbn; constructor.
        * apply Hcmp; cbn; try done; lia.
        * destruct (Hq b) as [Hb Htb]; [right; by left|].
          apply Hcmp; try done; lia. }
  rewrite (sort_sorted _ _ Hsorted') in Hadd.
  rewrite Hadd in Hi, Honly |- *.
  cbn [fst snd badmintonQueue set_badmintonQueue set_heap] in *.
  split; [done|].
  assert (i = length (badmintonQueue st)) as ->; [|done].
  symmetry. apply (Honly _ item); [|done].
  by rewrite list_lookup_middle.
Qed.

(** X23: where the comparison of [addPlayer] is consistent on the entries of
    the new queue, an admission leaves the queue in the order of the
    comparison, whatever its order was before: no entry stands behind one that
    the comparison puts after it. *)
Theorem addPlayer_queue_sorted (now : Z) (pl : loc) (st : State) :
  let q' := badmintonQueue (addPlayer now pl st).1 in
  membership (heap st !!! pl) = Idle ->
  JS.consistent_on compareFn q' ->
  StronglySorted (JS.not_after compareFn) q'.
Proof.
  intros q' Hidle. subst q'. apply membership_Idle in Hidle.
  destruct (addPlayer_Idle now pl st Hidle) as [rank ->].
  cbn [fst badmintonQueue set_badmintonQueue]. intros Hcons.
  apply sort_StronglySorted. revert Hcons. apply consistent_on_subseteq.
  intros x. by rewrite sort_Permutation.
Qed.

(** ** The client's selection *)

Lemma filter_all {A} (P : A -> Prop) `{!forall x, Decision (P x)} (l : list A) :
  (forall x, x ∈ l -> P x) -> filter P l = l.
Proof.
  induction l as [|x l IH]; intros Hall; [done|].
  rewrite filter_cons_True by (apply Hall; by left).
  f_equal. apply IH. intros y Hy. apply Hall. by right.
Qed.

(** X24: clicking player cards keeps the client's selection of winners free of
    duplicates and of at most two ids; a click on a selected player takes it
    out, a click on another adds it at the end if there is room, and clicking
    the same card twice gives the same selection again, up to the order. *)
Theorem toggleWinnerSelection_spec (playerId : JS.string)
    (selectedWinners : list JS.string) :
  NoDup selectedWinners -> length selectedWinners <= 2 ->
  let sel' := toggleWinnerSelection playerId selectedWinners in
  NoDup sel' /\ length sel' <= 2 /\
  (playerId ∈ selectedWinners ->
     (playerId ∉ sel') /\ selectedWinners ≡ₚ playerId :: sel') /\
  (playerId ∉ selectedWinners -> length selectedWinners < 2 ->
     sel' = selectedWinners ++ [playerId]) /\
  (playerId ∉ selectedWinners -> length selectedWinners = 2 ->
     sel' = selectedWinners) /\
  toggleWinnerSelection playerId sel' ≡ₚ selectedWinners.
Proof.
  intros Hnd Hlen sel'. subst sel'. unfold toggleWinnerSelection.
  assert (Hrem : playerId ∈ selectedWinners ->
            selectedWinners
            ≡ₚ playerId :: filter (fun id => id ≠ playerId) selectedWinners).
  { intros Hin. apply NoDup_Permutation; [done| |].
    - apply NoDup_cons. split; [|by apply NoDup_filter].
      rewrite list_elem_of_filter. tauto.
    - intros x. rewrite elem_of_cons, list_elem_of_filter.
      destruct (decide (x = playerId)) as [->|]; tauto. }
  assert (Hnotin : playerId ∉ filter (fun id => id ≠ playerId) selectedWinners).
  { rewrite list_elem_of_filter. tauto. }
  destruct (decide (playerId ∈ selectedWinners)) as [Hin|Hout].
  - rewrite (bool_decide_eq_true_2 _ Hin).
    pose proof (Hrem Hin) as Hperm.
    assert (Hlen' : S (length (filter (fun id => id ≠ playerId) selectedWinners))
                    = length selectedWinners).
    { by rewrite Hperm at 2. }
    split_and!; [by apply NoDup_filter|lia|done|done|done|].
    rewrite (bool_decide_eq_false_2 _ Hnotin).
    rewrite (proj2 (Nat.ltb_lt _ _)) by lia.
    rewrite Hperm at 2. by rewrite Permutation_app_comm.
  - rewrite (bool_decide_eq_false_2 _ Hout).
    destruct (length selectedWinners <? 2) eqn:Hroom.
    + apply Nat.ltb_lt in Hroom.
      split_and!; [|rewrite length_app; cbn; lia|done|done|lia|].
      * apply NoDup_app. split_and!; [done| |apply NoDup_singleton].
        intros x Hx ->%list_elem_of_singleton. done.
      * rewrite bool_decide_eq_true_2 by (apply elem_of_app; right; by left).
        rewrite filter_app, filter_cons_False, filter_nil, app_nil_r by tauto.
        rewrite filter_all; [done|]. intros x Hx ->. done.
    + apply Nat.ltb_ge in Hroom.
      split_and!; [done|done|done|lia|done|].
      rewrite (bool_decide_eq_false_2 _ Hout).
      by rewrite (proj2 (Nat.ltb_ge _ _)).
Qed.


Lemma toggle_keeps (playerId : JS.string) (sel : list JS.string) :
  NoDup sel -> length sel <= 2 ->
  NoDup (toggleWinnerSelection playerId sel) /\
  length (toggleWinnerSelection playerId sel) <= 2 /\
  forall x, x ∈ toggleWinnerSelection playerId sel -> x = playerId \/ x ∈ sel.
Proof.
  intros Hnd Hlen. unfold toggleWinnerSelection.
  destruct (bool_decide (playerId ∈ sel)) eqn:Hin.
  - split_and!; [by apply NoDup_filter| |].
    + pose proof (length_filter (fun id => id ≠ playerId) sel). lia.
    + intros x [_ Hx]%list_elem_of_filter. by right.
  - apply bool_decide_eq_false in Hin.
    destruct (length sel <? 2) eqn:Hroom; [|by split_and!; auto].
    apply Nat.ltb_lt in Hroom. split_and!.
    + apply NoDup_app. split_and!; [done| |apply NoDup_singleton].
      intros x Hx ->%list_elem_of_singleton. done.
    + rewrite length_app. cbn. lia.
    + intros x [?|Hx]%elem_of_app; [auto|].
      apply list_elem_of_singleton in Hx. auto.
Qed.

(** X25: the client and the server agree. Whatever cards of an active match
    are clicked, starting from an empty selection, the client either holds
    fewer than two winners and posts nothing, or posts a complete-match that
    the server accepts for that match. *)
Theorem client_selection_accepted (pow_approx : float -> float -> float)
    (now : Z) (mid : JS.string) (clicks : list JS.string) (st : State)
    (ml : loc) :
  wf st -> mid <> [] -> active_match st mid = Some ml ->
  (forall c, c ∈ clicks -> c ∈ roster_ids st (match_heap st !!! ml)) ->
  let sel := foldl (fun s c => toggleWinnerSelection c s) [] clicks in
  match client_completeMatch mid sel with
  | Some (matchId, winnerIds) =>
      matchId = mid /\ winnerIds = sel /\
      (complete_match pow_approx now (Some matchId) (Some winnerIds) st).2
      = mkReply 200 (Success ml)
  | None => length sel < 2
  end.
Proof.
  intros Hwf Hmid Hactive Hclicks sel.
  assert (Hinv : NoDup sel /\ length sel <= 2 /\
                 forall x, x ∈ sel -> x ∈ roster_ids st (match_heap st !!! ml)).
  { subst sel. revert Hclicks.
    generalize (roster_ids st (match_heap st !!! ml)). intros ids.
    assert (Hinit : NoDup (@nil JS.string) /\ length (@nil JS.string) <= 2 /\
                    forall x, x ∈ @nil JS.string -> x ∈ ids).
    { split_and!; [constructor|cbn; lia|by intros ? ?%elem_of_nil]. }
    revert Hinit. generalize (@nil JS.string).
    induction clicks as [|c clicks IH]; intros s Hs Hclicks; [done|].
    cbn [foldl]. apply IH.
    - destruct Hs as (Hnd & Hlen & Hsub).
      destruct (toggle_keeps c s Hnd Hlen) as (Hnd' & Hlen' & Hin').
      split_and!; [done..|]. intros x [->|Hx]%Hin'; [|auto].
      apply Hclicks. by left.
    - intros x Hx. apply Hclicks. by right. }
  destruct Hinv as (Hnd & Hlen & Hsub).
  unfold client_completeMatch.
  destruct (length sel =? 2) eqn:H2; cbn [negb]; lazy beta iota.
  - apply Nat.eqb_eq in H2. split; [done|]. split; [done|].
    exact (f_equal snd
             (complete_match_accepts pow_approx now mid sel st ml
                Hwf Hmid Hactive (conj H2 (conj Hnd Hsub)))).
  - apply Nat.eqb_neq in H2. lia.
Qed.

(** ** Closed instances *)

Lemma one_idle_wf : wf one_idle.
Proof.
  apply (reachable_wf unreached_pow), run_reachable; [constructor|].
  apply (bool_decide_unpack _). vm_compute. exact I.
Qed.

Lemma four_queued_wf : wf four_queued.
Proof.
  apply (reachable_wf unreached_pow), run_reachable; [constructor|].
  apply (bool_decide_unpack _). vm_compute. exact I.
Qed.

Lemma one_match_wf : wf one_match.
Proof.
  apply (run_wf unreached_pow); [apply four_queued_wf|].
  apply (bool_decide_unpack _). vm_compute. exact I.
Qed.

(** [admit_then_withdraw] at the state [one_idle]. *)
Lemma admit_then_withdraw_witness :
  wf one_idle /\ 0 < length (heap one_idle) /\
  membership (heap one_idle !!! 0) = Idle /\
  (let st1 := (addPlayer 5%Z 0 one_idle).1 in
  let r := removePlayer (p_id (heap st1 !!! 0)) st1 in
  (exists rank, (addPlayer 5%Z 0 one_idle).2 = Success rank) /\
  membership (heap st1 !!! 0) = Queued /\
  length (badmintonQueue st1) = S (length (badmintonQueue one_idle)) /\
  r.2 = Success 0 /\
  membership (heap r.1 !!! 0) = Idle /\
  length (badmintonQueue r.1) = length (badmintonQueue one_idle)).
Proof.
  split; [apply one_idle_wf|]. split; [vm_compute; lia|]. split; [reflexivity|].
  apply (admit_then_withdraw 5 0 one_idle);
    [apply one_idle_wf|vm_compute; lia|reflexivity].
Defined.

(** [removePlayer_frame] at the state [four_queued], for its second player. *)
Lemma removePlayer_frame_witness :
  wf four_queued /\ 1 < length (heap four_queued) /\
  membership (heap four_queued !!! 1) = Queued /\
  (let this := heap four_queued !!! 1 in
  let r := removePlayer (p_id this) four_queued in
  r.2 = Success 1 /\
  heap r.1 = <[1 := set_isInQueue false this]> (heap four_queued) /\
  membership (heap r.1 !!! 1) = Idle /\
  ranking (heap r.1 !!! 1) = ranking this /\
  wins (heap r.1 !!! 1) = wins this /\
  losses (heap r.1 !!! 1) = losses this /\
  totalMatches (heap r.1 !!! 1) = totalMatches this /\
  lastMatchTime (heap r.1 !!! 1) = lastMatchTime this /\
  (forall l, l <> 1 -> heap r.1 !!! l = heap four_queued !!! l) /\
  (exists i item,
     badmintonQueue four_queued !! i = Some item /\ player item = 1 /\
     badmintonQueue r.1 = delete i (badmintonQueue four_queued) /\
     1 ∉ player <$> badmintonQueue r.1) /\
  r.1 = set_badmintonQueue (badmintonQueue r.1) (set_heap (heap r.1) four_queued)).
Proof.
  split; [apply four_queued_wf|]. split; [vm_compute; lia|]. split; [reflexivity|].
  apply (removePlayer_frame 1 four_queued);
    [apply four_queued_wf|vm_compute; lia|reflexivity].
Defined.

(** [createMatch_spec] at the state [four_queued]. *)
Lemma createMatch_spec_witness :
  wf four_queued /\
  (let r := createMatch 10%Z (JS.str "m") four_queued in
  (length (badmintonQueue four_queued) < 4 <-> r.2 = Failure InsufficientEntries) /\
  (length (badmintonQueue four_queued) < 4 -> r.1 = four_queued) /\
  (4 <= length (badmintonQueue four_queued) ->
     exists ml m,
       r.2 = Success ml /\ match_heap r.1 !! ml = Some m /\ status m = active /\
       m_players m = player <$> take 4 (badmintonQueue four_queued) /\
       length (m_players m) = 4 /\
       badmintonQueue four_queued = take 4 (badmintonQueue four_queued) ++ badmintonQueue r.1 /\
       badmintonQueue r.1 = drop 4 (badmintonQueue four_queued) /\
       (forall l, l ∈ m_players m ->
          membership (heap r.1 !!! l) = InSession /\
          isInQueue (heap r.1 !!! l) = false) /\
       (forall l, l ∉ m_players m -> heap r.1 !!! l = heap four_queued !!! l))).
Proof.
  split; [apply four_queued_wf|].
  apply (createMatch_spec 10 (JS.str "m") four_queued), four_queued_wf.
Defined.

(** [complete_match_settles] at the state [one_match], the first two players
    winning. *)
Lemma complete_match_settles_witness :
  wf one_match /\
  (complete_match unreached_pow 1000 (Some (JS.str "m"))
     (Some [JS.str "a"; JS.str "b"]) one_match).2 = mkReply 200 (Success 0) /\
  (let st' := (complete_match unreached_pow 1000%Z (Some (JS.str "m")) (Some [JS.str "a"; JS.str "b"]) one_match).1 in
  exists m wids,
    (Some [JS.str "a"; JS.str "b"]) = Some wids /\ match_heap one_match !! 0 = Some m /\
    let winners := winners_of one_match m wids in
    let losers := losers_of one_match m wids in
    let winnerAvg :=
      arithmetic_mean ((fun l => ranking (heap one_match !!! l)) <$> winners) in
    let loserAvg :=
      arithmetic_mean ((fun l => ranking (heap one_match !!! l)) <$> losers) in
    length winners = 2 /\ length losers = 2 /\
    (forall l, l ∈ m_players m ->
       let p := heap one_match !!! l in
       let p' := heap st' !!! l in
       (l ∈ winners /\
        ranking p' = elo_rating unreached_pow (ranking p) loserAvg true /\
        wins p' = (wins p + 1)%Z /\ losses p' = losses p
        \/
        l ∈ losers /\
        ranking p' = elo_rating unreached_pow (ranking p) winnerAvg false /\
        wins p' = wins p /\ losses p' = (losses p + 1)%Z) /\
       totalMatches p' = (totalMatches p + 1)%Z /\
       lastMatchTime p' = Some 1000%Z /\
       membership p' = Idle) /\
    (forall l, l ∉ m_players m -> heap st' !!! l = heap one_match !!! l) /\
    completeMatch unreached_pow 1000%Z 0 winners losers one_match
    = completeMatch_losers_first unreached_pow 1000%Z 0 winners losers one_match).
Proof.
  split; [apply one_match_wf|]. split; [reflexivity|].
  apply (complete_match_settles unreached_pow 1000 (Some (JS.str "m"))
           (Some [JS.str "a"; JS.str "b"]) one_match 0);
    [apply one_match_wf|reflexivity].
Defined.

(** [complete_match_failures] at the state [one_match], for a request that
    names one member of the roster and one stranger. *)
Lemma complete_match_failures_witness :
  wf one_match /\
  (let r := complete_match unreached_pow 1000%Z (Some (JS.str "m")) (Some [JS.str "a"; JS.str "x"]) one_match in
  (malformed (Some (JS.str "m")) (Some [JS.str "a"; JS.str "x"]) ->
     r = (one_match, InvalidOutcome "Match ID and 2 winner IDs required")) /\
  (forall mid wids,
     (Some (JS.str "m")) = Some mid -> (Some [JS.str "a"; JS.str "x"]) = Some wids -> mid <> [] -> length wids = 2 ->
     (active_match one_match mid = None -> r = (one_match, SessionNotFound)) /\
     (forall ml, active_match one_match mid = Some ml ->
        (~ names_half one_match (match_heap one_match !!! ml) wids ->
           r = (one_match, InvalidOutcome "Invalid winner selection")) /\
        (names_half one_match (match_heap one_match !!! ml) wids ->
           r.2 = mkReply 200 (Success ml)))) /\
  (code r.2 <> 200%Z -> r.1 = one_match) /\
  (code r.2 = 200%Z ->
     forall now',
       complete_match unreached_pow now' (Some (JS.str "m")) (Some [JS.str "a"; JS.str "x"]) r.1 = (r.1, SessionNotFound))).
Proof.
  split; [apply one_match_wf|].
  apply (complete_match_failures unreached_pow 1000 (Some (JS.str "m"))
           (Some [JS.str "a"; JS.str "x"]) one_match), one_match_wf.
Defined.

(** [join_lookup_or_create] at the state [four_queued], for the name
    [" Bob "], which one of its players carries once trimmed. *)
Lemma join_lookup_or_create_witness :
  wf four_queued /\ (JS.str "e" ∉ p_id <$> heap four_queued) /\
  JS.trim (JS.str " Bob ") <> [] /\
  (let name := JS.trim (JS.str " Bob ") in
  let r := join 4%Z (JS.str "e") (Some (JS.str " Bob ")) four_queued in
  exists pl res,
    r.2 = join_200 res pl /\
    (forall pl0, find_by_name name four_queued = Some pl0 ->
       pl = pl0 /\ p_name (heap four_queued !!! pl) = name /\
       r.1 = (addPlayer 4%Z pl four_queued).1 /\ res = (addPlayer 4%Z pl four_queued).2 /\
       length (heap r.1) = length (heap four_queued) /\ players r.1 = players four_queued) /\
    (find_by_name name four_queued = None ->
       let st1 :=
         set_players (JS.set (JS.str "e") pl (players four_queued))
           (set_heap (heap four_queued ++ [new_Player (JS.str "e") name]) four_queued) in
       pl = length (heap four_queued) /\
       heap st1 !!! pl = new_Player (JS.str "e") name /\
       ranking (new_Player (JS.str "e") name) = 1200%float /\
       r.1 = (addPlayer 4%Z pl st1).1 /\ res = (addPlayer 4%Z pl st1).2 /\
       (exists rank, res = Success rank) /\
       length (heap r.1) = S (length (heap four_queued)) /\
       ranking (heap r.1 !!! pl) = 1200%float /\
       JS.get (JS.str "e") (players r.1) = Some pl) /\
    p_name (heap r.1 !!! pl) = name /\
    (forall rs now' uuid' playerName',
       fresh_run unreached_pow r.1 rs -> JS.trim playerName' = name ->
       let st2 := run unreached_pow rs r.1 in
       let r' := join now' uuid' (Some playerName') st2 in
       (exists res', r'.2 = join_200 res' pl) /\
       length (heap r'.1) = length (heap st2) /\
       players r'.1 = players st2)).
Proof.
  split; [apply four_queued_wf|].
  split; [apply (bool_decide_unpack _); vm_compute; exact I|].
  split; [discriminate|].
  apply (join_lookup_or_create unreached_pow 4 (JS.str "e") (JS.str " Bob ")
           four_queued);
    [apply four_queued_wf|apply (bool_decide_unpack _); vm_compute; exact I|discriminate].
Defined.

(** ** More closed instances *)

Lemma four_queued_in_service : in_service unreached_pow four_queued.
Proof.
  apply run_in_service; [constructor|].
  apply (bool_decide_unpack _). vm_compute. exact I.
Qed.

Lemma one_match_in_service : in_service unreached_pow one_match.
Proof.
  apply run_in_service; [apply four_queued_in_service|].
  apply (bool_decide_unpack _). vm_compute. exact I.
Qed.

Lemma one_done_in_service : in_service unreached_pow one_done.
Proof.
  apply run_in_service; [apply one_match_in_service|].
  apply (bool_decide_unpack _). vm_compute. exact I.
Qed.

Lemma two_queued_one_idle_wf : wf two_queued_one_idle.
Proof.
  apply (reachable_wf unreached_pow), run_reachable; [constructor|].
  apply (bool_decide_unpack _). vm_compute. exact I.
Qed.

(** [addPlayer_spec] at the state [two_queued_one_idle]: the idle player is
    admitted at the instant 5, behind the two who wait. *)
Lemma addPlayer_spec_witness :
  wf two_queued_one_idle /\ 2 < length (heap two_queued_one_idle) /\
  (let this := heap two_queued_one_idle !!! 2 in
  let st' := (addPlayer 5%Z 2 two_queued_one_idle).1 in
  (membership this <> Idle
   <-> (addPlayer 5%Z 2 two_queued_one_idle).2 = Failure AlreadyActive) /\
  (membership this <> Idle -> st' = two_queued_one_idle) /\
  (membership this = Idle ->
     let item := mkQueueItem 2 5%Z (queueWeight (calculateQueueWeight 5%Z this)) in
     st' = set_badmintonQueue (badmintonQueue st')
             (set_heap (heap st') two_queued_one_idle) /\
     heap st' = <[2 := calculateQueueWeight 5%Z (set_isInQueue true this)]>
                  (heap two_queued_one_idle) /\
     membership (heap st' !!! 2) = Queued /\
     badmintonQueue st' ≡ₚ item :: badmintonQueue two_queued_one_idle /\
     exists i,
       (addPlayer 5%Z 2 two_queued_one_idle).2 = Success (Z.of_nat i + 1)%Z /\
       badmintonQueue st' !! i = Some item /\
       forall j e, badmintonQueue st' !! j = Some e -> player e = 2 -> j = i)).
Proof.
  split; [apply two_queued_one_idle_wf|]. split; [vm_compute; lia|].
  apply (addPlayer_spec 5 2 two_queued_one_idle);
    [apply two_queued_one_idle_wf|vm_compute; lia].
Defined.

(** [membership_moves] at [four_queued]: the second player leaves. *)
Lemma membership_moves_witness :
  wf four_queued /\ heap four_queued !! 1 = Some (heap four_queued !!! 1%nat) /\
  exists p',
    heap (step unreached_pow four_queued (Leave (JS.str "b"))) !! 1 = Some p' /\
    (membership p' = membership (heap four_queued !!! 1%nat) \/
     membership (heap four_queued !!! 1%nat) = Queued /\ membership p' = Idle).
Proof.
  split; [apply four_queued_wf|]. split; [vm_compute; reflexivity|].
  apply (membership_moves unreached_pow four_queued (Leave (JS.str "b")) 1);
    [apply four_queued_wf|vm_compute; reflexivity].
Defined.

(** [record_changes_on_completion_only] at [one_match], for the first player
    when the match is completed. *)
Lemma record_changes_on_completion_only_witness :
  wf one_match /\ heap one_match !! 0 = Some (heap one_match !!! 0%nat) /\
  exists p',
    heap (step unreached_pow one_match
            (CompleteMatch 1000 (Some (JS.str "m"))
               (Some [JS.str "a"; JS.str "b"]))) !! 0 = Some p' /\
    p_id p' = p_id (heap one_match !!! 0%nat) /\
    p_name p' = p_name (heap one_match !!! 0%nat) /\
    queueWeight p' = queueWeight (heap one_match !!! 0%nat) /\
    (p' = heap one_match !!! 0%nat \/
     lastMatchTime p' = Some 1000%Z /\
     totalMatches p' = (totalMatches (heap one_match !!! 0%nat) + 1)%Z /\
     (wins p' = (wins (heap one_match !!! 0%nat) + 1)%Z /\
      losses p' = losses (heap one_match !!! 0%nat) \/
      wins p' = wins (heap one_match !!! 0%nat) /\
      losses p' = (losses (heap one_match !!! 0%nat) + 1)%Z)).
Proof.
  split; [apply one_match_wf|]. split; [vm_compute; reflexivity|].
  apply (record_changes_on_completion_only unreached_pow one_match
           (CompleteMatch 1000 (Some (JS.str "m"))
              (Some [JS.str "a"; JS.str "b"])) 0);
    [apply one_match_wf|vm_compute; reflexivity].
Defined.

(** [matches_persist] at [one_match], when its match is completed. *)
Lemma matches_persist_witness :
  match_heap one_match !! 0 = Some (match_heap one_match !!! 0%nat) /\
  exists m',
    match_heap (step unreached_pow one_match
                  (CompleteMatch 1000 (Some (JS.str "m"))
                     (Some [JS.str "a"; JS.str "b"]))) !! 0 = Some m' /\
    m_id m' = m_id (match_heap one_match !!! 0%nat) /\
    m_players m' = m_players (match_heap one_match !!! 0%nat) /\
    startTime m' = startTime (match_heap one_match !!! 0%nat) /\
    (m' = match_heap one_match !!! 0%nat \/
     exists now mid wids,
       CompleteMatch 1000 (Some (JS.str "m")) (Some [JS.str "a"; JS.str "b"])
       = CompleteMatch now (Some mid) (Some wids) /\
       JS.get mid (matches one_match) = Some 0 /\
       status (match_heap one_match !!! 0%nat) = active /\
       status m' = completed /\ endTime m' = Some now /\
       result m'
       = Some (winners_of one_match (match_heap one_match !!! 0%nat) wids,
               losers_of one_match (match_heap one_match !!! 0%nat) wids)).
Proof.
  split; [vm_compute; reflexivity|].
  apply (matches_persist unreached_pow one_match
           (CompleteMatch 1000 (Some (JS.str "m"))
              (Some [JS.str "a"; JS.str "b"])) 0).
  vm_compute; reflexivity.
Defined.

(** [leave_spec] at [four_queued], for the id of the second player. *)
Lemma leave_spec_witness :
  wf four_queued /\
  (let r := leave (JS.str "b") four_queued in
   code r.2 = 200%Z /\
   ((exists l p, heap four_queued !! l = Some p /\ p_id p = JS.str "b" /\
                 membership p = Queued)
    <-> exists pl, body r.2 = Success pl) /\
   (forall pl, body r.2 = Success pl ->
      p_id (heap four_queued !!! pl) = JS.str "b" /\
      membership (heap four_queued !!! pl) = Queued /\
      membership (heap r.1 !!! pl) = Idle /\
      S (length (badmintonQueue r.1)) = length (badmintonQueue four_queued)) /\
   ((forall pl, body r.2 <> Success pl) ->
    r = (four_queued, mkReply 200 (Failure NotQueued)))).
Proof.
  split; [apply four_queued_wf|].
  apply (leave_spec (JS.str "b") four_queued), four_queued_wf.
Defined.

(** [rejoin_spec] at [one_done], for the id of the first player. *)
Lemma rejoin_spec_witness :
  in_service unreached_pow one_done /\
  (let r := rejoin 2000 (JS.str "a") one_done in
   ((forall p, p ∈ heap one_done -> p_id p <> JS.str "a") ->
    inherited (JS.str "a") one_done = false -> r = (one_done, rejoin_json NotFound)) /\
   (forall l p, heap one_done !! l = Some p -> p_id p = JS.str "a" ->
      match membership p with
      | InSession =>
          r = (one_done,
               rejoin_json
                 (mkReply 400 (Failure "Player is currently in a match")))
      | Queued =>
          r = (one_done, rejoin_json (mkReply 200 (Failure AlreadyActive)))
      | Idle =>
          (exists rank, r.2 = rejoin_json (mkReply 200 (Success rank))) /\
          membership (heap r.1 !!! l) = Queued /\
          length (badmintonQueue r.1) = S (length (badmintonQueue one_done))
      end)).
Proof.
  split; [apply one_done_in_service|].
  apply (rejoin_spec unreached_pow 2000 (JS.str "a") one_done),
    one_done_in_service.
Defined.

(** [counters_add_up] at [one_done], for the first player. *)
Lemma counters_add_up_witness :
  in_service unreached_pow one_done /\ heap one_done !!! 0%nat ∈ heap one_done /\
  (totalMatches (heap one_done !!! 0%nat)
   = wins (heap one_done !!! 0%nat) + losses (heap one_done !!! 0%nat))%Z /\
  (0 <= wins (heap one_done !!! 0%nat))%Z /\
  (0 <= losses (heap one_done !!! 0%nat))%Z /\
  (lastMatchTime (heap one_done !!! 0%nat) = None
   <-> totalMatches (heap one_done !!! 0%nat) = 0%Z).
Proof.
  assert (Hin : heap one_done !!! 0%nat ∈ heap one_done).
  { apply (list_elem_of_lookup_2 _ 0). vm_compute. reflexivity. }
  split; [apply one_done_in_service|]. split; [exact Hin|].
  apply (counters_add_up unreached_pow one_done (heap one_done !!! 0%nat));
    [apply one_done_in_service|exact Hin].
Defined.

(** [players_found_by_id_and_name] at [one_done]. *)
Lemma players_found_by_id_and_name_witness :
  in_service unreached_pow one_done /\
  NoDup (p_id <$> heap one_done) /\ NoDup (p_name <$> heap one_done) /\
  forall l p, heap one_done !! l = Some p ->
    p_name p <> [] /\ JS.trim (p_name p) = p_name p /\
    JS.get (p_id p) (players one_done) = Some l /\
    find_by_name (p_name p) one_done = Some l.
Proof.
  split; [apply one_done_in_service|].
  apply (players_found_by_id_and_name unreached_pow one_done),
    one_done_in_service.
Defined.

(** [queue_entries_current] at [four_queued], for the first entry. *)
Lemma queue_entries_current_witness :
  in_service unreached_pow four_queued /\
  badmintonQueue four_queued !!! 0%nat ∈ badmintonQueue four_queued /\
  weight (badmintonQueue four_queued !!! 0%nat)
  = queueWeight (heap four_queued !!! player (badmintonQueue four_queued !!! 0%nat)) /\
  membership (heap four_queued !!! player (badmintonQueue four_queued !!! 0%nat))
  = Queued.
Proof.
  assert (Hin : badmintonQueue four_queued !!! 0%nat ∈ badmintonQueue four_queued).
  { apply (list_elem_of_lookup_2 _ 0). vm_compute. reflexivity. }
  split; [apply four_queued_in_service|]. split; [exact Hin|].
  apply (queue_entries_current unreached_pow four_queued);
    [apply four_queued_in_service|exact Hin].
Defined.



(** [join_position_in_status] at [four_queued], for a fifth player. *)
Lemma join_position_in_status_witness :
  wf four_queued /\ (JS.str "e" ∉ p_id <$> heap four_queued) /\
  (join 4 (JS.str "e") (Some (JS.str "Eve")) four_queued).2
  = join_200 (Success 5%Z) 4 /\
  (let st' := (join 4 (JS.str "e") (Some (JS.str "Eve")) four_queued).1 in
   exists i e,
     5%Z = (Z.of_nat i + 1)%Z /\
     queue (getQueueStatus st') !! i = Some e /\
     position e = 5%Z /\
     qp_id (entry_player e) = p_id (heap st' !!! 4%nat) /\
     qp_name (entry_player e) = p_name (heap st' !!! 4%nat) /\
     qp_weight (entry_player e) = queueWeight (heap st' !!! 4%nat) /\
     entry_joinTime e = 4%Z /\
     forall j e', queue (getQueueStatus st') !! j = Some e' ->
       qp_id (entry_player e') = p_id (heap st' !!! 4%nat) -> j = i).
Proof.
  split; [apply four_queued_wf|].
  split; [apply (bool_decide_unpack _); vm_compute; exact I|].
  split; [vm_compute; reflexivity|].
  apply (join_position_in_status 4 (JS.str "e") (Some (JS.str "Eve"))
           four_queued 5 4);
    [apply four_queued_wf|apply (bool_decide_unpack _); vm_compute; exact I
    |vm_compute; reflexivity].
Defined.


(** [created_match_can_be_completed] at [four_queued], the second and the
    fourth player of the queue being named as winners. *)
Lemma created_match_can_be_completed_witness :
  wf four_queued /\ JS.str "m" <> [] /\
  4 <= length (badmintonQueue four_queued) /\ 1 < 4 /\ 3 < 4 /\ 1 <> 3 /\
  (let id_at k :=
     p_id (heap four_queued !!! player (badmintonQueue four_queued !!! k)) in
   let st1 := (create_match 10 (JS.str "m") four_queued).1 in
   exists ml,
     (create_match 10 (JS.str "m") four_queued).2 = mkReply 200 (Success ml) /\
     active_match st1 (JS.str "m") = Some ml /\
     (complete_match unreached_pow 1000 (Some (JS.str "m"))
        (Some [id_at 1; id_at 3]) st1).2
     = mkReply 200 (Success ml)).
Proof.
  split; [apply four_queued_wf|]. split; [discriminate|].
  split; [vm_compute; lia|]. split; [lia|]. split; [lia|]. split; [lia|].
  apply (created_match_can_be_completed unreached_pow 10 1000 (JS.str "m")
           four_queued 1 3);
    [apply four_queued_wf|discriminate|vm_compute; lia|lia|lia|lia].
Defined.

(** [settled_players_can_rejoin] at [one_match], for the third player. *)
Lemma settled_players_can_rejoin_witness :
  in_service unreached_pow one_match /\
  (complete_match unreached_pow 1000 (Some (JS.str "m"))
     (Some [JS.str "a"; JS.str "b"]) one_match).2 = mkReply 200 (Success 0) /\
  2 ∈ m_players (match_heap one_match !!! 0%nat) /\
  (let st' := (complete_match unreached_pow 1000 (Some (JS.str "m"))
                 (Some [JS.str "a"; JS.str "b"]) one_match).1 in
   let r := rejoin 2000 (p_id (heap one_match !!! 2%nat)) st' in
   (exists rank, r.2 = rejoin_json (mkReply 200 (Success rank))) /\
   membership (heap r.1 !!! 2%nat) = Queued /\
   lastMatchTime (heap r.1 !!! 2%nat) = Some 1000%Z /\
   length (badmintonQueue r.1) = S (length (badmintonQueue one_match))).
Proof.
  assert (Hin : 2 ∈ m_players (match_heap one_match !!! 0%nat)).
  { apply (bool_decide_unpack _). vm_compute. exact I. }
  split; [apply one_match_in_service|]. split; [vm_compute; reflexivity|].
  split; [exact Hin|].
  apply (settled_players_can_rejoin unreached_pow 1000 2000 (Some (JS.str "m"))
           (Some [JS.str "a"; JS.str "b"]) one_match 0 2);
    [apply one_match_in_service|vm_compute; reflexivity|exact Hin].
Defined.

(** [matchCreated_top_four] at [four_queued]. *)
Lemma matchCreated_top_four_witness :
  (create_match 10 (JS.str "m") four_queued).2 = mkReply 200 (Success 0) /\
  (let st' := (create_match 10 (JS.str "m") four_queued).1 in
   emitted unreached_pow four_queued (CreateMatch 10 (JS.str "m"))
   = [matchCreated (match_view st' 0); update st'] /\
   match_view st' 0
   = mkMatchView (JS.str "m")
       ((fun e => mkPlayerBrief (qp_id (entry_player e))
                    (qp_name (entry_player e)) (qp_ranking (entry_player e)))
          <$> take 4 (queue (getQueueStatus four_queued)))
       10 active /\
   length (mv_players (match_view st' 0)) = 4 /\
   queue (getQueueStatus st')
   = (fun e => mkQueueEntry (position e - 4) (entry_player e) (entry_joinTime e))
       <$> drop 4 (queue (getQueueStatus four_queued))).
Proof.
  split; [vm_compute; reflexivity|].
  apply (matchCreated_top_four unreached_pow 10 (JS.str "m") four_queued 0).
  vm_compute; reflexivity.
Defined.

(** [addPlayer_first_come_first_served] at [two_queued_one_idle]: the idle
    player comes back at the instant 5. *)
Lemma addPlayer_first_come_first_served_witness :
  wf two_queued_one_idle /\ 2 < length (heap two_queued_one_idle) /\
  membership (heap two_queued_one_idle !!! 2%nat) = Idle /\
  lastMatchTime (heap two_queued_one_idle !!! 2%nat) = None /\
  (ranking (heap two_queued_one_idle !!! 2%nat) <? 1000)%float = false /\
  (forall e, e ∈ badmintonQueue two_queued_one_idle ->
     weight e = 1%float /\ (0 <= joinTime e <= 5)%Z) /\
  Sorted (fun a b => (joinTime a <= joinTime b)%Z)
    (badmintonQueue two_queued_one_idle) /\
  (5 < 2 ^ 53)%Z /\
  badmintonQueue (addPlayer 5 2 two_queued_one_idle).1
  = badmintonQueue two_queued_one_idle ++ [mkQueueItem 2 5 1] /\
  (addPlayer 5 2 two_queued_one_idle).2
  = Success (Z.of_nat (length (badmintonQueue two_queued_one_idle)) + 1)%Z.
Proof.
  assert (Hq : badmintonQueue two_queued_one_idle
               = [mkQueueItem 0 0 1; mkQueueItem 1 1 1])
    by (vm_compute; reflexivity).
  assert (Hall : forall e, e ∈ badmintonQueue two_queued_one_idle ->
            weight e = 1%float /\ (0 <= joinTime e <= 5)%Z).
  { rewrite Hq. intros e He.
    apply elem_of_cons in He as [->|He]; [cbn; split; [reflexivity|lia]|].
    apply list_elem_of_singleton in He as ->. cbn. split; [reflexivity|lia]. }
  assert (Hsorted : Sorted (fun a b => (joinTime a <= joinTime b)%Z)
                      (badmintonQueue two_queued_one_idle)).
  { rewrite Hq. repeat constructor. cbn. lia. }
  split; [apply two_queued_one_idle_wf|]. split; [vm_compute; lia|].
  split; [vm_compute; reflexivity|]. split; [vm_compute; reflexivity|].
  split; [vm_compute; reflexivity|]. split; [exact Hall|].
  split; [exact Hsorted|]. split; [lia|].
  apply (addPlayer_first_come_first_served 5 2 two_queued_one_idle);
    [apply two_queued_one_idle_wf|vm_compute; lia|vm_compute; reflexivity
    |vm_compute; reflexivity|vm_compute; reflexivity|exact Hall|exact Hsorted
    |lia].
Defined.

(** [toggleWinnerSelection_spec] for a click on the first of two selected
    players. *)
Lemma toggleWinnerSelection_spec_witness :
  NoDup [JS.str "a"; JS.str "b"] /\ length [JS.str "a"; JS.str "b"] <= 2 /\
  (let sel' := toggleWinnerSelection (JS.str "a") [JS.str "a"; JS.str "b"] in
   NoDup sel' /\ length sel' <= 2 /\
   (JS.str "a" ∈ [JS.str "a"; JS.str "b"] ->
      (JS.str "a" ∉ sel') /\ [JS.str "a"; JS.str "b"] ≡ₚ JS.str "a" :: sel') /\
   (JS.str "a" ∉ [JS.str "a"; JS.str "b"] ->
    length [JS.str "a"; JS.str "b"] < 2 ->
      sel' = [JS.str "a"; JS.str "b"] ++ [JS.str "a"]) /\
   (JS.str "a" ∉ [JS.str "a"; JS.str "b"] ->
    length [JS.str "a"; JS.str "b"] = 2 ->
      sel' = [JS.str "a"; JS.str "b"]) /\
   toggleWinnerSelection (JS.str "a") sel' ≡ₚ [JS.str "a"; JS.str "b"]).
Proof.
  assert (Hnd : NoDup [JS.str "a"; JS.str "b"]).
  { apply (bool_decide_unpack _). vm_compute. exact I. }
  split; [exact Hnd|]. split; [cbn; lia|].
  apply (toggleWinnerSelection_spec (JS.str "a") [JS.str "a"; JS.str "b"]);
    [exact Hnd|cbn; lia].
Defined.

(** [client_selection_accepted] at [one_match]: the first card is clicked,
    then the third, the first again, and the second. *)
Lemma client_selection_accepted_witness :
  wf one_match /\ JS.str "m" <> [] /\
  active_match one_match (JS.str "m") = Some 0 /\
  (forall c, c ∈ [JS.str "a"; JS.str "c"; JS.str "a"; JS.str "b"] ->
     c ∈ roster_ids one_match (match_heap one_match !!! 0%nat)) /\
  (let sel :=
     foldl (fun s c => toggleWinnerSelection c s) []
       [JS.str "a"; JS.str "c"; JS.str "a"; JS.str "b"] in
   match client_completeMatch (JS.str "m") sel with
   | Some (matchId, winnerIds) =>
       matchId = JS.str "m" /\ winnerIds = sel /\
       (complete_match unreached_pow 1000 (Some matchId) (Some winnerIds)
          one_match).2
       = mkReply 200 (Success 0)
   | None => length sel < 2
   end).
Proof.
  assert (Hclicks : forall c, c ∈ [JS.str "a"; JS.str "c"; JS.str "a"; JS.str "b"] ->
            c ∈ roster_ids one_match (match_heap one_match !!! 0%nat)).
  { intros c Hc. apply (bool_decide_unpack _).
    repeat (apply elem_of_cons in Hc as [->|Hc]; [vm_compute; exact I|]).
    destruct (proj1 (elem_of_nil c) Hc). }
  split; [apply one_match_wf|]. split; [discriminate|].
  split; [vm_compute; reflexivity|]. split; [exact Hclicks|].
  apply (client_selection_accepted unreached_pow 1000 (JS.str "m")
           [JS.str "a"; JS.str "c"; JS.str "a"; JS.str "b"] one_match 0);
    [apply one_match_wf|discriminate|vm_compute; reflexivity|exact Hclicks].
Defined.


(** [addPlayer_queue_sorted] at [one_done] after a fifth player has joined:
    the first player comes back 37.2 minutes after the match, with a weight
    of 2.24, and goes before the newcomer, whose weight is 1. *)
Lemma addPlayer_queue_sorted_witness :
  membership (heap one_done_one_queued !!! 0%nat) = Idle /\
  JS.consistent_on compareFn
    (badmintonQueue (addPlayer (1000 + 2232000) 0 one_done_one_queued).1) /\
  badmintonQueue (addPlayer (1000 + 2232000) 0 one_done_one_queued).1
  = [mkQueueItem 0 2233000 2.24; mkQueueItem 4 2000 1] /\
  StronglySorted (JS.not_after compareFn)
    (badmintonQueue (addPlayer (1000 + 2232000) 0 one_done_one_queued).1).
Proof.
  assert (Hidle : membership (heap one_done_one_queued !!! 0%nat) = Idle)
    by (vm_compute; reflexivity).
  assert (Hcons : JS.consistent_on compareFn
            (badmintonQueue (addPlayer (1000 + 2232000) 0 one_done_one_queued).1)).
  { apply (bool_decide_unpack _). vm_compute. exact I. }
  split; [exact Hidle|]. split; [exact Hcons|].
  split; [vm_compute; reflexivity|].
  exact (addPlayer_queue_sorted (1000 + 2232000) 0 one_done_one_queued Hidle Hcons).
Defined.
